(** * bjaus/retry: the retry loop and the backoff algebra

    A shallow embedding of the Go package [retry] and the properties
    its specification states about it.

    Conventions of the embedding.
    - Go's [int] and [time.Duration] are 64-bit signed integers. They are
      carried by [Z]; every operation of the source that can leave the
      64-bit range is followed by [wrap64].
    - Go's [error] is an interface value that may be [nil]: it is
      [option errval], [None] standing for [nil].
    - [float64] is IEEE-754 binary64, carried by [spec_float] with the
      operations of the Standard Library's [SpecFloat] at precision 53.
    - Callbacks (the operation, the clock, the hooks, the predicate, the
      random source) act on a world [W] that the embedding threads through
      every call. The context argument [ctx] of the source is part of
      that world. *)

From Stdlib Require Import ZArith QArith Qround List Bool Lia Lqa String.
From Stdlib Require Import SpecFloat.
Import ListNotations.
Local Open Scope Z_scope.

Set Implicit Arguments.

(** ** 64-bit integers *)

Definition MaxInt64 : Z := 2 ^ 63 - 1.
Definition MinInt64 : Z := - 2 ^ 63.

(** Two's complement wrap-around of a 64-bit signed operation. *)
Definition wrap64 (z : Z) : Z := (z + 2 ^ 63) mod 2 ^ 64 - 2 ^ 63.

Definition in_int64 (z : Z) : Prop := MinInt64 <= z <= MaxInt64.

(** ** time.Duration and time.Time *)

Definition Duration := Z.

Definition Nanosecond : Duration := 1.
Definition Microsecond : Duration := 1000 * Nanosecond.
Definition Millisecond : Duration := 1000 * Microsecond.
Definition Second : Duration := 1000 * Millisecond.

(** An instant is a number of nanoseconds on the clock's time line.
    [Time.Add] is exact on that line; [Time.Sub] saturates at the
    extreme durations, as in package [time]. *)
Definition Time := Z.

Definition Time_Add (t : Time) (d : Duration) : Time := t + d.

Definition Time_After (t u : Time) : bool := u <? t.

Definition Time_Sub (t u : Time) : Duration :=
  if MaxInt64 <? t - u then MaxInt64
  else if t - u <? MinInt64 then MinInt64
  else t - u.

(** ** Errors

    The error values the package meets: leaves made by [errors.New]
    (told apart by the tag of their allocation), wrappers made by
    [fmt.Errorf] with the verb [%w], the result of [errors.Join], and
    the package's own [stopError]. *)

#[warnings="-register-all"] Inductive errval : Type :=
| errorString (tag : nat) (s : string)
| wrapError (msg : string) (err : errval)
| joinError (errs : list errval)
| stopError (err : errval).

Definition error := option errval.

(** Comparison of error values ([==] on the interface values, which
    hold pointers). A value of [errval] stands for one allocation:
    leaves are told apart by their tag, the other values by what they
    hold, so that two wrappers built apart around the same error are
    one value here. The comparison is exact between a value and
    itself and between leaves. *)
Fixpoint errval_eqb (a b : errval) {struct a} : bool :=
  match a, b with
  | errorString p s, errorString q t => Nat.eqb p q && String.eqb s t
  | wrapError m e, wrapError n f => String.eqb m n && errval_eqb e f
  | joinError es, joinError fs =>
      (fix all2 (l : list errval) (r : list errval) {struct l} : bool :=
         match l, r with
         | [], [] => true
         | x :: l', y :: r' => errval_eqb x y && all2 l' r'
         | _, _ => false
         end) es fs
  | stopError e, stopError f => errval_eqb e f
  | _, _ => false
  end.

(** [Unwrap() error] of the values that have it. *)
Definition Unwrap (e : errval) : error :=
  match e with
  | wrapError _ c => Some c
  | stopError c => Some c
  | _ => None
  end.

(** [errors.As(err, &stopped)] with [stopped] of type [*stopError]:
    the first [stopError] met on the chain of [err], depth first. *)
Fixpoint as_stopError (e : errval) : option errval :=
  match e with
  | stopError _ => Some e
  | errorString _ _ => None
  | wrapError _ c => as_stopError c
  | joinError es =>
      (fix first (l : list errval) : option errval :=
         match l with
         | [] => None
         | x :: l' =>
             match as_stopError x with
             | Some s => Some s
             | None => first l'
             end
         end) es
  end.

Definition errors_As_stopError (err : error) : option errval :=
  match err with
  | None => None
  | Some e => as_stopError e
  end.

(** [errors.Is]: [target] is met on the chain of [err]. *)
Fixpoint is_chain (e target : errval) : bool :=
  errval_eqb e target ||
  match e with
  | errorString _ _ => false
  | wrapError _ c => is_chain c target
  | stopError c => is_chain c target
  | joinError es =>
      (fix any (l : list errval) : bool :=
         match l with
         | [] => false
         | x :: l' => is_chain x target || any l'
         end) es
  end.

Definition errors_Is (err target : error) : bool :=
  match err, target with
  | Some e, Some t => is_chain e t
  | None, None => true
  | _, _ => false
  end.

(** [errors.Join] of a slice without [nil] entries. *)
Definition errors_Join (errs : list errval) : error :=
  match errs with
  | [] => None
  | _ => Some (joinError errs)
  end.

(** stop.go *)
Definition Stop (err : error) : error :=
  match err with
  | None => None
  | Some e => Some (stopError e)
  end.

(** ** float64

    Every operation rounds on its own, as the compiler for amd64 has
    it (no fused multiply-add). *)

Definition prec : Z := 53.
Definition emax : Z := 1024.

Definition float64 := spec_float.

Definition f64_mul : float64 -> float64 -> float64 := SFmul prec emax.
Definition f64_add : float64 -> float64 -> float64 := SFadd prec emax.
Definition f64_sub : float64 -> float64 -> float64 := SFsub prec emax.
Definition f64_leb : float64 -> float64 -> bool := SFleb.

(** Conversion of an integer to [float64], to nearest, ties to even. *)
Definition float64_of_Z (z : Z) : float64 := binary_normalize prec emax z 0 false.

Definition f64_zero : float64 := S754_zero false.
Definition f64_one : float64 := float64_of_Z 1.
Definition f64_two : float64 := float64_of_Z 2.

(** The integer part of a finite float (the fraction is discarded). *)
Definition trunc_float64 (x : float64) : option Z :=
  match x with
  | S754_zero _ => Some 0
  | S754_finite s m e => Some (cond_Zopp s (Z.shiftl (Zpos m) e))
  | _ => None
  end.

(** ** State passing *)

Section StateMonad.
Variable W : Type.

Definition St (A : Type) : Type := W -> A * W.

Definition st_ret {A} (a : A) : St A := fun w => (a, w).

Definition st_bind {A B} (m : St A) (f : A -> St B) : St B :=
  fun w => let (a, w1) := m w in f a w1.
End StateMonad.

Arguments st_ret {W A} a.
Arguments st_bind {W A B} m f.

Declare Scope st_scope.
Delimit Scope st_scope with st.
Notation "x <- m ;; k" := (st_bind m (fun x => k))
  (at level 61, m at next level, right associativity) : st_scope.

(** ** backoff.go *)

Section BackoffAlgebra.
Variable W : Type.

(** [rand.Float64()] of the global source: a draw, and the source
    after it. *)
Variable rand_Float64 : W -> float64 * W.

(** The conversion of a float to an integer type is implementation
    dependent in Go when the value does not fit (or is not a number):
    [indefinite] is what the platform yields then. *)
Variable indefinite : float64 -> Z.

Definition Duration_of_float64 (x : float64) : Duration :=
  match trunc_float64 x with
  | Some z => if (MinInt64 <=? z) && (z <=? MaxInt64) then z else indefinite x
  | None => indefinite x
  end.

(** The interface [Backoff], built by the adapter [BackoffFunc]. *)
Record Backoff : Type := BackoffFunc { Delay : Z -> St W Duration }.

Local Open Scope st_scope.

Definition Constant (d : Duration) : Backoff :=
  BackoffFunc (fun attempt => st_ret d).

Definition Linear (base : Duration) : Backoff :=
  BackoffFunc (fun attempt => st_ret (wrap64 (base * attempt))).

Definition Exponential (base : Duration) : Backoff :=
  BackoffFunc (fun attempt =>
    if attempt <=? 0 then st_ret base
    else if 62 <? attempt then st_ret MaxInt64
    else st_ret (wrap64 (base * wrap64 (Z.shiftl 1 (attempt - 1))))).

Definition WithCap (max : Duration) (b : Backoff) : Backoff :=
  BackoffFunc (fun attempt =>
    d <- Delay b attempt ;;
    if max <? d then st_ret max else st_ret d).

Definition WithMin (min : Duration) (b : Backoff) : Backoff :=
  BackoffFunc (fun attempt =>
    d <- Delay b attempt ;;
    if d <? min then st_ret min else st_ret d).

Definition WithJitter (factor : float64) (b : Backoff) : Backoff :=
  BackoffFunc (fun attempt =>
    d <- Delay b attempt ;;
    if f64_leb factor f64_zero then st_ret d
    else
      let jitterRange := f64_mul (float64_of_Z d) factor in
      r <- rand_Float64 ;;
      let jitter := f64_mul (f64_sub (f64_mul r f64_two) f64_one) jitterRange in
      let result := Duration_of_float64 (f64_add (float64_of_Z d) jitter) in
      if result <? 0 then st_ret 0 else st_ret result).

(** The strategies the package provides, and their compositions. *)
Inductive strategy : Type :=
| SConstant (d : Duration)
| SLinear (base : Duration)
| SExponential (base : Duration)
| SWithCap (max : Duration) (s : strategy)
| SWithMin (min : Duration) (s : strategy)
| SWithJitter (factor : float64) (s : strategy).

Fixpoint build (s : strategy) : Backoff :=
  match s with
  | SConstant d => Constant d
  | SLinear base => Linear base
  | SExponential base => Exponential base
  | SWithCap max s' => WithCap max (build s')
  | SWithMin min s' => WithMin min (build s')
  | SWithJitter factor s' => WithJitter factor (build s')
  end.

(** The side conditions under which a strategy stays in the 64-bit
    range at [attempt] with parameters that are not negative. *)
Fixpoint fits (attempt : Z) (s : strategy) : bool :=
  match s with
  | SConstant d => 0 <=? d
  | SLinear base =>
      (0 <=? base) && (0 <=? attempt) && (base * attempt <=? MaxInt64)
  | SExponential base =>
      (62 <? attempt) ||
      ((0 <=? base) && ((attempt <=? 0) || (base * 2 ^ (attempt - 1) <=? MaxInt64)))
  | SWithCap max s' => (0 <=? max) && fits attempt s'
  | SWithMin min s' => (0 <=? min) || fits attempt s'
  | SWithJitter factor s' => negb (f64_leb factor f64_zero) || fits attempt s'
  end.

(** The property of the specification: no negative delay on the whole
    range of attempts. *)
Definition nonneg_on_range (b : Backoff) : Prop :=
  forall (attempt : Z) (w : W),
    -1 <= attempt <= 10000 -> 0 <= fst (Delay b attempt w).

End BackoffAlgebra.

(** ** retry.go and option.go *)

(** What the loop asks of its environment, in the order it asks. The
    calls are recorded next to the world they act on, so that the
    properties can speak of how often and in which order the operation
    and the hooks are called. *)
Inductive event : Type :=
| CallFn (attempt : Z) (result : error)
| CallOnSuccess (attempts : Z)
| CallOnExhausted (attempts : Z) (err : error)
| CallCondition (err : error) (retry : bool)
| CallNow (t : Time)
| CallDelay (attempt : Z) (d : Duration)
| CallOnRetry (attempt : Z) (err : error) (delay : Duration)
| CallSleep (d : Duration) (result : error).

(** The [return] statement by which [execute] leaves the loop, under
    the names the specification gives to the final states. *)
Inductive budget : Type := AttemptBudget | DeadlinePassed | NoTimeLeft.

Inductive exit : Type :=
| Success
| Stopped
| Exhausted (b : budget)
| ConditionRejected
| Cancelled.

Section Tracing.
Variable W : Type.

(** A computation on the world that also records the calls it makes. *)
Definition M (A : Type) : Type := W -> A * W * list event.

Definition ret {A} (a : A) : M A := fun w => (a, w, []).

Definition bind {A B} (m : M A) (f : A -> M B) : M B :=
  fun w =>
    let '(a, w1, t1) := m w in
    let '(b, w2, t2) := f a w1 in
    (b, w2, t1 ++ t2).

(** A call into the environment, recorded as [ev] of its result. *)
Definition call {A} (f : St W A) (ev : A -> event) : M A :=
  fun w => let (a, w1) := f w in (a, w1, [ev a]).
End Tracing.

Arguments ret {W A} a.
Arguments bind {W A B} m f.
Arguments call {W A} f ev.

Declare Scope trace_scope.
Delimit Scope trace_scope with trace.
Notation "x <- m ;; k" := (bind m (fun x => k))
  (at level 61, m at next level, right associativity) : trace_scope.
Notation "m ;; k" := (bind m (fun _ => k))
  (at level 61, right associativity) : trace_scope.

Section Retry.
Variable W : Type.
Variable rand_Float64 : W -> float64 * W.
Variable indefinite : float64 -> Z.

(** retry.go: the callback types. *)
Definition Func : Type := St W error.
Definition Condition : Type := error -> St W bool.
Definition OnRetryFunc : Type := Z -> error -> Duration -> St W unit.
Definition OnSuccessFunc : Type := Z -> St W unit.
Definition OnExhaustedFunc : Type := Z -> error -> St W unit.

(** clock.go *)
Record Clock : Type := {
  Now : St W Time;
  Sleep : Duration -> St W error
}.

(** The platform's timer, behind [realClock]. *)
Variable realClock : Clock.

(** option.go. A [nil] function value is [None]. *)
Record config : Type := {
  maxAttempts : Z;
  maxDuration : Duration;
  backoff : Backoff W;
  clock : Clock;
  condition : option Condition;
  onRetry : option OnRetryFunc;
  onSuccess : option OnSuccessFunc;
  onExhausted : option OnExhaustedFunc;
  allErrors : bool
}.

Definition Option : Type := config -> config.

Definition WithMaxAttempts (n : Z) : Option := fun c =>
  {| maxAttempts := n; maxDuration := maxDuration c; backoff := backoff c;
     clock := clock c; condition := condition c; onRetry := onRetry c;
     onSuccess := onSuccess c; onExhausted := onExhausted c;
     allErrors := allErrors c |}.

Definition WithMaxDuration (d : Duration) : Option := fun c =>
  {| maxAttempts := maxAttempts c; maxDuration := d; backoff := backoff c;
     clock := clock c; condition := condition c; onRetry := onRetry c;
     onSuccess := onSuccess c; onExhausted := onExhausted c;
     allErrors := allErrors c |}.

Definition WithBackoff (b : Backoff W) : Option := fun c =>
  {| maxAttempts := maxAttempts c; maxDuration := maxDuration c; backoff := b;
     clock := clock c; condition := condition c; onRetry := onRetry c;
     onSuccess := onSuccess c; onExhausted := onExhausted c;
     allErrors := allErrors c |}.

Definition WithClock (k : Clock) : Option := fun c =>
  {| maxAttempts := maxAttempts c; maxDuration := maxDuration c;
     backoff := backoff c; clock := k; condition := condition c;
     onRetry := onRetry c; onSuccess := onSuccess c;
     onExhausted := onExhausted c; allErrors := allErrors c |}.

Definition If (cond : option Condition) : Option := fun c =>
  {| maxAttempts := maxAttempts c; maxDuration := maxDuration c;
     backoff := backoff c; clock := clock c; condition := cond;
     onRetry := onRetry c; onSuccess := onSuccess c;
     onExhausted := onExhausted c; allErrors := allErrors c |}.

Definition Not (cond : Condition) : Condition :=
  fun err => (b <- cond err ;; st_ret (negb b))%st.

Definition IfNot (cond : Condition) : Option := If (Some (Not cond)).

Definition OnRetry (fn : option OnRetryFunc) : Option := fun c =>
  {| maxAttempts := maxAttempts c; maxDuration := maxDuration c;
     backoff := backoff c; clock := clock c; condition := condition c;
     onRetry := fn; onSuccess := onSuccess c;
     onExhausted := onExhausted c; allErrors := allErrors c |}.

Definition OnSuccess (fn : option OnSuccessFunc) : Option := fun c =>
  {| maxAttempts := maxAttempts c; maxDuration := maxDuration c;
     backoff := backoff c; clock := clock c; condition := condition c;
     onRetry := onRetry c; onSuccess := fn;
     onExhausted := onExhausted c; allErrors := allErrors c |}.

Definition OnExhausted (fn : option OnExhaustedFunc) : Option := fun c =>
  {| maxAttempts := maxAttempts c; maxDuration := maxDuration c;
     backoff := backoff c; clock := clock c; condition := condition c;
     onRetry := onRetry c; onSuccess := onSuccess c;
     onExhausted := fn; allErrors := allErrors c |}.

Definition WithAllErrors : Option := fun c =>
  {| maxAttempts := maxAttempts c; maxDuration := maxDuration c;
     backoff := backoff c; clock := clock c; condition := condition c;
     onRetry := onRetry c; onSuccess := onSuccess c;
     onExhausted := onExhausted c; allErrors := true |}.

(** retry.go *)
Definition DefaultMaxAttempts : Z := 3.

Definition defaultBackoff : Backoff W := Exponential W (100 * Millisecond).
Definition defaultClock : Clock := realClock.

Definition defaultCondition : Condition :=
  fun err => st_ret (match err with Some _ => true | None => false end).

Definition joinErrors (errs : list errval) : error :=
  match errs with
  | [e] => Some e
  | _ => errors_Join errs
  end.

Local Open Scope trace_scope.

(** One turn of the [for] loop either leaves [execute] with an error
    value, or goes on with the updated [lastErr] and [errs]. *)
Inductive turn : Type :=
| Return (err : error) (how : exit)
| Continue (lastErr : error) (errs : list errval).

Section Loop.
Variable fn : Func.
Variable cfg : config.
Variable maxAttempts' : Z.
Variable deadline : Time.

(** [if cfg.allErrors { return joinErrors(errs) }; return lastErr] *)
Definition recorded (lastErr : error) (errs : list errval) : error :=
  if allErrors cfg then joinErrors errs else lastErr.

(** [if cfg.onExhausted != nil { cfg.onExhausted(ctx, attempt, err) }] *)
Definition exhausted (attempt : Z) (err : error) : M W unit :=
  match onExhausted cfg with
  | Some hook => call (hook attempt err) (fun _ => CallOnExhausted attempt err)
  | None => ret tt
  end.

Definition body (attempt : Z) (lastErr : error) (errs : list errval)
  : M W turn :=
  err <- call fn (CallFn attempt) ;;
  match err with
  | None =>
      match onSuccess cfg with
      | Some hook => call (hook attempt) (fun _ => CallOnSuccess attempt)
      | None => ret tt
      end ;;
      ret (Return None Success)
  | Some e =>
      match errors_As_stopError err with
      | Some stopped => ret (Return (Unwrap stopped) Stopped)
      | None =>
          let errs := if allErrors cfg then errs ++ [e] else errs in
          let lastErr := if allErrors cfg then lastErr else err in
          if maxAttempts' <=? attempt then
            exhausted attempt err ;;
            ret (Return (recorded lastErr errs) (Exhausted AttemptBudget))
          else
            retry <- match condition cfg with
                     | Some cond => call (cond err) (CallCondition err)
                     | None => ret true
                     end ;;
            if negb retry then
              ret (Return (recorded lastErr errs) ConditionRejected)
            else
              late <- (if 0 <? maxDuration cfg then
                         now <- call (Now (clock cfg)) CallNow ;;
                         ret (Time_After now deadline)
                       else ret false) ;;
              if late then
                exhausted attempt err ;;
                ret (Return (recorded lastErr errs) (Exhausted DeadlinePassed))
              else
                delay <- call (Delay (backoff cfg) attempt) (CallDelay attempt) ;;
                delay <- (if 0 <? maxDuration cfg then
                            now <- call (Now (clock cfg)) CallNow ;;
                            let remaining := Time_Sub deadline now in
                            ret (if remaining <? delay then remaining else delay)
                          else ret delay) ;;
                if (0 <? maxDuration cfg) && (delay <=? 0) then
                  exhausted attempt err ;;
                  ret (Return (recorded lastErr errs) (Exhausted NoTimeLeft))
                else
                  match onRetry cfg with
                  | Some hook =>
                      call (hook attempt err delay)
                           (fun _ => CallOnRetry attempt err delay)
                  | None => ret tt
                  end ;;
                  cancelled <- call (Sleep (clock cfg) delay) (CallSleep delay) ;;
                  match cancelled with
                  | Some _ => ret (Return (recorded lastErr errs) Cancelled)
                  | None => ret (Continue lastErr errs)
                  end
      end
  end.

(** [for attempt := 1; ; attempt++ { ... }], with [fuel] turns at
    most. The increment cannot overflow: a turn goes on only while
    [attempt < maxAttempts']. *)
Fixpoint loop (fuel : nat) (attempt : Z) (lastErr : error)
  (errs : list errval) : M W (option (error * exit)) :=
  match fuel with
  | O => ret None
  | S fuel' =>
      t <- body attempt lastErr errs ;;
      match t with
      | Return err how => ret (Some (err, how))
      | Continue lastErr' errs' => loop fuel' (attempt + 1) lastErr' errs'
      end
  end.
End Loop.

Definition effective_maxAttempts (cfg : config) : Z :=
  if maxAttempts cfg <=? 0 then DefaultMaxAttempts else maxAttempts cfg.

(** The deadline [execute] computes before the first attempt. The
    zero [time.Time] of an unset deadline is never read; it is [0]
    here. *)
Definition start_deadline (cfg : config) : M W Time :=
  if 0 <? maxDuration cfg then
    now <- call (Now (clock cfg)) CallNow ;;
    ret (Time_Add now (maxDuration cfg))
  else ret 0.

(** [execute]. The loop is given as many turns as the attempt budget
    allows, which is always enough for it to return. *)
Definition execute (fn : Func) (cfg : config) : M W (option (error * exit)) :=
  deadline <- start_deadline cfg ;;
  let maxAttempts' := effective_maxAttempts cfg in
  loop fn cfg maxAttempts' deadline (Z.to_nat maxAttempts') 1 None [].

(** [retry.Do] *)
Definition Do (fn : Func) (opts : list Option) : M W (option (error * exit)) :=
  let cfg := {| maxAttempts := DefaultMaxAttempts; maxDuration := 0;
                backoff := defaultBackoff; clock := defaultClock;
                condition := Some defaultCondition; onRetry := None;
                onSuccess := None; onExhausted := None;
                allErrors := false |} in
  execute fn (fold_left (fun c opt => opt c) opts cfg).

(** [Policy], [New], [Never], [Default] and the method [Do] of [Policy] *)
Record Policy : Type := {
  p_maxAttempts : Z;
  p_maxDuration : Duration;
  p_backoff : Backoff W;
  p_clock : Clock
}.

Definition New (opts : list Option) : Policy :=
  let cfg := fold_left (fun c opt => opt c) opts
               {| maxAttempts := DefaultMaxAttempts; maxDuration := 0;
                  backoff := Exponential W (100 * Millisecond);
                  clock := realClock; condition := None; onRetry := None;
                  onSuccess := None; onExhausted := None;
                  allErrors := false |} in
  {| p_maxAttempts := maxAttempts cfg; p_maxDuration := maxDuration cfg;
     p_backoff := backoff cfg; p_clock := clock cfg |}.

Definition Never : Policy := New [WithMaxAttempts 1].

(** The literal [0.2] of [Default], to nearest. *)
Definition f64_0_2 : float64 := S754_finite false 7205759403792794 (-55).

Definition Default : Policy :=
  New [WithMaxAttempts 3;
       WithBackoff (WithJitter rand_Float64 indefinite f64_0_2
                      (WithCap (10 * Second) (Exponential W (100 * Millisecond))))].

Definition Policy_Do (p : Policy) (fn : Func) (opts : list Option)
  : M W (option (error * exit)) :=
  let cfg := {| maxAttempts := p_maxAttempts p; maxDuration := p_maxDuration p;
                backoff := p_backoff p; clock := p_clock p;
                condition := Some defaultCondition; onRetry := None;
                onSuccess := None; onExhausted := None;
                allErrors := false |} in
  execute fn (fold_left (fun c opt => opt c) opts cfg).

End Retry.


(** ** Reading a record of calls *)

(** The calls of the operation: attempt number and result. *)
Definition fn_calls (tr : list event) : list (Z * error) :=
  flat_map (fun ev => match ev with CallFn a r => [(a, r)] | _ => [] end) tr.

(** The errors the operation returned, in order. *)
Definition failures (tr : list event) : list errval :=
  flat_map (fun ev => match ev with CallFn _ (Some e) => [e] | _ => [] end) tr.

(** The calls of the exhaustion hook. *)
Definition exhausted_calls (tr : list event) : list (Z * error) :=
  flat_map (fun ev => match ev with CallOnExhausted a e => [(a, e)] | _ => [] end) tr.

(** The calls of the retry predicate. *)
Definition condition_calls (tr : list event) : list (error * bool) :=
  flat_map (fun ev => match ev with CallCondition e b => [(e, b)] | _ => [] end) tr.

(** The durations the clock was asked to sleep. *)
Definition sleeps (tr : list event) : list Duration :=
  flat_map (fun ev => match ev with CallSleep d _ => [d] | _ => [] end) tr.

(** The attempt numbers [a], [a + 1], ... of [n] successive turns. *)
Fixpoint counting (a : Z) (n : nat) : list Z :=
  match n with
  | O => []
  | S n' => a :: counting (a + 1) n'
  end.


(** The exits that hand back the recorded error or errors. *)
Definition returns_recorded (x : exit) : bool :=
  match x with Success | Stopped => false | _ => true end.

(** [x] lies on the chain of [e]: it is [e] or is reached from it by
    [Unwrap], through any member of a joined error. *)
Inductive on_chain (x : errval) : errval -> Prop :=
| chain_here : on_chain x x
| chain_wrap (msg : string) (c : errval) :
    on_chain x c -> on_chain x (wrapError msg c)
| chain_stop (c : errval) :
    on_chain x c -> on_chain x (stopError c)
| chain_join (es : list errval) (c : errval) :
    In c es -> on_chain x c -> on_chain x (joinError es).

(** [fmt.Errorf] applied repeatedly, outermost message first. *)
Definition wrapped (msgs : list string) (e : errval) : errval :=
  fold_right wrapError e msgs.

(** ** Runs of the loop *)

Section Runs.
Variable W : Type.
Variable fn : Func W.
Variable cfg : config W.
Variable maxAttempts' : Z.
Variable deadline : Time.

(** The turns of a run that leaves the loop: from attempt [a] with
    [lastErr] and [errs] in world [w], the loop returns [res] in world
    [w'] after the calls [tr]. *)
Inductive run : Z -> error -> list errval -> W ->
                (error * exit) -> W -> list event -> Prop :=
| run_return a lastErr errs w err how w1 t1 :
    body fn cfg maxAttempts' deadline a lastErr errs w = (Return err how, w1, t1) ->
    run a lastErr errs w (err, how) w1 t1
| run_continue a lastErr errs w lastErr' errs' w1 t1 res w2 t2 :
    body fn cfg maxAttempts' deadline a lastErr errs w = (Continue lastErr' errs', w1, t1) ->
    run (a + 1) lastErr' errs' w1 res w2 t2 ->
    run a lastErr errs w res w2 (t1 ++ t2).

(** [lastErr] and [errs] after recording the failure [e]. *)
Definition record_lastErr (lastErr : error) (e : errval) : error :=
  if allErrors cfg then lastErr else Some e.

Definition record_errs (errs : list errval) (e : errval) : list errval :=
  if allErrors cfg then errs ++ [e] else errs.

End Runs.

(** The record a hook leaves when it is set. *)
Definition hook_call (A : Type) (hook : option A) (ev : event) : list event :=
  match hook with
  | Some _ => [ev]
  | None => []
  end.

(** The retry predicate lets the loop go on after [err]: it is not
    set, or it answers [true], taking the world from [w1] to [w2]. *)
Definition accepts (W : Type) (cfg : config W) (err : error) (w1 w2 : W)
  : Prop :=
  match condition cfg with
  | None => w2 = w1
  | Some cond => cond err w1 = (true, w2)
  end.

(** ** retry_test.go: the bench of the tests *)

(** The world of a test: the fake clock, the state of the context, and
    the counter of the operation. *)
Record bench : Type := {
  clock_now : Time;
  clock_sleeps : list Duration;
  ctx_done : bool;
  attempts : Z
}.

Definition context_Canceled : errval := errorString 1 "context canceled".

Definition fakeClock : Clock bench := {|
  Now := fun w => (clock_now w, w);
  Sleep := fun d w =>
    if ctx_done w then (Some context_Canceled, w)
    else (None, {| clock_now := Time_Add (clock_now w) d;
                   clock_sleeps := clock_sleeps w ++ [d];
                   ctx_done := ctx_done w;
                   attempts := attempts w |})
|}.

Definition newBench : bench :=
  {| clock_now := 0; clock_sleeps := []; ctx_done := false; attempts := 0 |}.

Definition errTest : errval := errorString 0 "test error".

Definition count_attempt (w : bench) : bench :=
  {| clock_now := clock_now w; clock_sleeps := clock_sleeps w;
     ctx_done := ctx_done w; attempts := attempts w + 1 |}.

(** [attempts++; return errTest] *)
Definition always_errTest : Func bench :=
  fun w => (Some errTest, count_attempt w).

(** [attempts++; return retry.Stop(errTest)] *)
Definition always_Stop : Func bench :=
  fun w => (Stop (Some errTest), count_attempt w).

(** [attempts++; return fmt.Errorf("op: %w", retry.Stop(errTest))] *)
Definition always_wrapped_Stop : Func bench :=
  fun w => (Some (wrapError "op" (stopError errTest)), count_attempt w).

(** [attempts++; if attempts == 1 { return err1 }; return err2] *)
Definition err1 : errval := errorString 2 "error 1".
Definition err2 : errval := errorString 3 "error 2".

Definition err1_then_err2 : Func bench :=
  fun w => (Some (if attempts w =? 0 then err1 else err2), count_attempt w).

(** The configuration [retry.Do] builds from the options of a test. *)
Definition bench_config (opts : list (Option bench)) : config bench :=
  fold_left (fun c opt => opt c) opts
    {| maxAttempts := DefaultMaxAttempts; maxDuration := 0;
       backoff := defaultBackoff bench; clock := fakeClock;
       condition := Some (@defaultCondition bench); onRetry := None;
       onSuccess := None; onExhausted := None; allErrors := false |}.

(** A hook that does nothing but be called. *)
Definition quiet_OnExhausted : OnExhaustedFunc bench := fun _ _ w => (tt, w).

(** ** The settings of the specification's examples *)

(** An operation that fails at every call, never with a terminal error. *)
Definition always_fails (W : Type) (fn : Func W) : Prop :=
  forall w, exists e w1, fn w = (Some e, w1) /\ as_stopError e = None.

(** A retry predicate that, if set, lets every failure be retried (as
    [defaultCondition] does). *)
Definition always_accepts (W : Type) (cfg : config W) : Prop :=
  forall cond e w, condition cfg = Some cond -> fst (cond (Some e) w) = true.

(** A clock whose sleep is never interrupted. *)
Definition never_cancelled (W : Type) (cfg : config W) : Prop :=
  forall d w, fst (Sleep (clock cfg) d w) = None.

(** The fake clock of the tests under [context.Background()], which is
    never done. *)
Definition backgroundClock : Clock bench := {|
  Now := fun w => (clock_now w, w);
  Sleep := fun d w =>
    (None, {| clock_now := Time_Add (clock_now w) d;
              clock_sleeps := clock_sleeps w ++ [d];
              ctx_done := ctx_done w;
              attempts := attempts w |})
|}.

(** [clock.Advance(d); attempts++; return errTest] *)
Definition errTest_after (d : Duration) : Func bench :=
  fun w => (Some errTest,
            {| clock_now := Time_Add (clock_now w) d;
               clock_sleeps := clock_sleeps w;
               ctx_done := ctx_done w;
               attempts := attempts w + 1 |}).

(** A predicate that rejects every error. *)
Definition reject_all : Condition bench := fun _ w => (false, w).

(** ** The values of floats *)

(** The rational a finite float stands for: its signed mantissa times
    two to the power of its exponent ([0] for what is not finite). *)
Definition F2Q (x : float64) : Q :=
  match x with
  | S754_finite s m e =>
      match e with
      | Z0 => inject_Z (cond_Zopp s (Zpos m))
      | Zpos p => inject_Z (cond_Zopp s (Zpos m) * 2 ^ Zpos p)
      | Zneg p => Qmake (cond_Zopp s (Zpos m)) (2 ^ p)
      end
  | _ => 0%Q
  end.

Definition is_finite (x : float64) : bool :=
  match x with
  | S754_zero _ | S754_finite _ _ _ => true
  | _ => false
  end.

(** What [rand.Float64()] can produce: a number of [[0, 1)]. *)
Definition unit_draw (r : float64) : Prop :=
  is_finite r = true /\ (0 <= F2Q r)%Q /\ (F2Q r < 1)%Q.

(** [x] is a finite float, with an exponent that is not positive,
    whose value lies between the integers [L] and [U]. *)
Definition between (L U : Z) (x : float64) : Prop :=
  match x with
  | S754_zero _ => L <= 0 <= U
  | S754_finite s m e =>
      e <= 0 /\
      L * 2 ^ (- e) <= cond_Zopp s (Zpos m) <= U * 2 ^ (- e)
  | _ => False
  end.

(** The same for the magnitude of a float of sign [s]. *)
Definition between_mag (L U : Z) (s : bool) (x : float64) : Prop :=
  match x with
  | S754_zero s' => s' = s /\ L <= 0
  | S754_finite s' m e =>
      s' = s /\ e <= 0 /\ L * 2 ^ (- e) <= Zpos m <= U * 2 ^ (- e)
  | _ => False
  end.

(** The rounding and sticky bits of a shifted mantissa say that
    something was shifted out. *)
Definition inexact (mrs : shr_record) : bool := shr_r mrs || shr_s mrs.

(** The interval of the specification for a jittered constant delay:
    [[d*(1-f), d*(1+f)]], each end clamped to zero. *)
Definition clamp0 (q : Q) : Q := if Qle_bool 0 q then q else 0%Q.

Definition in_jitter_interval (d : Duration) (factor : float64) (x : Duration)
  : Prop :=
  (clamp0 (inject_Z d * (1 - F2Q factor)) <= inject_Z x)%Q /\
  (inject_Z x <= clamp0 (inject_Z d * (1 + F2Q factor)))%Q.

(** The draw [0] of the random source, always. *)
Definition rand_zero (W : Type) : W -> float64 * W :=
  fun w => (S754_zero false, w).

(** [0.5] *)
Definition f64_half : float64 := S754_finite false 4503599627370496 (-53).

(** [k] shifts to the right divide by [2^k], rounding down, and
    remember whether the division was exact. *)
Definition shifted (k : Z) (mrs mrs' : shr_record) : Prop :=
  shr_m mrs' = shr_m mrs / 2 ^ k /\
  inexact mrs' = inexact mrs || negb (shr_m mrs mod 2 ^ k =? 0).


(** ** More readings of a record of calls *)

(** The readings of the clock. *)
Definition now_calls (tr : list event) : list Time :=
  flat_map (fun ev => match ev with CallNow t => [t] | _ => [] end) tr.

(** The calls of the strategy: attempt number and delay. *)
Definition delay_calls (tr : list event) : list (Z * Duration) :=
  flat_map (fun ev => match ev with CallDelay a d => [(a, d)] | _ => [] end) tr.

(** The calls of the retry hook. *)
Definition retry_calls (tr : list event) : list (Z * error * Duration) :=
  flat_map (fun ev => match ev with
                      | CallOnRetry a e d => [(a, e, d)]
                      | _ => []
                      end) tr.

(** The calls of the success hook. *)
Definition success_calls (tr : list event) : list Z :=
  flat_map (fun ev => match ev with CallOnSuccess a => [a] | _ => [] end) tr.

(** What the sleeps returned. *)
Definition sleep_results (tr : list event) : list error :=
  flat_map (fun ev => match ev with CallSleep _ r => [r] | _ => [] end) tr.

(** Every sleep with the last reading of the clock and the last delay
    of the strategy before it ([now] and [delay] before the record
    starts). *)
Fixpoint sleep_contexts (now : Time) (delay : Duration) (tr : list event)
  : list (Time * Duration * Duration) :=
  match tr with
  | [] => []
  | CallNow t :: tr' => sleep_contexts t delay tr'
  | CallDelay _ d :: tr' => sleep_contexts now d tr'
  | CallSleep s _ :: tr' => (now, delay, s) :: sleep_contexts now delay tr'
  | _ :: tr' => sleep_contexts now delay tr'
  end.

(** The last reading of the clock and delay of the strategy in a
    record. *)
Fixpoint last_context (now : Time) (delay : Duration) (tr : list event)
  : Time * Duration :=
  match tr with
  | [] => (now, delay)
  | CallNow t :: tr' => last_context t delay tr'
  | CallDelay _ d :: tr' => last_context now d tr'
  | _ :: tr' => last_context now delay tr'
  end.

(** For each sleep of a record, the call made just before it ([prev]
    before the first call of the record) and the duration asked. *)
Fixpoint before_sleeps (prev : option event) (tr : list event)
  : list (option event * Duration) :=
  match tr with
  | [] => []
  | CallSleep d r :: tr' => (prev, d) :: before_sleeps (Some (CallSleep d r)) tr'
  | ev :: tr' => before_sleeps (Some ev) tr'
  end.

(** The options that set a field of the policy. *)
Inductive policy_level (W : Type) : Option W -> Prop :=
| policy_WithMaxAttempts n : policy_level (@WithMaxAttempts W n)
| policy_WithMaxDuration d : policy_level (@WithMaxDuration W d)
| policy_WithBackoff b : policy_level (@WithBackoff W b)
| policy_WithClock k : policy_level (@WithClock W k).

(** The delay the default policy jitters at an attempt. *)
Definition default_capped (attempt : Z) : Duration :=
  Z.min (100 * Millisecond * 2 ^ (attempt - 1)) (10 * Second).

(** The options that leave the fields of the policy alone. *)
Inductive call_level (W : Type) : Option W -> Prop :=
| call_If c : call_level (@If W c)
| call_OnRetry h : call_level (@OnRetry W h)
| call_OnSuccess h : call_level (@OnSuccess W h)
| call_OnExhausted h : call_level (@OnExhausted W h)
| call_WithAllErrors : call_level (@WithAllErrors W).
(** * Properties *)

(** ** Integers and durations *)

Lemma wrap64_in_range (z : Z) : in_int64 z -> wrap64 z = z.
Proof.
  unfold in_int64, wrap64, MinInt64, MaxInt64. intros H.
  rewrite Z.mod_small; lia.
Qed.

Lemma wrap64_range (z : Z) : in_int64 (wrap64 z).
Proof.
  unfold in_int64, wrap64, MinInt64, MaxInt64.
  pose proof (Z.mod_pos_bound (z + 2 ^ 63) (2 ^ 64)). lia.
Qed.

Lemma shiftl_one_in_range (n : Z) :
  0 <= n <= 62 -> wrap64 (Z.shiftl 1 n) = 2 ^ n.
Proof.
  intros H. rewrite Z.shiftl_1_l. apply wrap64_in_range.
  unfold in_int64, MinInt64, MaxInt64.
  assert (0 < 2 ^ n) by (apply Z.pow_pos_nonneg; lia).
  assert (2 ^ n <= 2 ^ 62) by (apply Z.pow_le_mono_r; lia).
  lia.
Qed.

(** ** The delay strategies *)

Section BackoffFacts.
Variable W : Type.
Variable rand_Float64 : W -> float64 * W.
Variable indefinite : float64 -> Z.

Lemma Constant_Delay (d : Duration) (attempt : Z) (w : W) :
  Delay (Constant W d) attempt w = (d, w).
Proof. reflexivity. Qed.

Lemma Linear_Delay (base : Duration) (attempt : Z) (w : W) :
  Delay (Linear W base) attempt w = (wrap64 (base * attempt), w).
Proof. reflexivity. Qed.

(** Without overflow, [Linear] is the product the source's comment
    gives. *)
Lemma Linear_exact (base : Duration) (attempt : Z) (w : W) :
  in_int64 (base * attempt) ->
  Delay (Linear W base) attempt w = (base * attempt, w).
Proof. intros H. simpl. unfold st_ret. now rewrite wrap64_in_range. Qed.

Lemma Exponential_nonpositive (base : Duration) (attempt : Z) (w : W) :
  attempt <= 0 -> Delay (Exponential W base) attempt w = (base, w).
Proof.
  intros H. simpl. destruct (Z.leb_spec attempt 0); [reflexivity | lia].
Qed.

Lemma Exponential_saturated (base : Duration) (attempt : Z) (w : W) :
  62 < attempt -> Delay (Exponential W base) attempt w = (MaxInt64, w).
Proof.
  intros H. simpl.
  destruct (Z.leb_spec attempt 0); [lia |].
  destruct (Z.ltb_spec 62 attempt); [reflexivity | lia].
Qed.

(** Between the two guards the source multiplies in 64 bits: the
    result is the product reduced to the 64-bit range. *)
Lemma Exponential_wrapped (base : Duration) (attempt : Z) (w : W) :
  1 <= attempt <= 62 ->
  Delay (Exponential W base) attempt w = (wrap64 (base * 2 ^ (attempt - 1)), w).
Proof.
  intros H. simpl.
  destruct (Z.leb_spec attempt 0); [lia |].
  destruct (Z.ltb_spec 62 attempt); [lia |].
  rewrite shiftl_one_in_range by lia. reflexivity.
Qed.

Lemma Exponential_exact (base : Duration) (attempt : Z) (w : W) :
  1 <= attempt <= 62 -> in_int64 (base * 2 ^ (attempt - 1)) ->
  Delay (Exponential W base) attempt w = (base * 2 ^ (attempt - 1), w).
Proof.
  intros H1 H2. rewrite Exponential_wrapped by assumption.
  now rewrite wrap64_in_range.
Qed.

Lemma WithCap_Delay (max : Duration) (b : Backoff W) (attempt : Z) (w : W) :
  Delay (WithCap max b) attempt w =
  (Z.min (fst (Delay b attempt w)) max, snd (Delay b attempt w)).
Proof.
  simpl. unfold st_bind. destruct (Delay b attempt w) as [d w1]. simpl.
  destruct (Z.ltb_spec max d); unfold st_ret; f_equal; lia.
Qed.

Lemma WithMin_Delay (min : Duration) (b : Backoff W) (attempt : Z) (w : W) :
  Delay (WithMin min b) attempt w =
  (Z.max (fst (Delay b attempt w)) min, snd (Delay b attempt w)).
Proof.
  simpl. unfold st_bind. destruct (Delay b attempt w) as [d w1]. simpl.
  destruct (Z.ltb_spec d min); unfold st_ret; f_equal; lia.
Qed.

(** With a factor that is not positive the source returns before it
    touches the random source. *)
Lemma WithJitter_off (factor : float64) (b : Backoff W) (attempt : Z) (w : W) :
  f64_leb factor f64_zero = true ->
  Delay (WithJitter rand_Float64 indefinite factor b) attempt w = Delay b attempt w.
Proof.
  intros H. simpl. unfold st_bind. destruct (Delay b attempt w) as [d w1].
  now rewrite H.
Qed.

(** With any other factor the last test of the source clamps the
    result. *)
Lemma WithJitter_clamped (factor : float64) (b : Backoff W) (attempt : Z) (w : W) :
  f64_leb factor f64_zero = false ->
  0 <= fst (Delay (WithJitter rand_Float64 indefinite factor b) attempt w).
Proof.
  intros H. simpl. unfold st_bind. destruct (Delay b attempt w) as [d w1].
  rewrite H. destruct (rand_Float64 w1) as [r w2].
  match goal with |- context [if ?c <? 0 then _ else _] =>
    destruct (Z.ltb_spec c 0) end; simpl; lia.
Qed.

End BackoffFacts.

(** C2: below its guard, [Exponential] overflows. With the package's
    own default base of 100ms the delay of attempt 37 is the exact
    product, the delay of attempt 38 has wrapped to a negative duration
    (the exact product [base * 2^(n-1)] no longer fits 64 bits), and the
    delay of attempt 62 is zero: between 1 and 62 the result is neither
    the exact product nor monotonic. *)
Theorem Exponential_overflows_below_guard :
  forall (W : Type) (w : W),
    fst (Delay (Exponential W (100 * Millisecond)) 37 w) = 100 * Millisecond * 2 ^ (37 - 1) /\
    fst (Delay (Exponential W (100 * Millisecond)) 38 w) = -4702848726509551616 /\
    fst (Delay (Exponential W (100 * Millisecond)) 38 w) <> 100 * Millisecond * 2 ^ (38 - 1) /\
    fst (Delay (Exponential W (100 * Millisecond)) 62 w) = 0.
Proof.
  intros W w. repeat split; try reflexivity.
  vm_compute. discriminate.
Qed.

Section StrategyFacts.
Variable W : Type.
Variable rand_Float64 : W -> float64 * W.
Variable indefinite : float64 -> Z.

(** C1 (as amended): a strategy built from the package's constructors
    returns a delay that is not negative at every attempt at which its
    side conditions [fits] hold: parameters that are not negative and
    base computations that stay within 64 bits; a jitter with a
    positive factor needs no condition, its result is clamped. *)
Theorem build_nonneg (s : strategy) (attempt : Z) (w : W) :
  fits attempt s = true ->
  0 <= fst (Delay (build rand_Float64 indefinite s) attempt w).
Proof.
  revert w. induction s as [d | base | base | max s IH | min s IH | factor s IH];
    intros w H; cbn [build fits] in *.
  - apply Z.leb_le in H. exact H.
  - apply andb_prop in H. destruct H as [H H3].
    apply andb_prop in H. destruct H as [H1 H2].
    apply Z.leb_le in H1, H2, H3.
    rewrite Linear_exact; cbn [fst]; [nia |].
    unfold in_int64, MinInt64. split; [nia | assumption].
  - apply orb_prop in H. destruct H as [H | H].
    + apply Z.ltb_lt in H. rewrite Exponential_saturated by assumption.
      cbn [fst]. unfold MaxInt64. lia.
    + apply andb_prop in H. destruct H as [H1 H2]. apply Z.leb_le in H1.
      destruct (Z.leb_spec attempt 0) as [Hle | Hgt].
      * rewrite Exponential_nonpositive by assumption. exact H1.
      * cbn [orb] in H2. apply Z.leb_le in H2.
        destruct (Z.ltb_spec 62 attempt) as [Hbig | Hsmall].
        -- rewrite Exponential_saturated by assumption.
           cbn [fst]. unfold MaxInt64. lia.
        -- assert (0 < 2 ^ (attempt - 1)) by (apply Z.pow_pos_nonneg; lia).
           rewrite Exponential_exact; cbn [fst]; [nia | lia |].
           unfold in_int64, MinInt64. split; [nia | assumption].
  - apply andb_prop in H. destruct H as [H1 H2]. apply Z.leb_le in H1.
    rewrite WithCap_Delay. cbn [fst]. specialize (IH w H2). lia.
  - rewrite WithMin_Delay. cbn [fst].
    apply orb_prop in H. destruct H as [H | H].
    + apply Z.leb_le in H. lia.
    + specialize (IH w H). lia.
  - destruct (f64_leb factor f64_zero) eqn:Hf.
    + rewrite WithJitter_off by assumption. apply IH. exact H.
    + apply WithJitter_clamped. exact Hf.
Qed.

End StrategyFacts.

(** The specification's property fails on [Linear] at the attempt
    number -1 of its own range: the delay is [-100ms]. *)
Lemma Linear_negative_before_first_attempt :
  ~ nonneg_on_range (Linear unit (100 * Millisecond)).
Proof.
  intros H. specialize (H (-1) tt). cbn in H. lia.
Qed.

(** The composition behind the package's default policy, at attempt 10. *)
Lemma build_nonneg_default_backoff :
  fits 10 (SWithJitter (S754_zero false)
             (SWithCap (10 * Second) (SExponential (100 * Millisecond)))) = true /\
  0 <= fst (Delay (build (fun w : unit => (S754_zero false, w)) (fun _ => MinInt64)
                     (SWithJitter (S754_zero false)
                        (SWithCap (10 * Second) (SExponential (100 * Millisecond)))))
             10 tt).
Proof.
  split; [reflexivity |]. apply build_nonneg. reflexivity.
Defined.

(** ** Error chains *)

(** Induction on error values, through the members of a joined error. *)
Lemma errval_induction (P : errval -> Prop) :
  (forall tag s, P (errorString tag s)) ->
  (forall msg e, P e -> P (wrapError msg e)) ->
  (forall es, Forall P es -> P (joinError es)) ->
  (forall e, P e -> P (stopError e)) ->
  forall e, P e.
Proof.
  intros Hs Hw Hj Hst. fix IH 1. intros [tag s | msg c | es | c].
  - apply Hs.
  - apply Hw, IH.
  - apply Hj.
    refine ((fix all (l : list errval) : Forall P l :=
               match l with
               | [] => Forall_nil P
               | x :: l' => Forall_cons x (IH x) (all l')
               end) es).
  - apply Hst, IH.
Qed.

Lemma errval_eqb_refl (e : errval) : errval_eqb e e = true.
Proof.
  induction e as [tag s | msg c IH | es IH | c IH] using errval_induction; cbn.
  - now rewrite Nat.eqb_refl, String.eqb_refl.
  - now rewrite String.eqb_refl, IH.
  - induction IH as [| x l Hx _ IHl]; [reflexivity |].
    now rewrite Hx, IHl.
  - exact IH.
Qed.

Lemma is_chain_here (e t : errval) :
  errval_eqb e t = true -> is_chain e t = true.
Proof. intros H. destruct e; cbn [is_chain]; now rewrite H. Qed.

Lemma is_chain_refl (e : errval) : is_chain e e = true.
Proof. apply is_chain_here, errval_eqb_refl. Qed.

Lemma is_chain_join (es : list errval) (t : errval) :
  is_chain (joinError es) t =
  errval_eqb (joinError es) t || existsb (fun x => is_chain x t) es.
Proof.
  reflexivity.
Qed.

Lemma is_chain_join_member (es : list errval) (e : errval) :
  In e es -> is_chain (joinError es) e = true.
Proof.
  intros H. rewrite is_chain_join. apply orb_true_iff. right.
  apply existsb_exists. exists e. split; [assumption | apply is_chain_refl].
Qed.

Lemma as_stopError_join (es : list errval) :
  as_stopError (joinError es) =
  fold_right (fun x rest => match as_stopError x with
                            | Some s => Some s
                            | None => rest
                            end) None es.
Proof.
  cbn [as_stopError]. induction es as [| x l IH]; [reflexivity |].
  cbn [fold_right]. now rewrite IH.
Qed.

(** What [errors.As] finds is a [stopError] on the chain. *)
Lemma as_stopError_sound (e s : errval) :
  as_stopError e = Some s -> (exists c, s = stopError c) /\ on_chain s e.
Proof.
  revert s.
  induction e as [tag t | msg c IH | es IH | c IH] using errval_induction;
    intros s H.
  - discriminate.
  - cbn in H. destruct (IH s H) as [Hc Hon]. split; [exact Hc |].
    now apply chain_wrap.
  - rewrite as_stopError_join in H.
    induction IH as [| x l Hx _ IHl]; [discriminate |].
    cbn [fold_right] in H. destruct (as_stopError x) as [s' |] eqn:Hx'.
    + injection H as <-. destruct (Hx s' eq_refl) as [Hc Hon].
      split; [exact Hc |]. apply chain_join with x; [now left | exact Hon].
    + destruct (IHl H) as [Hc Hon]. split; [exact Hc |].
      inversion Hon as [| | | es' c' Hin Hon' Heq]; subst.
      * destruct Hc as [c Hc]. discriminate.
      * apply chain_join with c'; [now right | exact Hon'].
  - cbn in H. injection H as <-. split; [now exists c | constructor].
Qed.

(** A [stopError] anywhere on the chain is found. *)
Lemma as_stopError_complete (c e : errval) :
  on_chain (stopError c) e -> as_stopError e <> None.
Proof.
  intros H. induction H as [| msg c0 _ IH | c0 _ _ | es c0 Hin _ IH].
  - discriminate.
  - exact IH.
  - discriminate.
  - rewrite as_stopError_join.
    induction es as [| x l IHl]; [contradiction |].
    cbn [fold_right]. destruct (as_stopError x) eqn:Hx; [discriminate |].
    destruct Hin as [-> | Hin]; [contradiction | now apply IHl].
Qed.

Lemma as_stopError_wrapped (msgs : list string) (c : errval) :
  as_stopError (wrapped msgs (stopError c)) = Some (stopError c).
Proof. induction msgs as [| m l IH]; [reflexivity | exact IH]. Qed.

Lemma on_chain_wrapped (msgs : list string) (c : errval) :
  on_chain (stopError c) (wrapped msgs (stopError c)).
Proof.
  induction msgs as [| m l IH]; [constructor | now apply chain_wrap].
Qed.

(** ** One turn of the loop *)

Ltac split_on H :=
  match type of H with
  | context [match ?x with _ => _ end] =>
      lazymatch x with
      | context [match _ with _ => _ end] => fail
      | _ => destruct x eqn:?
      end
  end.

Ltac body_cases H :=
  unfold body, exhausted, bind, call, ret, errors_As_stopError in H;
  repeat (cbv beta iota in H; split_on H);
  cbv beta iota in H;
  inversion H; subst; clear H.

Ltac to_Z_facts :=
  repeat match goal with
    | H : (_ <=? _) = true |- _ => apply Z.leb_le in H
    | H : (_ <=? _) = false |- _ => apply Z.leb_gt in H
    | H : (_ <? _) = true |- _ => apply Z.ltb_lt in H
    | H : (_ <? _) = false |- _ => apply Z.ltb_ge in H
    | H : (_ && _) = true |- _ => apply andb_prop in H; destruct H
    end.

Section TurnFacts.
Variable W : Type.
Variable fn : Func W.
Variable cfg : config W.
Variable maxA : Z.
Variable deadline : Time.

(** A turn calls the operation once, first, with the attempt number. *)
Lemma body_fn_calls attempt lastErr errs w t w' tr :
  body fn cfg maxA deadline attempt lastErr errs w = (t, w', tr) ->
  exists tr', tr = CallFn attempt (fst (fn w)) :: tr' /\ fn_calls tr' = [].
Proof.
  intros H. body_cases H.
  all: cbn [fst snd].
  all: eexists; split; [reflexivity | reflexivity].
Qed.


(** The loop goes on only below the attempt budget, after a failure
    without the terminal marker, which it has recorded. *)
Lemma body_continue attempt lastErr errs w l es w' tr :
  body fn cfg maxA deadline attempt lastErr errs w = (Continue l es, w', tr) ->
  attempt < maxA /\
  exists e, fst (fn w) = Some e /\ as_stopError e = None /\
            l = record_lastErr cfg lastErr e /\ es = record_errs cfg errs e.
Proof.
  intros H. unfold record_lastErr, record_errs. body_cases H; to_Z_facts.
  all: cbn [fst snd].
  all: split; [assumption |]; eexists; repeat split; assumption.
Qed.

(** The exits of a turn. *)
Lemma body_return attempt lastErr errs w r x w' tr :
  body fn cfg maxA deadline attempt lastErr errs w = (Return r x, w', tr) ->
  match x with
  | Success => fst (fn w) = None /\ r = None
  | Stopped =>
      exists e s, fn w = (Some e, w') /\ as_stopError e = Some s /\
                  r = Unwrap s /\ tr = [CallFn attempt (Some e)]
  | _ =>
      exists e, fst (fn w) = Some e /\ as_stopError e = None /\
                r = recorded cfg (record_lastErr cfg lastErr e) (record_errs cfg errs e) /\
                (x = Exhausted AttemptBudget <-> maxA <= attempt)
  end.
Proof.
  intros H. unfold record_lastErr, record_errs. body_cases H; to_Z_facts.
  all: cbn [fst snd].
  all: try (split; reflexivity).
  all: try (eexists; eexists; repeat split; eassumption).
  all: eexists; repeat split; try eassumption; try reflexivity;
       try discriminate; try lia; intros; exfalso; lia.
Qed.

(** With a duration budget the loop sleeps only for positive
    durations; a turn that goes on has slept once. *)
Lemma body_sleeps attempt lastErr errs w t w' tr :
  body fn cfg maxA deadline attempt lastErr errs w = (t, w', tr) ->
  (0 < maxDuration cfg -> Forall (fun d => 0 < d) (sleeps tr)) /\
  (List.length (sleeps tr) <= 1)%nat /\
  (forall l es, t = Continue l es -> List.length (sleeps tr) = 1%nat).
Proof.
  intros H. body_cases H; to_Z_facts.
  all: cbn; repeat split; intros; try discriminate; try lia; auto.
  all: try (constructor; [| constructor]).
  all: try lia.
  all: repeat match goal with
         | H : (_ || _) = false |- _ => apply orb_false_elim in H; destruct H
         | H : (_ && _) = false |- _ => apply andb_false_elim in H; destruct H
         end; to_Z_facts; try lia.
Qed.

End TurnFacts.

(** ** Records of calls *)

Lemma fn_calls_app (t1 t2 : list event) :
  fn_calls (t1 ++ t2) = fn_calls t1 ++ fn_calls t2.
Proof. apply flat_map_app. Qed.

Lemma failures_app (t1 t2 : list event) :
  failures (t1 ++ t2) = failures t1 ++ failures t2.
Proof. apply flat_map_app. Qed.


Lemma condition_calls_app (t1 t2 : list event) :
  condition_calls (t1 ++ t2) = condition_calls t1 ++ condition_calls t2.
Proof. apply flat_map_app. Qed.

Lemma sleeps_app (t1 t2 : list event) :
  sleeps (t1 ++ t2) = sleeps t1 ++ sleeps t2.
Proof. apply flat_map_app. Qed.

Lemma fn_calls_cons (a : Z) (r : error) (tr : list event) :
  fn_calls (CallFn a r :: tr) = (a, r) :: fn_calls tr.
Proof. reflexivity. Qed.

Lemma failures_fn_calls (tr : list event) :
  failures tr =
  flat_map (fun c => match snd c with Some e => [e] | None => [] end) (fn_calls tr).
Proof.
  induction tr as [| ev tr IH]; [reflexivity |].
  unfold failures, fn_calls in *.
  destruct ev as [a [e |] | | | | | | |]; cbn [flat_map app snd]; rewrite IH;
    reflexivity.
Qed.

Lemma counting_length (a : Z) (n : nat) : List.length (counting a n) = n.
Proof. revert a. induction n as [| n IH]; intros a; cbn; [| rewrite IH]; reflexivity. Qed.

Lemma counting_last (a : Z) (n : nat) (d : Z) :
  last (counting a (S n)) d = a + Z.of_nat n.
Proof.
  revert a. induction n as [| n IH]; intros a.
  - cbn. lia.
  - change (counting a (S (S n))) with (a :: counting (a + 1) (S n)).
    change (last (a :: counting (a + 1) (S n)) d)
      with (last (counting (a + 1) (S n)) d).
    rewrite IH. lia.
Qed.

(** ** The loop *)

Section LoopFacts.
Variable W : Type.
Variable fn : Func W.
Variable cfg : config W.
Variable maxA : Z.
Variable deadline : Time.

Lemma loop_S (fuel : nat) (a : Z) (l : error) (es : list errval) (w : W) :
  loop fn cfg maxA deadline (S fuel) a l es w =
  let '(t, w1, t1) := body fn cfg maxA deadline a l es w in
  match t with
  | Return r x => (Some (r, x), w1, t1 ++ [])
  | Continue l' es' =>
      let '(res, w2, t2) := loop fn cfg maxA deadline fuel (a + 1) l' es' w1 in
      (res, w2, t1 ++ t2)
  end.
Proof.
  cbn [loop]. unfold bind at 1.
  destruct (body fn cfg maxA deadline a l es w) as [[t w1] t1].
  destruct t; reflexivity.
Qed.

(** A loop that returns has made a run. *)
Lemma loop_run (fuel : nat) (a : Z) (l : error) (es : list errval) (w : W)
  (res : error * exit) (w' : W) (tr : list event) :
  loop fn cfg maxA deadline fuel a l es w = (Some res, w', tr) ->
  run fn cfg maxA deadline a l es w res w' tr.
Proof.
  revert a l es w tr. induction fuel as [| fuel IH]; intros a l es w tr H.
  - discriminate.
  - rewrite loop_S in H.
    destruct (body fn cfg maxA deadline a l es w) as [[t w1] t1] eqn:Hb.
    destruct t as [r x | l' es'].
    + injection H as <- <- <-. rewrite app_nil_r.
      now apply run_return.
    + destruct (loop fn cfg maxA deadline fuel (a + 1) l' es' w1)
        as [[res2 w2] t2] eqn:Hl.
      injection H as -> <- <-.
      eapply run_continue; [exact Hb | now apply IH].
Qed.

(** The loop returns within the turns the attempt budget leaves. *)
Lemma loop_returns (fuel : nat) (a : Z) (l : error) (es : list errval) (w : W) :
  (0 < fuel)%nat -> maxA - a < Z.of_nat fuel ->
  exists res w' tr, loop fn cfg maxA deadline fuel a l es w = (Some res, w', tr).
Proof.
  revert a l es w. induction fuel as [| fuel IH]; intros a l es w Hpos Hfuel.
  - lia.
  - rewrite loop_S.
    destruct (body fn cfg maxA deadline a l es w) as [[t w1] t1] eqn:Hb.
    destruct t as [r x | l' es'].
    + now eexists _, _, _.
    + apply body_continue in Hb. destruct Hb as [Hlt _].
      destruct (IH (a + 1) l' es' w1) as (res & w2 & t2 & Hl); [lia | lia |].
      rewrite Hl. now eexists _, _, _.
Qed.

(** The operation is called once per turn, with successive attempt
    numbers that stay within the budget. *)
Lemma run_fn_calls a l es w res w' tr :
  run fn cfg maxA deadline a l es w res w' tr ->
  exists n, map fst (fn_calls tr) = counting a (S n) /\
            a + Z.of_nat n <= Z.max a maxA.
Proof.
  induction 1 as [a l es w r x w1 t1 Hb
                 | a l es w l' es' w1 t1 res w2 t2 Hb _ IH].
  - apply body_fn_calls in Hb. destruct Hb as (tr' & -> & Hnil).
    exists 0%nat. rewrite fn_calls_cons, Hnil. split; [reflexivity | lia].
  - pose proof Hb as Hlt. apply body_continue in Hlt. destruct Hlt as [Hlt _].
    apply body_fn_calls in Hb. destruct Hb as (tr' & -> & Hnil).
    destruct IH as (n & Hn & Hle). exists (S n).
    rewrite fn_calls_app, map_app, fn_calls_cons, Hnil. cbn [map fst app].
    rewrite Hn. split; [reflexivity | lia].
Qed.


Lemma last_cons_nonempty (A : Type) (x : A) (xs : list A) (d d' : A) :
  xs <> [] -> last (x :: xs) d = last xs d'.
Proof.
  revert x. induction xs as [| y ys IH]; intros x H; [contradiction |].
  destruct ys as [| z zs]; [reflexivity |].
  change (last (x :: y :: z :: zs) d) with (last (y :: z :: zs) d).
  change (last (y :: z :: zs) d') with (last (z :: zs) d').
  rewrite <- (IH y); [reflexivity | discriminate].
Qed.

Lemma body_failures attempt l es w t w' tr :
  body fn cfg maxA deadline attempt l es w = (t, w', tr) ->
  failures tr = match fst (fn w) with Some e => [e] | None => [] end.
Proof.
  intros Hb. apply body_fn_calls in Hb. destruct Hb as (tr' & -> & Hnil).
  rewrite failures_fn_calls, fn_calls_cons, Hnil. cbn.
  destruct (fst (fn w)); reflexivity.
Qed.

(** What a run hands back when it returns the recorded error or
    errors: every failure in aggregation mode, the last one otherwise. *)
Lemma run_recorded a l es w r x w' tr :
  run fn cfg maxA deadline a l es w (r, x) w' tr ->
  returns_recorded x = true ->
  failures tr <> [] /\
  (allErrors cfg = true -> r = joinErrors (es ++ failures tr)) /\
  (allErrors cfg = false -> r = last (map Some (failures tr)) l).
Proof.
  intros H. remember (r, x) as res eqn:Hres. revert r x Hres.
  induction H as [a l es w r0 x0 w1 t1 Hb
                 | a l es w l' es' w1 t1 res w2 t2 Hb Hrun IH];
    intros r x Hres Hx.
  - injection Hres as -> ->.
    rewrite (body_failures _ _ _ _ Hb).
    apply body_return in Hb.
    destruct x; try discriminate;
      destruct Hb as (e & -> & _ & -> & _);
      unfold recorded, record_lastErr, record_errs;
      (split; [discriminate |]); split; intros ->; reflexivity.
  - subst res. specialize (IH r x eq_refl Hx). destruct IH as (Hne & Hall & Hlast).
    rewrite failures_app, (body_failures _ _ _ _ Hb).
    apply body_continue in Hb. destruct Hb as (_ & e & -> & _ & -> & ->).
    unfold record_lastErr, record_errs in *.
    split; [discriminate |]. split; intros Hmode; rewrite Hmode in *.
    + rewrite (Hall eq_refl), <- app_assoc. reflexivity.
    + rewrite (Hlast eq_refl). cbn [app map]. symmetry.
      apply last_cons_nonempty.
      destruct (failures t2); [contradiction | discriminate].
Qed.

(** A run that stops on a terminal error ends with the call of the
    operation that returned it, and hands back what the marker holds. *)
Lemma run_stopped a l es w r w' tr :
  run fn cfg maxA deadline a l es w (r, Stopped) w' tr ->
  exists tr0 k e s, tr = tr0 ++ [CallFn k (Some e)] /\
                    as_stopError e = Some s /\ r = Unwrap s.
Proof.
  intros H. remember (r, Stopped) as res eqn:Hres. revert r Hres.
  induction H as [a l es w r0 x0 w1 t1 Hb
                 | a l es w l' es' w1 t1 res w2 t2 Hb Hrun IH];
    intros r Hres.
  - injection Hres as -> ->. apply body_return in Hb.
    destruct Hb as (e & s & _ & Hs & -> & ->).
    now exists [], a, e, s.
  - destruct (IH r Hres) as (tr0 & k & e & s & -> & Hs & ->).
    exists (t1 ++ tr0), k, e, s. now rewrite app_assoc.
Qed.

Lemma run_success a l es w r w' tr :
  run fn cfg maxA deadline a l es w (r, Success) w' tr -> r = None.
Proof.
  intros H. remember (r, Success) as res eqn:Hres. revert r Hres.
  induction H as [a l es w r0 x0 w1 t1 Hb
                 | a l es w l' es' w1 t1 res w2 t2 Hb Hrun IH];
    intros r Hres.
  - injection Hres as -> ->. apply body_return in Hb. now destruct Hb.
  - now apply IH.
Qed.

(** The last attempt of a run against the budget: the run leaves by
    the attempt budget exactly when the last attempt has reached it. *)
Lemma run_last_attempt a l es w r x w' tr :
  run fn cfg maxA deadline a l es w (r, x) w' tr ->
  returns_recorded x = true ->
  (x = Exhausted AttemptBudget <->
   maxA <= a + Z.of_nat (List.length (fn_calls tr)) - 1).
Proof.
  intros H. remember (r, x) as res eqn:Hres. revert r x Hres.
  induction H as [a l es w r0 x0 w1 t1 Hb
                 | a l es w l' es' w1 t1 res w2 t2 Hb Hrun IH];
    intros r x Hres Hx.
  - injection Hres as -> ->. pose proof Hb as Hc.
    apply body_fn_calls in Hc. destruct Hc as (tr' & -> & Hnil).
    rewrite fn_calls_cons, Hnil. cbn [List.length].
    apply body_return in Hb.
    destruct x; try discriminate; destruct Hb as (e & _ & _ & _ & Hiff);
      rewrite Hiff; lia.
  - subst res. rewrite (IH r x eq_refl Hx).
    apply body_fn_calls in Hb. destruct Hb as (tr' & -> & Hnil).
    rewrite fn_calls_app, fn_calls_cons, Hnil. cbn [app List.length]. lia.
Qed.

(** With a duration budget, no sleep of a run is for a duration that
    is not positive. *)
Lemma run_sleeps a l es w res w' tr :
  run fn cfg maxA deadline a l es w res w' tr ->
  0 < maxDuration cfg -> Forall (fun d => 0 < d) (sleeps tr).
Proof.
  induction 1 as [a l es w r x w1 t1 Hb
                 | a l es w l' es' w1 t1 res w2 t2 Hb _ IH]; intros Hd.
  - apply body_sleeps in Hb. now apply Hb.
  - rewrite sleeps_app. apply Forall_app. split; [| now apply IH].
    apply body_sleeps in Hb. now apply Hb.
Qed.

End LoopFacts.

(** ** execute *)

Section ExecuteFacts.
Variable W : Type.
Variable fn : Func W.
Variable cfg : config W.

Lemma effective_maxAttempts_pos : 0 < effective_maxAttempts cfg.
Proof.
  unfold effective_maxAttempts, DefaultMaxAttempts.
  destruct (Z.leb_spec (maxAttempts cfg) 0); lia.
Qed.

(** Before the first attempt [execute] at most reads the clock. *)
Lemma start_deadline_quiet (w : W) (deadline : Time) (w0 : W) (t0 : list event) :
  start_deadline cfg w = (deadline, w0, t0) ->
  fn_calls t0 = [] /\ failures t0 = [] /\ exhausted_calls t0 = [] /\
  condition_calls t0 = [] /\ sleeps t0 = [].
Proof.
  unfold start_deadline, bind, call, ret. intros H.
  destruct (0 <? maxDuration cfg).
  - destruct (Now (clock cfg) w) as [now w1]. injection H as <- <- <-.
    repeat split.
  - injection H as <- <- <-. repeat split.
Qed.

Lemma execute_unfold (w : W) :
  execute fn cfg w =
  let '(deadline, w0, t0) := start_deadline cfg w in
  let '(res, w', tr) :=
    loop fn cfg (effective_maxAttempts cfg) deadline
      (Z.to_nat (effective_maxAttempts cfg)) 1 None [] w0 in
  (res, w', t0 ++ tr).
Proof. reflexivity. Qed.

(** [execute] returns, after a run of the loop from attempt 1. *)
Lemma execute_run (w : W) (deadline : Time) (w0 : W) (t0 : list event) :
  start_deadline cfg w = (deadline, w0, t0) ->
  exists res w' tr,
    execute fn cfg w = (Some res, w', t0 ++ tr) /\
    run fn cfg (effective_maxAttempts cfg) deadline 1 None [] w0 res w' tr.
Proof.
  intros Hs. rewrite execute_unfold, Hs.
  pose proof effective_maxAttempts_pos as Hpos.
  destruct (@loop_returns W fn cfg (effective_maxAttempts cfg) deadline
              (Z.to_nat (effective_maxAttempts cfg)) 1 None [] w0)
    as (res & w' & tr & Hl); [lia | lia |].
  rewrite Hl. exists res, w', tr. split; [reflexivity |].
  now apply loop_run with (fuel := Z.to_nat (effective_maxAttempts cfg)).
Qed.

End ExecuteFacts.

(** ** Terminal errors *)

(** C3: when the operation returns what [Stop] made of an error [c],
    the loop returns [c] itself on that attempt, whatever it had
    recorded before ([lastErr], [errs]) and in either error mode; the
    call of the operation is the last call it makes. From the first
    attempt, the operation has been called exactly once. *)
Theorem stop_ends_the_loop (W : Type) (fn : Func W) (cfg : config W)
  (c : errval) (w w1 : W) :
  fn w = (Stop (Some c), w1) ->
  (forall maxA deadline fuel a lastErr errs,
     loop fn cfg maxA deadline (S fuel) a lastErr errs w =
     (Some (Some c, Stopped), w1, [CallFn a (Stop (Some c))])) /\
  (forall w_init deadline t0,
     start_deadline cfg w_init = (deadline, w, t0) ->
     execute fn cfg w_init =
       (Some (Some c, Stopped), w1, t0 ++ [CallFn 1 (Stop (Some c))]) /\
     fn_calls (t0 ++ [CallFn 1 (Stop (Some c))]) = [(1, Stop (Some c))]).
Proof.
  intros Hfn.
  assert (Hloop : forall maxA deadline fuel a lastErr errs,
             loop fn cfg maxA deadline (S fuel) a lastErr errs w =
             (Some (Some c, Stopped), w1, [CallFn a (Stop (Some c))])).
  { intros. rewrite loop_S. unfold body, bind, call. rewrite Hfn. reflexivity. }
  split; [exact Hloop |].
  intros w_init deadline t0 Hs. split.
  - rewrite execute_unfold, Hs.
    pose proof (effective_maxAttempts_pos cfg) as Hpos.
    destruct (Z.to_nat (effective_maxAttempts cfg)) as [| fuel] eqn:Hfuel; [lia |].
    now rewrite Hloop.
  - apply start_deadline_quiet in Hs. destruct Hs as (Hq & _).
    now rewrite fn_calls_app, Hq.
Qed.

Lemma stop_ends_the_loop_in_test :
  execute always_Stop (bench_config [WithMaxAttempts 5; WithClock fakeClock]) newBench =
    (Some (Some errTest, Stopped), count_attempt newBench,
     [] ++ [CallFn 1 (Stop (Some errTest))]) /\
  fn_calls ([] ++ [CallFn 1 (Stop (Some errTest))]) = [(1, Stop (Some errTest))].
Proof.
  apply (@stop_ends_the_loop bench always_Stop
           (bench_config [WithMaxAttempts 5; WithClock fakeClock])
           errTest newBench (count_attempt newBench) eq_refl)
    with (deadline := 0).
  reflexivity.
Defined.

(** C10: the marker is looked for on the whole chain of the error the
    operation returns. If a [stopError] lies anywhere on it, the loop
    stops on that attempt and returns what a marker of the chain holds
    (the first one met, depth first); under wrappers only, that is the
    error given to [Stop], without the wrappers. *)
Theorem marker_found_on_chain (W : Type) (fn : Func W) (cfg : config W)
  (e c : errval) (w w1 : W) :
  fn w = (Some e, w1) ->
  on_chain (stopError c) e ->
  exists c',
    on_chain (stopError c') e /\
    (forall maxA deadline fuel a lastErr errs,
       loop fn cfg maxA deadline (S fuel) a lastErr errs w =
       (Some (Some c', Stopped), w1, [CallFn a (Some e)])) /\
    (forall msgs, e = wrapped msgs (stopError c) -> c' = c).
Proof.
  intros Hfn Hon.
  destruct (as_stopError e) as [s |] eqn:Hs;
    [| now apply as_stopError_complete in Hon].
  destruct (as_stopError_sound _ Hs) as [[c' ->] Hon'].
  exists c'. split; [exact Hon' |]. split.
  - intros. rewrite loop_S. unfold body, bind, call. rewrite Hfn.
    cbn [errors_As_stopError]. rewrite Hs. reflexivity.
  - intros msgs ->. rewrite as_stopError_wrapped in Hs. now injection Hs.
Qed.

Lemma marker_found_under_wrapper_in_test :
  exists c',
    on_chain (stopError c') (wrapError "op" (stopError errTest)) /\
    (forall maxA deadline fuel a lastErr errs,
       loop always_wrapped_Stop (bench_config [@WithAllErrors bench])
         maxA deadline (S fuel) a lastErr errs newBench =
       (Some (Some c', Stopped), count_attempt newBench,
        [CallFn a (Some (wrapError "op" (stopError errTest)))])) /\
    (forall msgs,
       wrapError "op" (stopError errTest) = wrapped msgs (stopError errTest) ->
       c' = errTest).
Proof.
  apply (@marker_found_on_chain bench always_wrapped_Stop
           (bench_config [@WithAllErrors bench])
           (wrapError "op" (stopError errTest)) errTest
           newBench (count_attempt newBench) eq_refl).
  apply chain_wrap. apply chain_here.
Defined.

(** ** Exhaustion *)

Section AlwaysFailing.
Variable W : Type.
Variable fn : Func W.
Variable cfg : config W.
Variable maxA : Z.
Variable deadline : Time.
Hypothesis Hfails : always_fails fn.
Hypothesis Haccepts : always_accepts cfg.
Hypothesis Hsleep : never_cancelled cfg.
Hypothesis Hduration : maxDuration cfg <= 0.

Lemma always_failing_turn a l es w r x w' tr :
  body fn cfg maxA deadline a l es w = (Return r x, w', tr) ->
  x = Exhausted AttemptBudget.
Proof.
  intros H. destruct (Hfails w) as (e & w1 & Hfn & Hns).
  body_cases H; to_Z_facts; try reflexivity; try lia; exfalso.
  all: try congruence.
  all: try match goal with
         | Hc : condition cfg = Some ?c, E : ?c (Some ?err) ?w0 = (?b, _),
           Hb : negb ?b = true |- _ =>
             pose proof (Haccepts err w0 Hc) as Ha; rewrite E in Ha;
             cbn [fst] in Ha; subst b; discriminate
         | E : Sleep (clock cfg) ?d ?w0 = (Some _, _) |- _ =>
             pose proof (Hsleep d w0) as Ha; rewrite E in Ha; discriminate
         end.
Qed.

Lemma always_failing_run a l es w r x w' tr :
  run fn cfg maxA deadline a l es w (r, x) w' tr ->
  x = Exhausted AttemptBudget.
Proof.
  intros H. remember (r, x) as res eqn:Hres. revert r x Hres.
  induction H as [a l es w r0 x0 w1 t1 Hb
                 | a l es w l' es' w1 t1 res w2 t2 Hb Hrun IH];
    intros r x Hres.
  - injection Hres as -> ->. now apply always_failing_turn in Hb.
  - now apply (IH r x).
Qed.

(** An operation that always fails is called until the budget is
    reached, and not once more. *)
Lemma always_failing_calls a l es w r x w' tr :
  run fn cfg maxA deadline a l es w (r, x) w' tr ->
  a <= maxA ->
  x = Exhausted AttemptBudget /\
  map fst (fn_calls tr) = counting a (Z.to_nat (maxA - a + 1)).
Proof.
  intros H Hle. pose proof (always_failing_run H) as ->.
  split; [reflexivity |].
  pose proof (run_fn_calls H) as (n & Hn & Hmax).
  pose proof (proj1 (run_last_attempt H eq_refl) eq_refl) as Hlast.
  rewrite <- (length_map fst), Hn, counting_length in Hlast.
  rewrite Hn. f_equal. lia.
Qed.

End AlwaysFailing.




(** C4: the exhaustion hook is called while neither budget is used
    up. Under a budget of 10 attempts and of one hour, with a backoff
    strategy that gives a delay of zero, the clock reads 0 throughout:
    the delay, which the remaining hour does not shorten, is not
    positive, and the loop takes the return of the source meant for a
    deadline that is reached. The operation has been called once and
    the hook is called with attempt 1. Without the duration budget the
    same policy calls the operation for the attempts 1 to 10 and the
    hook with 10. *)
Theorem exhaustion_hook_with_budgets_left :
  execute always_errTest
    (bench_config [WithMaxAttempts 10; WithMaxDuration (3600 * Second);
                   WithBackoff (Constant bench 0);
                   OnExhausted (Some quiet_OnExhausted)]) newBench =
  (Some (Some errTest, Exhausted NoTimeLeft), count_attempt newBench,
   [CallNow 0; CallFn 1 (Some errTest); CallCondition (Some errTest) true;
    CallNow 0; CallDelay 1 0; CallNow 0; CallOnExhausted 1 (Some errTest)]) /\
  effective_maxAttempts
    (bench_config [WithMaxAttempts 10; WithMaxDuration (3600 * Second);
                   WithBackoff (Constant bench 0);
                   OnExhausted (Some quiet_OnExhausted)]) = 10 /\
  Time_Sub (Time_Add 0 (3600 * Second)) 0 = 3600 * Second /\
  exists w' tr,
    execute always_errTest
      (bench_config [WithMaxAttempts 10; WithBackoff (Constant bench 0);
                     OnExhausted (Some quiet_OnExhausted)]) newBench =
    (Some (Some errTest, Exhausted AttemptBudget), w', tr) /\
    map fst (fn_calls tr) = [1; 2; 3; 4; 5; 6; 7; 8; 9; 10] /\
    exhausted_calls tr = [(10, Some errTest)].
Proof.
  split; [reflexivity |]. split; [reflexivity |]. split; [reflexivity |].
  eexists. eexists. split; [reflexivity |]. split; reflexivity.
Qed.

(** ** The order of the checks *)

Ltac run_turn :=
  unfold body, exhausted, hook_call, accepts, errors_As_stopError,
    record_lastErr, record_errs in *;
  unfold bind, call, ret in *;
  repeat match goal with
    | H : ?x = _ |- context [?x] => rewrite H
    end;
  cbv beta iota.

(** C5: after a failure [e] the turn checks, in this order: the
    terminal marker (before anything is recorded or any budget is
    looked at); then, [e] being recorded, the attempt budget (the
    predicate is not consulted, whatever it would answer, and the
    exhaustion hook is called); then the predicate (the clock is not
    read, no hook is called); then the deadline (the delay is not
    computed). The delay and its clamping come last. *)
Theorem exit_order (W : Type) (fn : Func W) (cfg : config W) (maxA : Z)
  (deadline : Time) (a : Z) (lastErr : error) (errs : list errval)
  (e : errval) (w w1 : W) :
  fn w = (Some e, w1) ->
  (forall s, as_stopError e = Some s ->
     body fn cfg maxA deadline a lastErr errs w =
     (Return (Unwrap s) Stopped, w1, [CallFn a (Some e)])) /\
  (as_stopError e = None ->
   (maxA <= a ->
    exists w2,
      body fn cfg maxA deadline a lastErr errs w =
      (Return (recorded cfg (record_lastErr cfg lastErr e) (record_errs cfg errs e))
              (Exhausted AttemptBudget),
       w2,
       CallFn a (Some e) ::
       hook_call (onExhausted cfg) (CallOnExhausted a (Some e)))) /\
   (a < maxA ->
    (forall cond w2,
       condition cfg = Some cond -> cond (Some e) w1 = (false, w2) ->
       body fn cfg maxA deadline a lastErr errs w =
       (Return (recorded cfg (record_lastErr cfg lastErr e) (record_errs cfg errs e))
               ConditionRejected,
        w2, [CallFn a (Some e); CallCondition (Some e) false])) /\
    (forall w2 now w3,
       accepts cfg (Some e) w1 w2 -> 0 < maxDuration cfg ->
       Now (clock cfg) w2 = (now, w3) -> deadline < now ->
       exists w4,
         body fn cfg maxA deadline a lastErr errs w =
         (Return (recorded cfg (record_lastErr cfg lastErr e) (record_errs cfg errs e))
                 (Exhausted DeadlinePassed),
          w4,
          CallFn a (Some e) ::
          hook_call (condition cfg) (CallCondition (Some e) true) ++
          [CallNow now] ++
          hook_call (onExhausted cfg) (CallOnExhausted a (Some e)))))).
Proof.
  intros Hfn. split; [| intros Hns; split; [| intros Hlt; split]].
  - intros s Hs. run_turn. reflexivity.
  - intros Hle. apply Z.leb_le in Hle. run_turn.
    destruct (onExhausted cfg) as [hook |].
    + destruct (hook a (Some e) w1) as [[] w2]. now exists w2.
    + now exists w1.
  - intros cond w2 Hc Hrej. apply Z.leb_gt in Hlt. run_turn. reflexivity.
  - intros w2 now w3 Hacc Hdur Hnow Hlate.
    apply Z.leb_gt in Hlt. apply Z.ltb_lt in Hdur.
    assert (Hafter : Time_After now deadline = true)
      by now apply Z.ltb_lt.
    run_turn.
    destruct (condition cfg) as [cond |]; [| subst w2]; run_turn;
      cbn [negb]; run_turn.
    all: destruct (onExhausted cfg) as [hook |];
      [destruct (hook a (Some e) w3) as [[] w4]; now exists w4 | now exists w3].
Qed.

(** The budget of one attempt is reached by an error that the
    predicate would reject: the turn leaves as exhausted, the hook is
    called, the predicate is not. *)
Lemma exit_order_in_test :
  exists w2,
    body always_errTest
      (bench_config [WithMaxAttempts 1; If (Some reject_all);
                     OnExhausted (Some quiet_OnExhausted)])
      1 0 1 None [] newBench =
    (Return (Some errTest) (Exhausted AttemptBudget), w2,
     [CallFn 1 (Some errTest); CallOnExhausted 1 (Some errTest)]).
Proof.
  apply (proj1 (proj2 (@exit_order bench always_errTest
                         (bench_config [WithMaxAttempts 1; If (Some reject_all);
                                        OnExhausted (Some quiet_OnExhausted)])
                         1 0 1 None [] errTest newBench (count_attempt newBench)
                         eq_refl) eq_refl)).
  lia.
Defined.

(** ** The delay and the deadline *)

(** What a turn hands back when it returns the recorded error or
    errors after the failure [e]: [e] itself by default, and with
    [WithAllErrors] the errors gathered before with [e] after them,
    joined unless [e] is the only one. *)
Lemma recorded_after_failure (W : Type) (cfg : config W) (lastErr : error)
  (errs : list errval) (e : errval) :
  recorded cfg (record_lastErr cfg lastErr e) (record_errs cfg errs e) =
  if allErrors cfg
  then match errs with
       | [] => Some e
       | _ :: _ => Some (joinError (errs ++ [e]))
       end
  else Some e.
Proof.
  unfold recorded, record_lastErr, record_errs.
  destruct (allErrors cfg); [| reflexivity].
  destruct errs as [| x [| y l]]; reflexivity.
Qed.

(** C6: with a duration budget, once the delay [d] of the strategy is
    computed the clock is read again and the delay becomes the smaller
    of [d] and the time that remains until the deadline. If that is
    zero or less the turn leaves as exhausted: the hook is called, the
    clock is not asked to sleep, and the turn returns the error [e] of
    the attempt or, with [WithAllErrors], the errors gathered so far
    with [e] after them, joined unless [e] is the only one. Otherwise
    the retry hook and the sleep get the clamped delay; an interrupted
    sleep returns the same value, and after a sleep that is not
    interrupted the loop goes on with [e] recorded. *)
Theorem delay_clamped_to_deadline (W : Type) (fn : Func W) (cfg : config W)
  (maxA : Z) (deadline : Time) (a : Z) (lastErr : error) (errs : list errval)
  (e : errval) (w w1 w2 w3 w4 w5 : W) (t1 t2 : Time) (d : Duration) :
  fn w = (Some e, w1) -> as_stopError e = None -> a < maxA ->
  accepts cfg (Some e) w1 w2 ->
  0 < maxDuration cfg ->
  Now (clock cfg) w2 = (t1, w3) -> t1 <= deadline ->
  Delay (backoff cfg) a w3 = (d, w4) ->
  Now (clock cfg) w4 = (t2, w5) ->
  let delay := Z.min d (Time_Sub deadline t2) in
  let asked := CallFn a (Some e) ::
               hook_call (condition cfg) (CallCondition (Some e) true) ++
               [CallNow t1; CallDelay a d; CallNow t2] in
  let returned := if allErrors cfg
                  then match errs with
                       | [] => Some e
                       | _ :: _ => Some (joinError (errs ++ [e]))
                       end
                  else Some e in
  (delay <= 0 ->
   exists w6,
     body fn cfg maxA deadline a lastErr errs w =
     (Return returned (Exhausted NoTimeLeft),
      w6,
      asked ++ hook_call (onExhausted cfg) (CallOnExhausted a (Some e))) /\
     sleeps (asked ++ hook_call (onExhausted cfg) (CallOnExhausted a (Some e))) = []) /\
  (0 < delay ->
   exists w6 cancelled w7,
     Sleep (clock cfg) delay w6 = (cancelled, w7) /\
     body fn cfg maxA deadline a lastErr errs w =
     (match cancelled with
      | Some _ => Return returned Cancelled
      | None => Continue (if allErrors cfg then lastErr else Some e)
                         (if allErrors cfg then errs ++ [e] else errs)
      end,
      w7,
      asked ++ hook_call (onRetry cfg) (CallOnRetry a (Some e) delay) ++
      [CallSleep delay cancelled])).
Proof.
  intros Hfn Hns Hlt Hacc Hdur Hnow1 Hnot Hdelay Hnow2 delay asked returned.
  assert (Hret : returned =
            recorded cfg (record_lastErr cfg lastErr e) (record_errs cfg errs e))
    by (symmetry; apply recorded_after_failure).
  clearbody returned. subst returned.
  change (if allErrors cfg then lastErr else Some e)
    with (record_lastErr cfg lastErr e).
  change (if allErrors cfg then errs ++ [e] else errs)
    with (record_errs cfg errs e).
  assert (Hclamp : (if Time_Sub deadline t2 <? d then Time_Sub deadline t2 else d)
                   = delay).
  { unfold delay. destruct (Z.ltb_spec (Time_Sub deadline t2) d); lia. }
  apply Z.leb_gt in Hlt. apply Z.ltb_lt in Hdur.
  assert (Hafter : Time_After t1 deadline = false) by now apply Z.ltb_ge.
  split.
  - intros Hle. apply Z.leb_le in Hle. subst asked.
    run_turn.
    destruct (condition cfg) as [cond |]; [| subst w2]; run_turn;
      cbn [negb]; run_turn; cbn [andb]; cbv beta iota.
    all: destruct (onExhausted cfg) as [hook |];
      [destruct (hook a (Some e) w5) as [[] w6]; exists w6 | exists w5];
      split; reflexivity.
  - intros Hpos. apply Z.leb_gt in Hpos. subst asked.
    run_turn.
    destruct (condition cfg) as [cond |]; [| subst w2]; run_turn;
      cbn [negb]; run_turn; cbn [andb]; cbv beta iota.
    all: destruct (onRetry cfg) as [hook |].
    all: try (destruct (hook a (Some e) delay w5) as [[] w6];
              destruct (Sleep (clock cfg) delay w6) as [c w7] eqn:Hsl;
              exists w6, c, w7; split; [exact Hsl |]; destruct c; reflexivity).
    all: destruct (Sleep (clock cfg) delay w5) as [c w7] eqn:Hsl;
      exists w5, c, w7; split; [exact Hsl |]; destruct c; reflexivity.
Qed.

(** The operation uses up the whole budget of 100ms: the clamped delay
    is zero, and the loop leaves without sleeping. *)
Lemma delay_clamped_to_deadline_in_test :
  exists w6,
    body (errTest_after (100 * Millisecond))
      (bench_config [WithMaxAttempts 10; WithMaxDuration (100 * Millisecond);
                     WithBackoff (Constant bench (10 * Millisecond));
                     WithClock fakeClock; OnExhausted (Some quiet_OnExhausted)])
      10 (100 * Millisecond) 1 None [] newBench =
    (Return (Some errTest) (Exhausted NoTimeLeft), w6,
     [CallFn 1 (Some errTest); CallCondition (Some errTest) true;
      CallNow (100 * Millisecond); CallDelay 1 (10 * Millisecond);
      CallNow (100 * Millisecond); CallOnExhausted 1 (Some errTest)]) /\
    sleeps [CallFn 1 (Some errTest); CallCondition (Some errTest) true;
            CallNow (100 * Millisecond); CallDelay 1 (10 * Millisecond);
            CallNow (100 * Millisecond); CallOnExhausted 1 (Some errTest)] = [].
Proof.
  apply (proj1 (@delay_clamped_to_deadline bench
                  (errTest_after (100 * Millisecond))
                  (bench_config [WithMaxAttempts 10;
                                 WithMaxDuration (100 * Millisecond);
                                 WithBackoff (Constant bench (10 * Millisecond));
                                 WithClock fakeClock;
                                 OnExhausted (Some quiet_OnExhausted)])
                  10 (100 * Millisecond) 1 None [] errTest newBench
                  (snd (errTest_after (100 * Millisecond) newBench))
                  (snd (errTest_after (100 * Millisecond) newBench))
                  (snd (errTest_after (100 * Millisecond) newBench))
                  (snd (errTest_after (100 * Millisecond) newBench))
                  (snd (errTest_after (100 * Millisecond) newBench))
                  (100 * Millisecond) (100 * Millisecond) (10 * Millisecond)
                  eq_refl eq_refl eq_refl eq_refl eq_refl eq_refl
                  ltac:(vm_compute; discriminate) eq_refl eq_refl)).
  vm_compute. discriminate.
Defined.

(** With a duration budget no sleep of [execute] is for a duration
    that is not positive. *)
Lemma execute_sleeps_positive (W : Type) (fn : Func W) (cfg : config W)
  (w : W) (res : option (error * exit)) (w' : W) (tr : list event) :
  0 < maxDuration cfg ->
  execute fn cfg w = (res, w', tr) ->
  Forall (fun d => 0 < d) (sleeps tr).
Proof.
  intros Hd Hex.
  destruct (start_deadline cfg w) as [[deadline w0] t0] eqn:Hs.
  destruct (execute_run fn cfg w Hs) as (res' & w'' & tr' & Hex' & Hrun).
  rewrite Hex' in Hex. injection Hex as <- <- <-.
  apply start_deadline_quiet in Hs. destruct Hs as (_ & _ & _ & _ & Hq).
  rewrite sleeps_app, Hq. cbn [app]. now apply run_sleeps in Hrun.
Qed.

(** ** The attempt budget *)

Lemma loop_ignores_maxAttempts (W : Type) (fn : Func W) (cfg : config W)
  (n maxA : Z) (deadline : Time) (fuel : nat) :
  forall a l es w,
    loop fn (WithMaxAttempts n cfg) maxA deadline fuel a l es w =
    loop fn cfg maxA deadline fuel a l es w.
Proof.
  induction fuel as [| fuel IH]; intros a l es w; [reflexivity |].
  rewrite !loop_S.
  change (body fn (WithMaxAttempts n cfg) maxA deadline a l es w)
    with (body fn cfg maxA deadline a l es w).
  destruct (body fn cfg maxA deadline a l es w) as [[t w1] t1].
  destruct t as [r x | l' es']; [reflexivity |]. now rewrite IH.
Qed.

(** C9: the loop always runs under a positive attempt budget, and calls
    the operation at least once and at most that many times. A
    configured maximum of zero or less stands for the default of 3:
    [execute] does what it does for a maximum of 3, and an operation
    that always fails is called for the attempts 1 to 3. *)
Theorem nonpositive_budget_defaults (W : Type) (fn : Func W) (cfg : config W)
  (w : W) :
  maxAttempts cfg <= 0 ->
  0 < effective_maxAttempts cfg /\
  effective_maxAttempts cfg = 3 /\
  execute fn cfg w = execute fn (WithMaxAttempts 3 cfg) w /\
  exists r x w' tr,
    execute fn cfg w = (Some (r, x), w', tr) /\
    (1 <= List.length (fn_calls tr) <= 3)%nat /\
    (maxDuration cfg <= 0 ->
     always_fails fn -> always_accepts cfg -> never_cancelled cfg ->
     x = Exhausted AttemptBudget /\ map fst (fn_calls tr) = [1; 2; 3]).
Proof.
  intros Hle.
  assert (Heff : effective_maxAttempts cfg = 3).
  { unfold effective_maxAttempts, DefaultMaxAttempts.
    destruct (Z.leb_spec (maxAttempts cfg) 0); [reflexivity | lia]. }
  split; [apply effective_maxAttempts_pos |]. split; [exact Heff |]. split.
  - rewrite !execute_unfold.
    change (start_deadline (WithMaxAttempts 3 cfg) w) with (start_deadline cfg w).
    destruct (start_deadline cfg w) as [[deadline w0] t0].
    change (effective_maxAttempts (WithMaxAttempts 3 cfg)) with 3.
    now rewrite Heff, loop_ignores_maxAttempts.
  - destruct (start_deadline cfg w) as [[deadline w0] t0] eqn:Hs.
    destruct (execute_run fn cfg w Hs) as ([r x] & w' & tr & Hex & Hrun).
    apply start_deadline_quiet in Hs. destruct Hs as (Hq & _).
    exists r, x, w', (t0 ++ tr). split; [exact Hex |].
    rewrite fn_calls_app, Hq. cbn [app]. rewrite Heff in Hrun.
    pose proof (run_fn_calls Hrun) as (n & Hn & Hmax).
    split.
    + rewrite <- (length_map fst), Hn, counting_length. lia.
    + intros Hdur Hfails Haccepts Hsleep.
      destruct (always_failing_calls Hfails Haccepts Hsleep Hdur Hrun) as [-> H3];
        [lia |].
      split; [reflexivity | exact H3].
Qed.

(** [retry.WithMaxAttempts(0)] in the test of the package. *)
Lemma nonpositive_budget_defaults_in_test :
  maxAttempts (bench_config [WithMaxAttempts 0; WithClock backgroundClock]) <= 0 /\
  execute always_errTest
    (bench_config [WithMaxAttempts 0; WithClock backgroundClock]) newBench =
  execute always_errTest
    (WithMaxAttempts 3 (bench_config [WithMaxAttempts 0; WithClock backgroundClock]))
    newBench.
Proof.
  split; [vm_compute; discriminate |].
  apply (@nonpositive_budget_defaults bench always_errTest
           (bench_config [WithMaxAttempts 0; WithClock backgroundClock]) newBench).
  vm_compute. discriminate.
Defined.

(** ** The error handed back *)

Lemma joinErrors_Is (es : list errval) (e : errval) :
  In e es -> errors_Is (joinErrors es) (Some e) = true.
Proof.
  intros Hin. destruct es as [| x [| y l]].
  - contradiction.
  - destruct Hin as [-> | []]. apply is_chain_refl.
  - cbn [joinErrors errors_Join errors_Is]. now apply is_chain_join_member.
Qed.

Lemma joinErrors_snoc (fs : list errval) (e : errval) :
  joinErrors (fs ++ [e]) =
  match fs with
  | [] => Some e
  | _ :: _ => Some (joinError (fs ++ [e]))
  end.
Proof. destruct fs as [| x [| y l]]; reflexivity. Qed.

Lemma two_results (fs : list errval) (lastr : error) (E1 E2 : errval) :
  map Some fs ++ [lastr] = [Some E1; Some E2] ->
  fs = [E1] /\ lastr = Some E2.
Proof.
  destruct fs as [| f1 [| f2 fs']]; cbn [map app]; intros H.
  - discriminate.
  - injection H as -> ->. now split.
  - injection H as _ _ H. destruct fs'; discriminate.
Qed.

Section Selection.
Variable W : Type.
Variable fn : Func W.
Variable cfg : config W.
Variable maxA : Z.
Variable deadline : Time.

(** What a run returns, from what the operation returned at its
    calls: [nil] after a call that returned [nil], the cause of the
    first marker on a terminal error, and otherwise the last error
    or, with [WithAllErrors], all the errors joined. *)
Lemma run_selection a l es w r x w' tr :
  run fn cfg maxA deadline a l es w (r, x) w' tr ->
  exists fs lastr,
    map snd (fn_calls tr) = map Some fs ++ [lastr] /\
    r = match lastr with
        | None => None
        | Some e =>
            match as_stopError e with
            | Some s => Unwrap s
            | None => if allErrors cfg then joinErrors (es ++ fs ++ [e])
                      else Some e
            end
        end.
Proof.
  intros H. remember (r, x) as res eqn:Hres. revert r x Hres.
  induction H as [a l es w r0 x0 w1 t1 Hb
                 | a l es w l' es' w1 t1 res w2 t2 Hb Hrun IH];
    intros r x Hres.
  - injection Hres as -> ->. pose proof Hb as Hc.
    apply body_fn_calls in Hc. destruct Hc as (tr' & -> & Hnil).
    rewrite fn_calls_cons, Hnil. exists [], (fst (fn w)).
    split; [reflexivity |]. apply body_return in Hb.
    destruct x.
    + destruct Hb as [-> ->]. reflexivity.
    + destruct Hb as (e & s & He & Hs & -> & _). rewrite He. cbn [fst].
      now rewrite Hs.
    + destruct Hb as (e & -> & -> & -> & _).
      unfold recorded, record_lastErr, record_errs.
      destruct (allErrors cfg); reflexivity.
    + destruct Hb as (e & -> & -> & -> & _).
      unfold recorded, record_lastErr, record_errs.
      destruct (allErrors cfg); reflexivity.
    + destruct Hb as (e & -> & -> & -> & _).
      unfold recorded, record_lastErr, record_errs.
      destruct (allErrors cfg); reflexivity.
  - subst res. destruct (IH r x eq_refl) as (fs & lastr & Hfs & Hr).
    pose proof Hb as Hc.
    apply body_fn_calls in Hc. destruct Hc as (tr' & -> & Hnil).
    apply body_continue in Hb. destruct Hb as (_ & e & He & _ & _ & Hes).
    exists (e :: fs), lastr.
    rewrite fn_calls_app, fn_calls_cons, Hnil, He. cbn [app map snd].
    rewrite Hfs. split; [reflexivity |].
    rewrite Hr, Hes. unfold record_errs.
    destruct lastr as [e' |]; [| reflexivity].
    destruct (as_stopError e'); [reflexivity |].
    destruct (allErrors cfg); [| reflexivity].
    now rewrite <- app_assoc.
Qed.

End Selection.

(** C7: the error [execute] hands back is chosen from the errors the
    operation returned at its calls, of which every one but the last
    is a failure. When the last call failed with an error [e] that
    carries no terminal marker,
    - by default the result is [e], and that one only: it matches
      [e], and matches any other error only as far as [e] itself
      does; after the failures [E1] then [E2] it is [E2], and matches
      [E1] no more than [E2] does;
    - with [WithAllErrors] the result is [e] itself when it is the
      only failure, and otherwise all the failures joined in order;
      it matches each of them: after [E1] then [E2], both. *)
Theorem error_selection (W : Type) (fn : Func W) (cfg : config W) (w : W) :
  exists r x w' tr fs lastr,
    execute fn cfg w = (Some (r, x), w', tr) /\
    map snd (fn_calls tr) = map Some fs ++ [lastr] /\
    (forall e, lastr = Some e -> as_stopError e = None ->
       (allErrors cfg = false ->
        r = Some e /\ errors_Is r (Some e) = true /\
        forall t, errors_Is r (Some t) = is_chain e t) /\
       (allErrors cfg = true ->
        r = match fs with
            | [] => Some e
            | _ :: _ => Some (joinError (fs ++ [e]))
            end /\
        forall t, In t (fs ++ [e]) -> errors_Is r (Some t) = true)) /\
    (forall E1 E2,
       map snd (fn_calls tr) = [Some E1; Some E2] -> as_stopError E2 = None ->
       (allErrors cfg = false ->
        r = Some E2 /\ errors_Is r (Some E2) = true /\
        errors_Is r (Some E1) = is_chain E2 E1) /\
       (allErrors cfg = true ->
        r = Some (joinError [E1; E2]) /\
        errors_Is r (Some E1) = true /\ errors_Is r (Some E2) = true)).
Proof.
  destruct (start_deadline cfg w) as [[deadline w0] t0] eqn:Hs.
  destruct (execute_run fn cfg w Hs) as ([r x] & w' & tr & Hex & Hrun).
  apply start_deadline_quiet in Hs. destruct Hs as (Hq & _).
  destruct (run_selection Hrun) as (fs & lastr & Hcalls & Hr).
  cbn [app] in Hr.
  exists r, x, w', (t0 ++ tr), fs, lastr. split; [exact Hex |].
  rewrite fn_calls_app, Hq. cbn [app]. split; [exact Hcalls |].
  assert (Hsel : forall e, lastr = Some e -> as_stopError e = None ->
            (allErrors cfg = false ->
             r = Some e /\ errors_Is r (Some e) = true /\
             forall t, errors_Is r (Some t) = is_chain e t) /\
            (allErrors cfg = true ->
             r = match fs with
                 | [] => Some e
                 | _ :: _ => Some (joinError (fs ++ [e]))
                 end /\
             forall t, In t (fs ++ [e]) -> errors_Is r (Some t) = true)).
  { intros e -> Hns. rewrite Hns in Hr. split; intros Hmode; rewrite Hmode in Hr.
    - subst r. split; [reflexivity |]. split; [apply is_chain_refl |].
      intros t. reflexivity.
    - split; [rewrite Hr; apply joinErrors_snoc |].
      intros t Hin. rewrite Hr. now apply joinErrors_Is. }
  split; [exact Hsel |].
  intros E1 E2 Htwo Hns. rewrite Hcalls in Htwo.
  apply two_results in Htwo. destruct Htwo as [-> ->].
  destruct (Hsel E2 eq_refl Hns) as [Hdefault Hjoined].
  split; intros Hmode.
  - destruct (Hdefault Hmode) as (Hr2 & His & Hany).
    split; [exact Hr2 |]. split; [exact His | apply Hany].
  - destruct (Hjoined Hmode) as (Hr2 & His).
    split; [exact Hr2 |]. split; apply His; cbn; auto.
Qed.

(** The tests of the two modes: [err1], then [err2], under a budget
    of two attempts. By default [execute] returns [err2], which does
    not match [err1]; with [WithAllErrors] it returns the two joined,
    which matches both. *)
Lemma error_selection_in_test :
  (exists x w' tr,
     execute err1_then_err2
       (bench_config [WithMaxAttempts 2; WithClock fakeClock]) newBench =
     (Some (Some err2, x), w', tr) /\
     map snd (fn_calls tr) = [Some err1; Some err2] /\
     errors_Is (Some err2) (Some err2) = true /\
     errors_Is (Some err2) (Some err1) = false) /\
  (exists x w' tr,
     execute err1_then_err2
       (bench_config [WithMaxAttempts 2; WithClock fakeClock; @WithAllErrors bench])
       newBench =
     (Some (Some (joinError [err1; err2]), x), w', tr) /\
     map snd (fn_calls tr) = [Some err1; Some err2] /\
     errors_Is (Some (joinError [err1; err2])) (Some err1) = true /\
     errors_Is (Some (joinError [err1; err2])) (Some err2) = true).
Proof.
  split.
  - destruct (@error_selection bench err1_then_err2
                (bench_config [WithMaxAttempts 2; WithClock fakeClock]) newBench)
      as (r & x & w' & tr & fs & lastr & Hex & _ & _ & Htwo).
    pose proof Hex as Hc. vm_compute in Hc.
    injection Hc as Hr Hx Hw Htr. subst r x w' tr.
    destruct (Htwo err1 err2 eq_refl eq_refl) as [Hdefault _].
    destruct (Hdefault eq_refl) as (_ & H2 & H1).
    eexists. eexists. eexists. split; [exact Hex |].
    split; [reflexivity |]. split; [exact H2 | exact H1].
  - destruct (@error_selection bench err1_then_err2
                (bench_config [WithMaxAttempts 2; WithClock fakeClock;
                               @WithAllErrors bench]) newBench)
      as (r & x & w' & tr & fs & lastr & Hex & _ & _ & Htwo).
    pose proof Hex as Hc. vm_compute in Hc.
    injection Hc as Hr Hx Hw Htr. subst r x w' tr.
    destruct (Htwo err1 err2 eq_refl eq_refl) as [_ Hjoined].
    destruct (Hjoined eq_refl) as (_ & H1 & H2).
    eexists. eexists. eexists. split; [exact Hex |].
    split; [reflexivity |]. split; [exact H1 | exact H2].
Defined.

(** ** Rounding to binary64 *)

Lemma digits2_pos_bounds (p : positive) :
  2 ^ (Zpos (digits2_pos p) - 1) <= Zpos p < 2 ^ Zpos (digits2_pos p).
Proof.
  induction p as [p IH | p IH |]; cbn [digits2_pos].
  - rewrite Pos2Z.inj_succ, Z.pow_succ_r by lia.
    replace (Z.succ (Zpos (digits2_pos p)) - 1)
      with (Z.succ (Zpos (digits2_pos p) - 1)) by lia.
    rewrite Z.pow_succ_r by lia. lia.
  - rewrite Pos2Z.inj_succ, Z.pow_succ_r by lia.
    replace (Z.succ (Zpos (digits2_pos p)) - 1)
      with (Z.succ (Zpos (digits2_pos p) - 1)) by lia.
    rewrite Z.pow_succ_r by lia. lia.
  - cbn. lia.
Qed.

(** One shift to the right halves the mantissa and remembers whether
    a one was shifted out. *)
Lemma shr_1_spec (mrs : shr_record) :
  0 <= shr_m mrs ->
  shr_m (shr_1 mrs) = shr_m mrs / 2 /\
  inexact (shr_1 mrs) = inexact mrs || negb (shr_m mrs mod 2 =? 0).
Proof.
  destruct mrs as [m r s]. unfold inexact. cbn [shr_m shr_r shr_s]. intros Hm.
  destruct m as [| [p | p |] | p]; cbn [shr_1 shr_m shr_r shr_s]; try lia.
  - split; [reflexivity | now destruct r, s].
  - split.
    + rewrite Pos2Z.inj_xI. apply Z.div_unique with 1; lia.
    + rewrite Pos2Z.inj_xI.
      replace ((2 * Zpos p + 1) mod 2) with 1
        by (apply Z.mod_unique with (Zpos p); lia).
      now destruct r, s.
  - split.
    + rewrite Pos2Z.inj_xO. apply Z.div_unique with 0; lia.
    + rewrite Pos2Z.inj_xO.
      replace ((2 * Zpos p) mod 2) with 0
        by (apply Z.mod_unique with (Zpos p); lia).
      now destruct r, s.
  - split; [reflexivity | now destruct r, s].
Qed.

Lemma mod_mul_zero (m a b : Z) :
  0 < a -> 0 < b ->
  (m mod (a * b) =? 0) = (m mod a =? 0) && ((m / a) mod b =? 0).
Proof.
  intros Ha Hb. rewrite Z.rem_mul_r by lia.
  pose proof (Z.mod_pos_bound m a Ha).
  pose proof (Z.mod_pos_bound (m / a) b Hb).
  destruct (Z.eqb_spec (m mod a) 0) as [-> | Hna];
    destruct (Z.eqb_spec ((m / a) mod b) 0) as [-> | Hnb]; cbn [andb].
  - apply Z.eqb_eq. lia.
  - apply Z.eqb_neq. nia.
  - apply Z.eqb_neq. nia.
  - apply Z.eqb_neq. nia.
Qed.

Lemma shifted_compose (j k : Z) (a b c : shr_record) :
  0 < j -> 0 < k -> 0 <= shr_m a ->
  shifted j a b -> shifted k b c -> shifted (j + k) a c.
Proof.
  intros Hj Hk Ha [Hb1 Hb2] [Hc1 Hc2]. unfold shifted.
  assert (0 < 2 ^ j) by (apply Z.pow_pos_nonneg; lia).
  assert (0 < 2 ^ k) by (apply Z.pow_pos_nonneg; lia).
  rewrite Z.pow_add_r by lia. split.
  - rewrite Hc1, Hb1. apply Z.div_div; lia.
  - rewrite Hc2, Hb2, Hb1, mod_mul_zero by lia.
    rewrite negb_andb, orb_assoc. reflexivity.
Qed.

Lemma shifted_nonneg (k : Z) (a b : shr_record) :
  0 < k -> 0 <= shr_m a -> shifted k a b -> 0 <= shr_m b.
Proof.
  intros Hk Ha [Hb _]. rewrite Hb. apply Z.div_pos; [lia |].
  apply Z.pow_pos_nonneg; lia.
Qed.

Lemma iter_shr_1 (p : positive) (mrs : shr_record) :
  0 <= shr_m mrs -> shifted (Zpos p) mrs (iter_pos shr_1 p mrs).
Proof.
  revert mrs. induction p as [p IH | p IH |]; intros mrs Hm; cbn [iter_pos].
  - assert (S1 : shifted 1 mrs (shr_1 mrs)) by exact (shr_1_spec mrs Hm).
    assert (Hm1 : 0 <= shr_m (shr_1 mrs))
      by (eapply shifted_nonneg; [| exact Hm | exact S1]; lia).
    pose proof (IH _ Hm1) as S2.
    assert (Hm2 : 0 <= shr_m (iter_pos shr_1 p (shr_1 mrs)))
      by (eapply shifted_nonneg; [| exact Hm1 | exact S2]; lia).
    pose proof (IH _ Hm2) as S3.
    replace (Zpos p~1) with (1 + (Zpos p + Zpos p)) by lia.
    apply shifted_compose with (shr_1 mrs); try lia; try assumption.
    apply shifted_compose with (iter_pos shr_1 p (shr_1 mrs)); try lia;
      assumption.
  - pose proof (IH _ Hm) as S2.
    assert (Hm2 : 0 <= shr_m (iter_pos shr_1 p mrs))
      by (eapply shifted_nonneg; [| exact Hm | exact S2]; lia).
    pose proof (IH _ Hm2) as S3.
    replace (Zpos p~0) with (Zpos p + Zpos p) by lia.
    apply shifted_compose with (iter_pos shr_1 p mrs); try lia; assumption.
  - exact (shr_1_spec mrs Hm).
Qed.

Lemma round_nearest_even_bounds (mrs : shr_record) :
  shr_m mrs <= round_nearest_even (shr_m mrs) (loc_of_shr_record mrs)
            <= shr_m mrs + (if inexact mrs then 1 else 0).
Proof.
  destruct mrs as [m [|] [|]]; unfold inexact;
    cbn [shr_m shr_r shr_s loc_of_shr_record round_nearest_even orb];
    try destruct (Z.even m); lia.
Qed.

Lemma fexp_binary64 (x : Z) : fexp prec emax x = Z.max (x - 53) (-1074).
Proof. reflexivity. Qed.

(** The number of digits of a mantissa whose value is below [2^53]
    leaves an exponent that is not positive. *)
Lemma fexp_nonpositive (m e U : Z) :
  0 <= m -> e <= 0 -> U < 2 ^ 53 -> m <= U * 2 ^ (- e) ->
  fexp prec emax (Zdigits2 m + e) <= 0.
Proof.
  intros Hm He HU Hle. rewrite fexp_binary64.
  destruct m as [| p | p]; cbn [Zdigits2]; try lia.
  pose proof (digits2_pos_bounds p) as [Hlow _].
  assert (0 < 2 ^ (- e)) by (apply Z.pow_pos_nonneg; lia).
  assert (Hlt : 2 ^ (Zpos (digits2_pos p) - 1) < 2 ^ (53 - e)).
  { replace (53 - e) with (53 + - e) by lia. rewrite Z.pow_add_r by lia. nia. }
  apply Z.pow_lt_mono_r_iff in Hlt; lia.
Qed.

(** The shift [shr_fexp] makes, on a mantissa whose value lies between
    the integers [L] and [U]: the shifted mantissa still does, also
    when it is rounded up because something was shifted out. *)
Lemma shr_fexp_spec (m e L U : Z) (mrs : shr_record) (e1 : Z) :
  0 <= m -> e <= 0 -> 0 <= L -> U < 2 ^ 53 ->
  L * 2 ^ (- e) <= m <= U * 2 ^ (- e) ->
  shr_fexp prec emax m e loc_Exact = (mrs, e1) ->
  e1 <= 0 /\ 0 <= shr_m mrs /\
  L * 2 ^ (- e1) <= shr_m mrs /\
  shr_m mrs + (if inexact mrs then 1 else 0) <= U * 2 ^ (- e1).
Proof.
  intros Hm He HL HU [Hlow Hup] H. unfold shr_fexp, shr in H.
  cbn [shr_record_of_loc] in H.
  pose proof (fexp_nonpositive Hm He HU Hup) as Hfexp.
  destruct (fexp prec emax (Zdigits2 m + e) - e) as [| p | p] eqn:Hn.
  - injection H as <- <-. unfold inexact. cbn [shr_m shr_r shr_s orb]. lia.
  - injection H as <- <-.
    pose proof (iter_shr_1 p (Build_shr_record m false false) Hm) as [Hq Hi].
    cbn [shr_m] in Hq, Hi. unfold inexact at 2 in Hi.
    cbn [shr_r shr_s orb] in Hi.
    assert (He1 : e + Zpos p <= 0) by lia.
    assert (Hp : 0 < 2 ^ Zpos p) by (apply Z.pow_pos_nonneg; lia).
    assert (Hk : 0 < 2 ^ (- (e + Zpos p))) by (apply Z.pow_pos_nonneg; lia).
    assert (Hsplit : 2 ^ (- e) = 2 ^ (- (e + Zpos p)) * 2 ^ Zpos p).
    { rewrite <- Z.pow_add_r by lia. f_equal. lia. }
    rewrite Hsplit in Hlow, Hup.
    pose proof (Z.div_mod m (2 ^ Zpos p) ltac:(lia)) as Hdm.
    pose proof (Z.mod_pos_bound m (2 ^ Zpos p) Hp) as Hmod.
    rewrite Hq, Hi.
    split; [exact He1 |]. split; [apply Z.div_pos; lia |]. split.
    + apply Z.div_le_lower_bound; [exact Hp | nia].
    + destruct (Z.eqb_spec (m mod 2 ^ Zpos p) 0) as [Hz | Hnz]; cbn [negb]; nia.
  - injection H as <- <-. unfold inexact. cbn [shr_m shr_r shr_s orb]. lia.
Qed.

(** Rounding a positive mantissa whose value lies between the
    integers [L] and [U] gives a float between them: an integer below
    [2^53] is a float, and rounding to nearest does not step over a
    float. *)
Lemma binary_round_aux_mag (s : bool) (mx : positive) (e L U : Z) :
  e <= 0 -> 0 <= L -> U < 2 ^ 53 ->
  L * 2 ^ (- e) <= Zpos mx <= U * 2 ^ (- e) ->
  between_mag L U s (binary_round_aux prec emax s (Zpos mx) e loc_Exact).
Proof.
  intros He HL HU Hb. unfold binary_round_aux.
  destruct (shr_fexp prec emax (Zpos mx) e loc_Exact) as [mrs1 e1] eqn:H1.
  apply (@shr_fexp_spec _ _ L U) in H1; try lia.
  destruct H1 as (He1 & Hq1 & Hlow1 & Hup1).
  pose proof (round_nearest_even_bounds mrs1) as Hr.
  set (mr := round_nearest_even (shr_m mrs1) (loc_of_shr_record mrs1)) in *.
  destruct (shr_fexp prec emax mr e1 loc_Exact) as [mrs2 e2] eqn:H2.
  apply (@shr_fexp_spec _ _ L U) in H2; try lia.
  destruct H2 as (He2 & Hq2 & Hlow2 & Hup2).
  assert (0 < 2 ^ (- e2)) by (apply Z.pow_pos_nonneg; lia).
  destruct (shr_m mrs2) as [| m2 | m2] eqn:Hm2.
  - cbn [between_mag]. split; [reflexivity | nia].
  - assert (Hfin : (e2 <=? emax - prec) = true)
      by (apply Z.leb_le; unfold emax, prec; lia).
    rewrite Hfin. cbn [between_mag].
    split; [reflexivity |]. split; [exact He2 |].
    destruct (inexact mrs2); lia.
  - lia.
Qed.

Lemma iter_xO (d mx : positive) :
  Zpos (Pos.iter xO mx d) = Zpos mx * 2 ^ Zpos d.
Proof.
  revert mx. induction d as [| d IH] using Pos.peano_ind; intros mx.
  - cbn. lia.
  - rewrite Pos.iter_succ, Pos2Z.inj_xO, IH, Pos2Z.inj_succ, Z.pow_succ_r; lia.
Qed.

Lemma shl_align_spec (mx : positive) (ex ex' : Z) :
  snd (shl_align mx ex ex') = Z.min ex ex' /\
  Zpos (fst (shl_align mx ex ex')) = Zpos mx * 2 ^ (ex - Z.min ex ex').
Proof.
  unfold shl_align. destruct (ex' - ex) as [| d | d] eqn:Hd; cbn [fst snd].
  - replace (Z.min ex ex') with ex by lia. rewrite Z.sub_diag. cbn. lia.
  - replace (Z.min ex ex') with ex by lia. rewrite Z.sub_diag. cbn. lia.
  - replace (Z.min ex ex') with ex' by lia. split; [reflexivity |].
    rewrite iter_xO. f_equal. f_equal. lia.
Qed.

Lemma binary_round_mag (s : bool) (mx : positive) (e L U : Z) :
  e <= 0 -> 0 <= L -> U < 2 ^ 53 ->
  L * 2 ^ (- e) <= Zpos mx <= U * 2 ^ (- e) ->
  between_mag L U s (binary_round prec emax s mx e).
Proof.
  intros He HL HU Hb. unfold binary_round.
  pose proof (shl_align_spec mx e (fexp prec emax (Zpos (digits2_pos mx) + e)))
    as [Hez Hmz].
  destruct (shl_align mx e (fexp prec emax (Zpos (digits2_pos mx) + e)))
    as [mz ez]. cbn [fst snd] in Hez, Hmz.
  set (e' := fexp prec emax (Zpos (digits2_pos mx) + e)) in *.
  assert (Hle : ez <= e) by lia.
  assert (0 < 2 ^ (- e)) by (apply Z.pow_pos_nonneg; lia).
  assert (0 < 2 ^ (e - ez)) by (apply Z.pow_pos_nonneg; lia).
  assert (Hsplit : 2 ^ (- ez) = 2 ^ (- e) * 2 ^ (e - ez)).
  { rewrite <- Z.pow_add_r by lia. f_equal. lia. }
  apply binary_round_aux_mag; try lia.
  rewrite Hsplit, Hmz, <- Hez. nia.
Qed.

(** From the magnitude to the signed value. *)
Lemma between_of_mag (s : bool) (L U : Z) (x : float64) :
  between_mag (if s then Z.max (- U) 0 else Z.max L 0)
              (if s then - L else U) s x ->
  (if s then L < 0 else 0 < U) ->
  between L U x.
Proof.
  destruct x as [s' | s' | | s' m e]; cbn [between_mag between]; try tauto.
  - intros [-> H]. destruct s; lia.
  - intros (-> & He & Hlow & Hup) Hs.
    assert (0 < 2 ^ (- e)) by (apply Z.pow_pos_nonneg; lia).
    split; [exact He |]. destruct s; cbn [cond_Zopp]; nia.
Qed.

Lemma binary_round_aux_between (s : bool) (mx : positive) (e L U : Z) :
  e <= 0 -> - 2 ^ 53 < L -> U < 2 ^ 53 ->
  L * 2 ^ (- e) <= cond_Zopp s (Zpos mx) <= U * 2 ^ (- e) ->
  between L U (binary_round_aux prec emax s (Zpos mx) e loc_Exact).
Proof.
  intros He HL HU Hb.
  assert (0 < 2 ^ (- e)) by (apply Z.pow_pos_nonneg; lia).
  apply between_of_mag with s.
  - destruct s; cbn [cond_Zopp] in Hb;
      apply binary_round_aux_mag; try lia; nia.
  - destruct s; cbn [cond_Zopp] in Hb; nia.
Qed.

Lemma binary_normalize_between (m e L U : Z) (szero : bool) :
  e <= 0 -> - 2 ^ 53 < L -> U < 2 ^ 53 ->
  L * 2 ^ (- e) <= m <= U * 2 ^ (- e) ->
  between L U (binary_normalize prec emax m e szero).
Proof.
  intros He HL HU Hb.
  assert (0 < 2 ^ (- e)) by (apply Z.pow_pos_nonneg; lia).
  destruct m as [| mx | mx]; cbn [binary_normalize].
  - cbn [between]. nia.
  - apply between_of_mag with false; [| nia].
    apply binary_round_mag; try lia; nia.
  - apply between_of_mag with true; [| nia].
    apply binary_round_mag; try lia; nia.
Qed.

(** An integer below [2^53] in magnitude is converted exactly. *)
Lemma float64_of_Z_between (z : Z) :
  - 2 ^ 53 < z < 2 ^ 53 -> between z z (float64_of_Z z).
Proof.
  intros H. apply binary_normalize_between; cbn; lia.
Qed.

(** The product of two floats, from bounds on the exact product. *)
Lemma f64_mul_between (Lx Ux Ly Uy L U : Z) (x y : float64) :
  between Lx Ux x -> between Ly Uy y ->
  - 2 ^ 53 < L -> U < 2 ^ 53 ->
  (forall p q P Q, 0 < P -> 0 < Q ->
     Lx * P <= p <= Ux * P -> Ly * Q <= q <= Uy * Q ->
     L * (P * Q) <= p * q <= U * (P * Q)) ->
  between L U (f64_mul x y).
Proof.
  intros Hx Hy HL HU Hprod. unfold f64_mul.
  destruct x as [sx | sx | | sx mx ex]; try contradiction;
    destruct y as [sy | sy | | sy my ey]; try contradiction;
    cbn [between] in Hx, Hy; cbn [SFmul].
  - cbn [between]. specialize (Hprod 0 0 1 1). lia.
  - destruct Hy as (Hey & Hy).
    assert (0 < 2 ^ (- ey)) by (apply Z.pow_pos_nonneg; lia).
    cbn [between]. specialize (Hprod 0 (cond_Zopp sy (Zpos my)) 1 (2 ^ (- ey))).
    nia.
  - destruct Hx as (Hex & Hx).
    assert (0 < 2 ^ (- ex)) by (apply Z.pow_pos_nonneg; lia).
    cbn [between]. specialize (Hprod (cond_Zopp sx (Zpos mx)) 0 (2 ^ (- ex)) 1).
    nia.
  - destruct Hx as (Hex & Hx). destruct Hy as (Hey & Hy).
    assert (HP : 0 < 2 ^ (- ex)) by (apply Z.pow_pos_nonneg; lia).
    assert (HQ : 0 < 2 ^ (- ey)) by (apply Z.pow_pos_nonneg; lia).
    apply binary_round_aux_between; try lia.
    replace (- (ex + ey)) with (- ex + - ey) by lia.
    rewrite Z.pow_add_r by lia.
    replace (cond_Zopp (xorb sx sy) (Zpos (mx * my)))
      with (cond_Zopp sx (Zpos mx) * cond_Zopp sy (Zpos my))
      by (destruct sx, sy; cbn [cond_Zopp xorb]; lia).
    now apply Hprod.
Qed.

Lemma aligned_mantissa (s : bool) (m : positive) (e ez L U : Z) :
  e <= 0 -> ez <= e ->
  L * 2 ^ (- e) <= cond_Zopp s (Zpos m) <= U * 2 ^ (- e) ->
  L * 2 ^ (- ez) <= cond_Zopp s (Zpos m * 2 ^ (e - ez)) <= U * 2 ^ (- ez).
Proof.
  intros He Hez Hb.
  assert (0 < 2 ^ (- e)) by (apply Z.pow_pos_nonneg; lia).
  assert (0 < 2 ^ (e - ez)) by (apply Z.pow_pos_nonneg; lia).
  assert (Hsplit : 2 ^ (- ez) = 2 ^ (- e) * 2 ^ (e - ez)).
  { rewrite <- Z.pow_add_r by lia. f_equal. lia. }
  rewrite Hsplit. destruct s; cbn [cond_Zopp] in *; nia.
Qed.

Lemma between_weaken (L U L' U' : Z) (x : float64) :
  between L U x -> L' <= L -> U <= U' -> between L' U' x.
Proof.
  destruct x as [s | s | | s m e]; cbn [between]; try tauto; [lia |].
  intros (He & Hb) HL HU.
  assert (0 < 2 ^ (- e)) by (apply Z.pow_pos_nonneg; lia).
  split; [exact He | nia].
Qed.

(** The sum of two floats. *)
Lemma f64_add_between (Lx Ux Ly Uy : Z) (x y : float64) :
  between Lx Ux x -> between Ly Uy y ->
  - 2 ^ 53 < Lx + Ly -> Ux + Uy < 2 ^ 53 ->
  between (Lx + Ly) (Ux + Uy) (f64_add x y).
Proof.
  intros Hx Hy HL HU. unfold f64_add.
  destruct x as [sx | sx | | sx mx ex]; try contradiction;
    destruct y as [sy | sy | | sy my ey]; try contradiction;
    cbn [SFadd].
  - cbn [between] in *. destruct sx, sy; cbn [between]; lia.
  - cbn [between] in Hx. apply between_weaken with Ly Uy; [exact Hy | lia | lia].
  - cbn [between] in Hy. apply between_weaken with Lx Ux; [exact Hx | lia | lia].
  - cbn [between] in Hx, Hy.
    destruct Hx as (Hex & Hx). destruct Hy as (Hey & Hy).
    pose proof (shl_align_spec mx ex (Z.min ex ey)) as [_ Hax].
    pose proof (shl_align_spec my ey (Z.min ex ey)) as [_ Hay].
    replace (Z.min ex (Z.min ex ey)) with (Z.min ex ey) in Hax by lia.
    replace (Z.min ey (Z.min ex ey)) with (Z.min ex ey) in Hay by lia.
    rewrite Hax, Hay.
    apply binary_normalize_between; try lia.
    pose proof (@aligned_mantissa sx mx ex (Z.min ex ey) Lx Ux
                  ltac:(lia) ltac:(lia) Hx) as Hx'.
    pose proof (@aligned_mantissa sy my ey (Z.min ex ey) Ly Uy
                  ltac:(lia) ltac:(lia) Hy) as Hy'.
    destruct sx, sy; cbn [cond_Zopp] in *; lia.
Qed.

(** The difference of two floats. *)
Lemma f64_sub_between (Lx Ux Ly Uy : Z) (x y : float64) :
  between Lx Ux x -> between Ly Uy y ->
  - 2 ^ 53 < Lx - Uy -> Ux - Ly < 2 ^ 53 ->
  between (Lx - Uy) (Ux - Ly) (f64_sub x y).
Proof.
  intros Hx Hy HL HU. unfold f64_sub.
  destruct x as [sx | sx | | sx mx ex]; try contradiction;
    destruct y as [sy | sy | | sy my ey]; try contradiction;
    cbn [SFsub].
  - cbn [between] in *. destruct sx, sy; cbn [between]; lia.
  - cbn [between] in Hx, Hy. destruct Hy as (Hey & Hy).
    assert (0 < 2 ^ (- ey)) by (apply Z.pow_pos_nonneg; lia).
    cbn [between]. split; [exact Hey |].
    destruct sy; cbn [cond_Zopp negb] in *; nia.
  - cbn [between] in Hy. apply between_weaken with Lx Ux; [exact Hx | lia | lia].
  - cbn [between] in Hx, Hy.
    destruct Hx as (Hex & Hx). destruct Hy as (Hey & Hy).
    pose proof (shl_align_spec mx ex (Z.min ex ey)) as [_ Hax].
    pose proof (shl_align_spec my ey (Z.min ex ey)) as [_ Hay].
    replace (Z.min ex (Z.min ex ey)) with (Z.min ex ey) in Hax by lia.
    replace (Z.min ey (Z.min ex ey)) with (Z.min ex ey) in Hay by lia.
    rewrite Hax, Hay.
    apply binary_normalize_between; try lia.
    pose proof (@aligned_mantissa sx mx ex (Z.min ex ey) Lx Ux
                  ltac:(lia) ltac:(lia) Hx) as Hx'.
    pose proof (@aligned_mantissa sy my ey (Z.min ex ey) Ly Uy
                  ltac:(lia) ltac:(lia) Hy) as Hy'.
    destruct sx, sy; cbn [cond_Zopp] in *; lia.
Qed.

(** The integer part of a float between two integers lies between
    them. *)
Lemma trunc_float64_between (L U : Z) (x : float64) :
  between L U x -> exists z, trunc_float64 x = Some z /\ L <= z <= U.
Proof.
  destruct x as [s | s | | s m e]; cbn [between trunc_float64]; try tauto.
  - intros H. now exists 0.
  - intros (He & Hb). eexists. split; [reflexivity |].
    assert (Hp : 0 < 2 ^ (- e)) by (apply Z.pow_pos_nonneg; lia).
    rewrite Z.shiftl_div_pow2 by lia.
    pose proof (Z.div_mod (Zpos m) (2 ^ (- e)) ltac:(lia)) as Hdm.
    pose proof (Z.mod_pos_bound (Zpos m) (2 ^ (- e)) Hp) as Hmod.
    destruct s; cbn [cond_Zopp] in *; nia.
Qed.

(** ** Values as rationals *)

Lemma F2Q_finite (s : bool) (m : positive) (e : Z) :
  e <= 0 ->
  (F2Q (S754_finite s m e) ==
   inject_Z (cond_Zopp s (Zpos m)) / inject_Z (2 ^ (- e)))%Q.
Proof.
  intros He. destruct e as [| p | p]; try lia; cbn [F2Q Z.opp].
  - change (2 ^ 0) with 1. unfold Qdiv. change (/ inject_Z 1)%Q with 1%Q.
    now rewrite Qmult_1_r.
  - rewrite <- Pos2Z.inj_pow. apply Qmake_Qdiv.
Qed.

Lemma Qdiv_pow2_le (a b k : Z) :
  0 <= k ->
  (inject_Z a / inject_Z (2 ^ k) <= inject_Z b)%Q <-> a <= b * 2 ^ k.
Proof.
  intros Hk. assert (Hp : 0 < 2 ^ k) by (apply Z.pow_pos_nonneg; lia).
  destruct (2 ^ k) as [| p | p] eqn:Hpow; try lia.
  unfold Qdiv, Qinv, Qle, inject_Z; cbn. lia.
Qed.

Lemma Qdiv_pow2_ge (a b k : Z) :
  0 <= k ->
  (inject_Z b <= inject_Z a / inject_Z (2 ^ k))%Q <-> b * 2 ^ k <= a.
Proof.
  intros Hk. assert (Hp : 0 < 2 ^ k) by (apply Z.pow_pos_nonneg; lia).
  destruct (2 ^ k) as [| p | p] eqn:Hpow; try lia.
  unfold Qdiv, Qinv, Qle, inject_Z; cbn. lia.
Qed.

Lemma Qdiv_pow2_lt (a b k : Z) :
  0 <= k ->
  (inject_Z a / inject_Z (2 ^ k) < inject_Z b)%Q <-> a < b * 2 ^ k.
Proof.
  intros Hk. assert (Hp : 0 < 2 ^ k) by (apply Z.pow_pos_nonneg; lia).
  destruct (2 ^ k) as [| p | p] eqn:Hpow; try lia.
  unfold Qdiv, Qinv, Qlt, inject_Z; cbn. lia.
Qed.

Lemma Qdiv_pow2_gt (a b k : Z) :
  0 <= k ->
  (inject_Z b < inject_Z a / inject_Z (2 ^ k))%Q <-> b * 2 ^ k < a.
Proof.
  intros Hk. assert (Hp : 0 < 2 ^ k) by (apply Z.pow_pos_nonneg; lia).
  destruct (2 ^ k) as [| p | p] eqn:Hpow; try lia.
  unfold Qdiv, Qinv, Qlt, inject_Z; cbn. lia.
Qed.

(** A finite float with a value of at most 1 has an exponent that is
    not positive. *)
Lemma F2Q_le_1_exponent (s : bool) (m : positive) (e : Z) :
  (F2Q (S754_finite s m e) <= 1)%Q -> (0 < F2Q (S754_finite s m e))%Q ->
  s = false /\ e <= 0 /\ Zpos m <= 2 ^ (- e).
Proof.
  intros Hle Hpos.
  destruct e as [| p | p]; cbn [F2Q] in Hle, Hpos.
  - unfold Qle, Qlt, inject_Z in *; cbn in Hle, Hpos.
    destruct s; cbn [cond_Zopp] in *; try lia; repeat split; cbn; lia.
  - assert (0 < 2 ^ Zpos p) by (apply Z.pow_pos_nonneg; lia).
    assert (2 ^ 1 <= 2 ^ Zpos p) by (apply Z.pow_le_mono_r; lia).
    unfold Qle, Qlt, inject_Z in *; cbn [Qnum Qden] in Hle, Hpos.
    destruct s; cbn [cond_Zopp] in *; nia.
  - unfold Qle, Qlt in *; cbn [Qnum Qden] in Hle, Hpos.
    rewrite Pos2Z.inj_pow in Hle.
    destruct s; cbn [cond_Zopp] in *; try lia;
      repeat split; try lia; cbn [Z.opp]; lia.
Qed.

(** A draw of the random source lies between 0 and 1. *)
Lemma unit_draw_between (r : float64) : unit_draw r -> between 0 1 r.
Proof.
  intros (Hfin & Hge & Hlt).
  destruct r as [s | s | | s m e]; try discriminate; cbn [between]; [lia |].
  destruct e as [| p | p]; cbn [F2Q] in Hge, Hlt.
  - unfold Qle, Qlt, inject_Z in *; cbn in Hge, Hlt. lia.
  - assert (2 ^ 1 <= 2 ^ Zpos p) by (apply Z.pow_le_mono_r; lia).
    unfold Qle, Qlt, inject_Z in *; cbn [Qnum Qden] in Hge, Hlt.
    destruct s; cbn [cond_Zopp] in *; nia.
  - unfold Qle, Qlt in *; cbn [Qnum Qden] in Hge, Hlt.
    rewrite Pos2Z.inj_pow in Hlt. cbn [Z.opp].
    destruct s; cbn [cond_Zopp] in *; lia.
Qed.

Lemma ceiling_shift (d : Z) (F : Q) :
  d + Qceiling (inject_Z d * F) <= Qceiling (inject_Z d * (1 + F)).
Proof.
  pose proof (Qceiling_lt (inject_Z d * F)) as H1.
  pose proof (Qle_ceiling (inject_Z d * (1 + F))) as H2.
  set (C := Qceiling (inject_Z d * F)) in *.
  set (Y := Qceiling (inject_Z d * (1 + F))) in *.
  assert (H : d + C + - (1) < Y); [| lia].
  rewrite Zlt_Qlt. unfold Z.sub in H1.
  rewrite !inject_Z_plus, !inject_Z_opp in *.
  change (inject_Z 1) with 1%Q in *. lra.
Qed.

Lemma floor_shift (d : Z) (F : Q) :
  Qfloor (inject_Z d * (1 - F)) <= d - Qceiling (inject_Z d * F).
Proof.
  pose proof (Qceiling_lt (inject_Z d * F)) as H1.
  pose proof (Qfloor_le (inject_Z d * (1 - F))) as H2.
  set (C := Qceiling (inject_Z d * F)) in *.
  set (Y := Qfloor (inject_Z d * (1 - F))) in *.
  assert (H : Y < d + - C + 1); [| lia].
  rewrite Zlt_Qlt. unfold Z.sub in H1.
  rewrite !inject_Z_plus, !inject_Z_opp in *.
  change (inject_Z 1) with 1%Q in *. lra.
Qed.

(** The ceiling of [d * f], in terms of the mantissa of [f]. *)
Lemma ceiling_of_product (d : Z) (mf : positive) (ef : Z) :
  ef <= 0 ->
  let C := Qceiling (inject_Z d * F2Q (S754_finite false mf ef)) in
  d * Zpos mf <= C * 2 ^ (- ef) /\ (C - 1) * 2 ^ (- ef) < d * Zpos mf.
Proof.
  intros He C.
  assert (Heq : (inject_Z d * F2Q (S754_finite false mf ef) ==
                 inject_Z (d * Zpos mf) / inject_Z (2 ^ (- ef)))%Q).
  { rewrite F2Q_finite by exact He. cbn [cond_Zopp].
    unfold Qdiv. now rewrite Qmult_assoc, <- inject_Z_mult. }
  pose proof (Qle_ceiling (inject_Z d * F2Q (S754_finite false mf ef))) as Hle.
  pose proof (Qceiling_lt (inject_Z d * F2Q (S754_finite false mf ef))) as Hlt.
  fold C in Hle, Hlt. rewrite Heq in Hle, Hlt.
  apply Qdiv_pow2_le in Hle; [| lia]. apply Qdiv_pow2_gt in Hlt; [| lia].
  split; assumption.
Qed.

(** ** The jittered delay *)

Lemma f64_mul_by_factor (d C : Z) (x : float64) (mf : positive) (ef : Z) :
  between d d x -> 0 <= d -> C < 2 ^ 53 -> ef <= 0 ->
  d * Zpos mf <= C * 2 ^ (- ef) ->
  between 0 C (f64_mul x (S754_finite false mf ef)).
Proof.
  intros Hx Hd HC Hef Hle. unfold f64_mul.
  assert (0 < 2 ^ (- ef)) by (apply Z.pow_pos_nonneg; lia).
  destruct x as [s | s | | s m e]; try contradiction; cbn [SFmul between] in *.
  - nia.
  - destruct Hx as (He & Hx).
    assert (0 < 2 ^ (- e)) by (apply Z.pow_pos_nonneg; lia).
    apply binary_round_aux_between; try lia.
    replace (- (e + ef)) with (- e + - ef) by lia.
    rewrite Z.pow_add_r by lia.
    replace (cond_Zopp (xorb s false) (Zpos (m * mf)))
      with (cond_Zopp s (Zpos m) * Zpos mf)
      by (destruct s; cbn [cond_Zopp xorb]; lia).
    nia.
Qed.

(** The float the source converts back to a duration lies within
    [C] of [d], for any draw [r] between 0 and 1, when [C] is an
    integer that is at least [d * f]. *)
Lemma jittered_float_between (d C : Z) (r : float64) (mf : positive) (ef : Z) :
  0 <= d -> d + C < 2 ^ 53 -> ef <= 0 ->
  d * Zpos mf <= C * 2 ^ (- ef) ->
  between 0 1 r ->
  between (d - C) (d + C)
    (f64_add (float64_of_Z d)
       (f64_mul (f64_sub (f64_mul r f64_two) f64_one)
          (f64_mul (float64_of_Z d) (S754_finite false mf ef)))).
Proof.
  intros Hd Hsum Hef Hle Hr.
  assert (0 < 2 ^ (- ef)) by (apply Z.pow_pos_nonneg; lia).
  assert (HC : 0 <= C) by nia.
  assert (Hfd : between d d (float64_of_Z d))
    by (apply float64_of_Z_between; lia).
  assert (Hone : between 1 1 f64_one)
    by (apply float64_of_Z_between; lia).
  assert (Htwo : between 2 2 f64_two)
    by (apply float64_of_Z_between; lia).
  assert (Hjr : between 0 C
                  (f64_mul (float64_of_Z d) (S754_finite false mf ef)))
    by (apply f64_mul_by_factor with d; try assumption; lia).
  assert (Ht : between 0 2 (f64_mul r f64_two)).
  { apply f64_mul_between with 0 1 2 2; try assumption; try lia.
    intros p q P Q HP HQ Hp Hq. nia. }
  assert (Hu : between (-1) 1 (f64_sub (f64_mul r f64_two) f64_one)).
  { change (-1) with (0 - 1). change 1 with (2 - 1) at 2.
    apply f64_sub_between; try assumption; lia. }
  assert (Hj : between (- C) C
                 (f64_mul (f64_sub (f64_mul r f64_two) f64_one)
                    (f64_mul (float64_of_Z d) (S754_finite false mf ef)))).
  { apply f64_mul_between with (-1) 1 0 C; try assumption; try lia.
    intros p q P Q HP HQ Hp Hq. nia. }
  replace (d - C) with (d + - C) by lia.
  apply f64_add_between; try assumption; lia.
Qed.

(** C8 (as amended): with a factor that is zero or less, the jittered
    strategy returns exactly what the inner strategy returns and leaves
    the random source alone. With a factor [f] in [(0, 1]] around a
    constant delay [d] below [2^52] nanoseconds, every draw lies in the
    interval [[d*(1-f), d*(1+f)]] rounded outwards to whole
    nanoseconds, and is not negative, for every value between 0
    and 1 the random source produces. *)
Theorem jitter_within_rounded_interval (W : Type)
  (rand_Float64 : W -> float64 * W) (indefinite : float64 -> Z)
  (factor : float64) :
  (forall (b : Backoff W) (attempt : Z) (w : W),
     f64_leb factor f64_zero = true ->
     Delay (WithJitter rand_Float64 indefinite factor b) attempt w =
     Delay b attempt w) /\
  (forall (d : Duration) (attempt : Z) (w : W),
     is_finite factor = true -> (0 < F2Q factor)%Q -> (F2Q factor <= 1)%Q ->
     0 <= d < 2 ^ 52 ->
     unit_draw (fst (rand_Float64 w)) ->
     0 <= fst (Delay (WithJitter rand_Float64 indefinite factor (Constant W d))
                 attempt w) /\
     Qfloor (inject_Z d * (1 - F2Q factor))
       <= fst (Delay (WithJitter rand_Float64 indefinite factor (Constant W d))
                 attempt w)
       <= Qceiling (inject_Z d * (1 + F2Q factor))).
Proof.
  split.
  - intros b attempt w H. now apply WithJitter_off.
  - intros d attempt w Hfin Hpos Hle Hd Hdraw.
    destruct factor as [s | s | | s mf ef]; try discriminate.
    destruct (@F2Q_le_1_exponent s mf ef Hle Hpos) as (-> & Hef & Hmf).
    pose proof (ceiling_shift d (F2Q (S754_finite false mf ef))) as Hceil.
    pose proof (floor_shift d (F2Q (S754_finite false mf ef))) as Hfloor.
    pose proof (@ceiling_of_product d mf ef Hef) as [HC1 HC2].
    set (C := Qceiling (inject_Z d * F2Q (S754_finite false mf ef))) in *.
    assert (0 < 2 ^ (- ef)) by (apply Z.pow_pos_nonneg; lia).
    assert (HC : 0 <= C <= d) by nia.
    apply unit_draw_between in Hdraw.
    cbn [Delay WithJitter Constant]. unfold st_bind, st_ret.
    change (f64_leb (S754_finite false mf ef) f64_zero) with false.
    cbv beta iota.
    destruct (rand_Float64 w) as [r w1]. cbn [fst] in Hdraw.
    pose proof (@jittered_float_between d C r mf ef
                  ltac:(lia) ltac:(lia) Hef HC1 Hdraw) as Hs.
    apply trunc_float64_between in Hs. destruct Hs as (z & Hz & Hzb).
    unfold Duration_of_float64. rewrite Hz.
    assert (Hin : (MinInt64 <=? z) && (z <=? MaxInt64) = true).
    { unfold MinInt64, MaxInt64. apply andb_true_intro.
      split; apply Z.leb_le; lia. }
    rewrite Hin.
    destruct (Z.ltb_spec z 0); cbn [fst]; lia.
Qed.

(** The interval of the specification is not kept: around a delay of
    3ns with a factor of one half, the draw 0 of the random source
    gives [3 - 1.5 = 1.5], which the conversion to a duration cuts to
    1ns, below [d*(1-f) = 1.5ns]. *)
Lemma jitter_truncates_below_interval :
  ~ in_jitter_interval 3 f64_half
      (fst (Delay (WithJitter (@rand_zero unit) (fun _ => MinInt64) f64_half
                     (Constant unit 3)) 1 tt)).
Proof.
  intros [H _]. vm_compute in H. apply H. reflexivity.
Qed.

(** Beyond [2^53] nanoseconds the delay itself is rounded when it is
    converted to a float: around [2^54 + 6] with the smallest factor
    the draw is [2^54 + 8], above [d*(1+f)] rounded up. *)
Lemma jitter_rounds_large_delay :
  fst (Delay (WithJitter (@rand_zero unit) (fun _ => MinInt64)
                (S754_finite false 1 (-1074))
                (Constant unit (2 ^ 54 + 6))) 1 tt) = 2 ^ 54 + 8 /\
  Qceiling (inject_Z (2 ^ 54 + 6) * (1 + F2Q (S754_finite false 1 (-1074)))) =
  2 ^ 54 + 7.
Proof.
  split; vm_compute; reflexivity.
Qed.

(** The jitter of the default policy, around 100ms. *)
Lemma jitter_within_rounded_interval_default :
  0 <= fst (Delay (WithJitter (@rand_zero unit) (fun _ => MinInt64) f64_0_2
                     (Constant unit (100 * Millisecond))) 1 tt) /\
  Qfloor (inject_Z (100 * Millisecond) * (1 - F2Q f64_0_2))
    <= fst (Delay (WithJitter (@rand_zero unit) (fun _ => MinInt64) f64_0_2
                     (Constant unit (100 * Millisecond))) 1 tt)
    <= Qceiling (inject_Z (100 * Millisecond) * (1 + F2Q f64_0_2)).
Proof.
  apply (proj2 (@jitter_within_rounded_interval unit (@rand_zero unit)
                  (fun _ => MinInt64) f64_0_2)
           (100 * Millisecond) 1 tt).
  - reflexivity.
  - reflexivity.
  - vm_compute. discriminate.
  - vm_compute. split; [discriminate | reflexivity].
  - split; [reflexivity |]. split; vm_compute; [discriminate | reflexivity].
Defined.

(** * Further properties of the package *)

(** ** Capped and floored strategies *)

(** X1: a capped strategy never returns more than the cap, returns the
    delay of the inner strategy whenever that is within the cap, and
    leaves the world as the inner strategy leaves it. *)
Theorem WithCap_never_exceeds (W : Type) (max : Duration) (b : Backoff W)
  (attempt : Z) (w : W) :
  fst (Delay (WithCap max b) attempt w) <= max /\
  fst (Delay (WithCap max b) attempt w) <= fst (Delay b attempt w) /\
  (fst (Delay b attempt w) <= max ->
   Delay (WithCap max b) attempt w = Delay b attempt w) /\
  snd (Delay (WithCap max b) attempt w) = snd (Delay b attempt w).
Proof.
  rewrite WithCap_Delay. cbn [fst snd]. repeat split; try lia.
  intros H. rewrite Z.min_l by exact H. now destruct (Delay b attempt w).
Qed.

(** X2: a floored strategy never returns less than the floor, and
    returns the delay of the inner strategy whenever that is at least
    the floor. *)
Theorem WithMin_never_below (W : Type) (min : Duration) (b : Backoff W)
  (attempt : Z) (w : W) :
  min <= fst (Delay (WithMin min b) attempt w) /\
  fst (Delay b attempt w) <= fst (Delay (WithMin min b) attempt w) /\
  (min <= fst (Delay b attempt w) ->
   Delay (WithMin min b) attempt w = Delay b attempt w) /\
  snd (Delay (WithMin min b) attempt w) = snd (Delay b attempt w).
Proof.
  rewrite WithMin_Delay. cbn [fst snd]. repeat split; try lia.
  intros H. rewrite Z.max_l by exact H. now destruct (Delay b attempt w).
Qed.

(** X3: with a floor that is not above the cap, the two wrappers
    commute and keep the delay between floor and cap. With a floor
    above the cap the outer wrapper decides. *)
Theorem WithCap_WithMin_commute (W : Type) (min max : Duration)
  (b : Backoff W) (attempt : Z) (w : W) :
  (min <= max ->
   Delay (WithCap max (WithMin min b)) attempt w =
   Delay (WithMin min (WithCap max b)) attempt w /\
   min <= fst (Delay (WithCap max (WithMin min b)) attempt w) <= max) /\
  (max < min ->
   fst (Delay (WithCap max (WithMin min b)) attempt w) = max /\
   fst (Delay (WithMin min (WithCap max b)) attempt w) = min).
Proof.
  repeat (rewrite ?WithCap_Delay, ?WithMin_Delay; cbn [fst snd]).
  split; intros H.
  - split; [f_equal; lia | lia].
  - lia.
Qed.

Lemma WithCap_WithMin_commute_in_test :
  Delay (WithCap (500 * Millisecond) (WithMin (150 * Millisecond)
           (Linear unit (50 * Millisecond)))) 2 tt =
  Delay (WithMin (150 * Millisecond) (WithCap (500 * Millisecond)
           (Linear unit (50 * Millisecond)))) 2 tt /\
  150 * Millisecond
    <= fst (Delay (WithCap (500 * Millisecond) (WithMin (150 * Millisecond)
                     (Linear unit (50 * Millisecond)))) 2 tt)
    <= 500 * Millisecond.
Proof.
  apply (proj1 (@WithCap_WithMin_commute unit (150 * Millisecond)
                  (500 * Millisecond) (Linear unit (50 * Millisecond)) 2 tt)).
  vm_compute. discriminate.
Defined.

(** ** Exponential growth *)

(** X4: while the product fits 64 bits, each attempt doubles the
    delay of the attempt before. *)
Theorem Exponential_doubles (W : Type) (base : Duration) (n : Z) (w : W) :
  1 <= n <= 61 -> in_int64 (base * 2 ^ n) ->
  fst (Delay (Exponential W base) (n + 1) w) =
  2 * fst (Delay (Exponential W base) n w).
Proof.
  intros Hn Hfit.
  assert (Hpow : 2 ^ n = 2 * 2 ^ (n - 1)).
  { rewrite <- Z.pow_succ_r by lia. f_equal. lia. }
  assert (0 < 2 ^ (n - 1)) by (apply Z.pow_pos_nonneg; lia).
  rewrite !Exponential_exact; cbn [fst]; try lia.
  - replace (n + 1 - 1) with n by lia. lia.
  - unfold in_int64, MinInt64, MaxInt64 in *. nia.
  - replace (n + 1 - 1) with n by lia. exact Hfit.
Qed.

Lemma Exponential_doubles_in_test :
  fst (Delay (Exponential unit (100 * Millisecond)) (4 + 1) tt) =
  2 * fst (Delay (Exponential unit (100 * Millisecond)) 4 tt).
Proof.
  apply (@Exponential_doubles unit (100 * Millisecond) 4 tt).
  - lia.
  - vm_compute. split; discriminate.
Defined.

(** X5: with a base that is not negative, the delay never decreases
    from an attempt to a later one, up to the saturated value, as long
    as the product fits 64 bits at the later attempt when that is
    below the guard. *)
Theorem Exponential_monotone (W : Type) (base : Duration) (n m : Z) (w : W) :
  0 <= base <= MaxInt64 -> n <= m ->
  (m <= 62 -> base * 2 ^ (m - 1) <= MaxInt64) ->
  fst (Delay (Exponential W base) n w) <= fst (Delay (Exponential W base) m w).
Proof.
  intros Hb Hnm Hfit.
  destruct (Z.ltb_spec 62 m) as [Hbig | Hsmall].
  - rewrite (Exponential_saturated base w Hbig). cbn [fst].
    destruct (Z.leb_spec n 0) as [Hn0 | Hn1].
    + rewrite Exponential_nonpositive by assumption. cbn [fst]. lia.
    + destruct (Z.ltb_spec 62 n) as [Hn62 | Hn62].
      * rewrite Exponential_saturated by assumption. cbn [fst]. lia.
      * rewrite Exponential_wrapped by lia. cbn [fst].
        pose proof (wrap64_range (base * 2 ^ (n - 1))) as Hr.
        unfold in_int64 in Hr. lia.
  - specialize (Hfit Hsmall).
    destruct (Z.leb_spec m 0) as [Hm0 | Hm1].
    + rewrite !Exponential_nonpositive by lia. cbn [fst]. lia.
    + assert (0 < 2 ^ (m - 1)) by (apply Z.pow_pos_nonneg; lia).
      rewrite (@Exponential_exact W base m w) by
        (first [lia | unfold in_int64, MinInt64; split; [nia | assumption]]).
      cbn [fst].
      destruct (Z.leb_spec n 0) as [Hn0 | Hn1].
      * rewrite Exponential_nonpositive by assumption. cbn [fst]. nia.
      * assert (0 < 2 ^ (n - 1)) by (apply Z.pow_pos_nonneg; lia).
        assert (2 ^ (n - 1) <= 2 ^ (m - 1)) by (apply Z.pow_le_mono_r; lia).
        rewrite (@Exponential_exact W base n w) by
          (first [lia | unfold in_int64, MinInt64; split; nia]).
        cbn [fst]. nia.
Qed.

Lemma Exponential_monotone_in_test :
  fst (Delay (Exponential unit (100 * Millisecond)) 3 tt)
    <= fst (Delay (Exponential unit (100 * Millisecond)) 100 tt).
Proof.
  apply (@Exponential_monotone unit (100 * Millisecond) 3 100 tt).
  - vm_compute. split; discriminate.
  - lia.
  - lia.
Defined.

(** ** Marked and joined errors *)

(** X6: [Stop] leaves [nil] alone; of an error it makes a value on
    which [errors.As] finds the marker, whose [Unwrap] is the error
    again, and which still matches whatever the error matched. *)
Theorem Stop_keeps_the_cause :
  Stop None = None /\
  forall e : errval,
    errors_As_stopError (Stop (Some e)) = Some (stopError e) /\
    Unwrap (stopError e) = Some e /\
    (forall t, errors_Is (Some e) t = true ->
               errors_Is (Stop (Some e)) t = true).
Proof.
  split; [reflexivity |]. intros e. repeat split.
  intros [t |] H; [| discriminate].
  cbn [Stop errors_Is] in *. cbn [is_chain]. rewrite H. apply orb_true_r.
Qed.

(** X7: [joinErrors] of nothing is [nil], of one error that error
    itself, and otherwise a value that matches a target that is not
    itself a joined error exactly when one of the errors matches it. *)
Theorem joinErrors_matches :
  joinErrors [] = None /\
  (forall e, joinErrors [e] = Some e) /\
  (forall es t,
     es <> [] -> (forall fs, t <> joinError fs) ->
     errors_Is (joinErrors es) (Some t) = existsb (fun e => is_chain e t) es).
Proof.
  split; [reflexivity |]. split; [reflexivity |].
  intros es t Hne Ht. destruct es as [| x [| y l]]; [contradiction | |].
  - cbn [joinErrors errors_Is existsb]. now rewrite orb_false_r.
  - cbn [joinErrors errors_Join errors_Is]. rewrite is_chain_join.
    destruct t; try reflexivity. now elim (Ht errs).
Qed.

Lemma joinErrors_matches_in_test :
  errors_Is (joinErrors [err1; err2]) (Some err2) =
  existsb (fun e => is_chain e err2) [err1; err2].
Proof.
  apply (proj2 (proj2 joinErrors_matches) [err1; err2] err2).
  - discriminate.
  - discriminate.
Defined.

(** ** Options *)

(** X8: [Not] answers the opposite of the predicate and acts on the
    world as the predicate does; applied twice it is the predicate. *)
Theorem Not_involutive (W : Type) (cond : Condition W) (err : error) (w : W) :
  fst (Not cond err w) = negb (fst (cond err w)) /\
  snd (Not cond err w) = snd (cond err w) /\
  Not (Not cond) err w = cond err w.
Proof.
  unfold Not, st_bind, st_ret.
  destruct (cond err w) as [b w1]. cbn [fst snd].
  repeat split. now rewrite negb_involutive.
Qed.

(** X9: a policy keeps the four fields of the policy only: the
    call-level options given to [New] (predicate, hooks, error mode)
    are dropped. *)
Theorem New_drops_call_options (W : Type) (realClock : Clock W)
  (opts : list (Option W)) :
  (forall cond, New realClock (opts ++ [If cond]) = New realClock opts) /\
  (forall hook, New realClock (opts ++ [OnRetry hook]) = New realClock opts) /\
  (forall hook, New realClock (opts ++ [OnSuccess hook]) = New realClock opts) /\
  (forall hook, New realClock (opts ++ [OnExhausted hook]) = New realClock opts) /\
  New realClock (opts ++ [@WithAllErrors W]) = New realClock opts.
Proof.
  unfold New. repeat split; intros; rewrite fold_left_app; reflexivity.
Qed.

Lemma policy_options_agree (W : Type) (popts : list (Option W)) :
  Forall (@policy_level W) popts ->
  forall c1 c2 : config W,
    maxAttempts c1 = maxAttempts c2 -> maxDuration c1 = maxDuration c2 ->
    backoff c1 = backoff c2 -> clock c1 = clock c2 ->
    let d1 := fold_left (fun c opt => opt c) popts c1 in
    let d2 := fold_left (fun c opt => opt c) popts c2 in
    maxAttempts d1 = maxAttempts d2 /\ maxDuration d1 = maxDuration d2 /\
    backoff d1 = backoff d2 /\ clock d1 = clock d2 /\
    condition d1 = condition c1 /\ onRetry d1 = onRetry c1 /\
    onSuccess d1 = onSuccess c1 /\ onExhausted d1 = onExhausted c1 /\
    allErrors d1 = allErrors c1.
Proof.
  induction 1 as [| o l Ho _ IH]; intros c1 c2 H1 H2 H3 H4.
  - cbn. repeat split; assumption.
  - cbn [fold_left].
    destruct Ho; cbv zeta in IH |- *;
      match goal with
      | |- context [fold_left _ l (?o c1)] =>
          specialize (IH (o c1) (o c2)); cbn in IH;
          apply IH; assumption || reflexivity
      end.
Qed.

(** X10: the package-level [Do] is the [Do] of a policy: a policy
    built by [New] from policy-level options, called with further
    options, runs as [retry.Do] with the two lists of options, one
    after the other. *)
Theorem Do_as_policy (W : Type) (realClock : Clock W)
  (popts opts : list (Option W)) (fn : Func W) (w : W) :
  Forall (@policy_level W) popts ->
  Policy_Do (New realClock popts) fn opts w = Do realClock fn (popts ++ opts) w.
Proof.
  intros Hp. unfold Policy_Do, Do, New. rewrite fold_left_app.
  cbn [p_maxAttempts p_maxDuration p_backoff p_clock].
  pose proof (@policy_options_agree W popts Hp
                {| maxAttempts := DefaultMaxAttempts; maxDuration := 0;
                   backoff := defaultBackoff W; clock := defaultClock realClock;
                   condition := Some (@defaultCondition W); onRetry := None;
                   onSuccess := None; onExhausted := None;
                   allErrors := false |}
                {| maxAttempts := DefaultMaxAttempts; maxDuration := 0;
                   backoff := Exponential W (100 * Millisecond);
                   clock := realClock; condition := None; onRetry := None;
                   onSuccess := None; onExhausted := None;
                   allErrors := false |}
                eq_refl eq_refl eq_refl eq_refl) as Hag.
  cbv zeta in Hag.
  cbn [condition onRetry onSuccess onExhausted allErrors] in Hag.
  set (cD := fold_left (fun c opt => opt c) popts
               {| maxAttempts := DefaultMaxAttempts; maxDuration := 0;
                  backoff := defaultBackoff W; clock := defaultClock realClock;
                  condition := Some (@defaultCondition W); onRetry := None;
                  onSuccess := None; onExhausted := None;
                  allErrors := false |}) in *.
  set (cN := fold_left (fun c opt => opt c) popts
               {| maxAttempts := DefaultMaxAttempts; maxDuration := 0;
                  backoff := Exponential W (100 * Millisecond);
                  clock := realClock; condition := None; onRetry := None;
                  onSuccess := None; onExhausted := None;
                  allErrors := false |}) in *.
  destruct Hag as (H1 & H2 & H3 & H4 & H5 & H6 & H7 & H8 & H9).
  rewrite <- H1, <- H2, <- H3, <- H4.
  f_equal. f_equal.
  match goal with |- _ = ?d => change d with cD end.
  clearbody cD. clear - H5 H6 H7 H8 H9.
  destruct cD.
  cbn [maxAttempts maxDuration backoff clock condition onRetry onSuccess
       onExhausted allErrors] in *.
  now subst.
Qed.

Lemma Do_as_policy_in_test :
  Policy_Do (New backgroundClock [WithMaxAttempts 2; WithClock fakeClock])
    always_errTest [] newBench =
  Do backgroundClock always_errTest
    ([WithMaxAttempts 2; WithClock fakeClock] ++ []) newBench.
Proof.
  apply (@Do_as_policy bench backgroundClock
           [WithMaxAttempts 2; WithClock fakeClock] [] always_errTest newBench).
  repeat constructor.
Defined.

(** ** More on one turn of the loop *)

Lemma Time_Sub_le (t u : Time) : 0 < Time_Sub t u -> Time_Sub t u <= t - u.
Proof.
  unfold Time_Sub, MaxInt64, MinInt64.
  destruct (Z.ltb_spec (2 ^ 63 - 1) (t - u)); [lia |].
  destruct (Z.ltb_spec (t - u) (- 2 ^ 63)); lia.
Qed.

Section MoreTurnFacts.
Variable W : Type.
Variable fn : Func W.
Variable cfg : config W.
Variable maxA : Z.
Variable deadline : Time.

Lemma body_success_calls attempt lastErr errs w t w' tr :
  body fn cfg maxA deadline attempt lastErr errs w = (t, w', tr) ->
  success_calls tr =
  match t, onSuccess cfg with
  | Return _ Success, Some _ => [attempt]
  | _, _ => []
  end.
Proof.
  intros H. body_cases H.
  all: try reflexivity; destruct (onSuccess cfg); reflexivity.
Qed.

Lemma body_retry_calls attempt lastErr errs w t w' tr :
  body fn cfg maxA deadline attempt lastErr errs w = (t, w', tr) ->
  retry_calls tr =
  match onRetry cfg with
  | Some _ => map (fun d => (attempt, fst (fn w), d)) (sleeps tr)
  | None => []
  end.
Proof.
  intros H. body_cases H.
  all: try reflexivity; destruct (onRetry cfg); reflexivity.
Qed.

Lemma body_sleep_count attempt lastErr errs w t w' tr :
  body fn cfg maxA deadline attempt lastErr errs w = (t, w', tr) ->
  List.length (sleeps tr) =
  match t with
  | Continue _ _ | Return _ Cancelled => 1%nat
  | _ => 0%nat
  end /\
  match t with
  | Continue _ _ => sleep_results tr = [None]
  | Return _ Cancelled => exists e, sleep_results tr = [Some e]
  | _ => sleep_results tr = []
  end.
Proof.
  intros H. body_cases H.
  all: split; try reflexivity; eexists; reflexivity.
Qed.

Lemma body_no_clock attempt lastErr errs w t w' tr :
  body fn cfg maxA deadline attempt lastErr errs w = (t, w', tr) ->
  maxDuration cfg <= 0 ->
  now_calls tr = [] /\
  forall r how, t = Return r (Exhausted how) -> how = AttemptBudget.
Proof.
  intros H Hd. body_cases H; to_Z_facts; try lia.
  all: split; [reflexivity |].
  all: intros res how Hr; try discriminate; injection Hr as _ <-; reflexivity.
Qed.

Lemma body_sleep_contexts attempt lastErr errs w t w' tr :
  body fn cfg maxA deadline attempt lastErr errs w = (t, w', tr) ->
  forall now0 d0,
    Forall (fun c => snd c <= snd (fst c) /\
                     (maxDuration cfg <= 0 -> snd c = snd (fst c)) /\
                     (0 < maxDuration cfg ->
                      0 < snd c /\ fst (fst c) + snd c <= deadline))
           (sleep_contexts now0 d0 tr).
Proof.
  intros H now0 d0. body_cases H; to_Z_facts.
  all: cbn [sleep_contexts app]; try (constructor; fail).
  all: constructor; [| constructor]; cbn [fst snd].
  all: repeat match goal with
         | H : (_ && _) = false |- _ => apply andb_false_elim in H; destruct H
         end; to_Z_facts; try lia.
  all: repeat split; intros; try lia.
  all: try match goal with
         | |- context [Time_Sub ?a ?b] =>
             pose proof (@Time_Sub_le a b); lia
         | H : context [Time_Sub ?a ?b] |- _ =>
             pose proof (@Time_Sub_le a b); lia
         end.
Qed.

(** With a retry hook, the call just before a sleep is the call of
    the hook, for the attempt and its error and for the duration of
    the sleep. *)
Lemma body_before_sleeps attempt lastErr errs w t w' tr hook :
  body fn cfg maxA deadline attempt lastErr errs w = (t, w', tr) ->
  onRetry cfg = Some hook ->
  forall prev,
    before_sleeps prev tr =
    map (fun d => (Some (CallOnRetry attempt (fst (fn w)) d), d)) (sleeps tr).
Proof.
  intros H Hhook prev. body_cases H; try congruence.
  all: reflexivity.
Qed.

Lemma body_delay_calls attempt lastErr errs w t w' tr :
  body fn cfg maxA deadline attempt lastErr errs w = (t, w', tr) ->
  Forall (fun c => fst c = attempt) (delay_calls tr) /\
  (List.length (sleeps tr) <= List.length (delay_calls tr) <= 1)%nat /\
  (maxDuration cfg <= 0 -> sleeps tr = map snd (delay_calls tr)) /\
  (maxA <= attempt -> delay_calls tr = []).
Proof.
  intros H. body_cases H; to_Z_facts.
  all: cbn; repeat split; intros; try lia; try reflexivity;
    repeat constructor.
Qed.

Lemma body_condition_calls attempt lastErr errs w t w' tr :
  body fn cfg maxA deadline attempt lastErr errs w = (t, w', tr) ->
  (condition cfg = None -> condition_calls tr = []) /\
  (maxA <= attempt -> condition_calls tr = []) /\
  match t with
  | Return _ ConditionRejected => condition_calls tr = [(fst (fn w), false)]
  | _ => condition_calls tr = [] \/ condition_calls tr = [(fst (fn w), true)]
  end.
Proof.
  intros H. body_cases H; to_Z_facts.
  all: cbn [fst snd]; repeat split; intros; try discriminate; try lia;
    try reflexivity.
  all: try (left; reflexivity).
  all: try match goal with
         | H : negb ?b = _ |- _ => destruct b; try discriminate
         end.
  all: try reflexivity; try (right; reflexivity).
Qed.

End MoreTurnFacts.

(** ** More on runs *)

Lemma now_calls_app (t1 t2 : list event) :
  now_calls (t1 ++ t2) = now_calls t1 ++ now_calls t2.
Proof. apply flat_map_app. Qed.

Lemma delay_calls_app (t1 t2 : list event) :
  delay_calls (t1 ++ t2) = delay_calls t1 ++ delay_calls t2.
Proof. apply flat_map_app. Qed.

Lemma retry_calls_app (t1 t2 : list event) :
  retry_calls (t1 ++ t2) = retry_calls t1 ++ retry_calls t2.
Proof. apply flat_map_app. Qed.

Lemma success_calls_app (t1 t2 : list event) :
  success_calls (t1 ++ t2) = success_calls t1 ++ success_calls t2.
Proof. apply flat_map_app. Qed.

Lemma sleep_results_app (t1 t2 : list event) :
  sleep_results (t1 ++ t2) = sleep_results t1 ++ sleep_results t2.
Proof. apply flat_map_app. Qed.

Lemma sleep_contexts_app (t1 t2 : list event) (now : Time) (delay : Duration) :
  sleep_contexts now delay (t1 ++ t2) =
  sleep_contexts now delay t1 ++
  sleep_contexts (fst (last_context now delay t1))
                 (snd (last_context now delay t1)) t2.
Proof.
  revert now delay. induction t1 as [| ev t1 IH]; intros now delay.
  - reflexivity.
  - destruct ev; cbn [app sleep_contexts last_context]; rewrite IH;
      reflexivity.
Qed.

Lemma before_sleeps_app (t1 t2 : list event) (prev : option event) :
  exists prev',
    before_sleeps prev (t1 ++ t2) =
    before_sleeps prev t1 ++ before_sleeps prev' t2.
Proof.
  revert prev. induction t1 as [| ev t1 IH]; intros prev.
  - now exists prev.
  - destruct (IH (Some ev)) as [prev' H]. exists prev'.
    destruct ev; cbn [app before_sleeps]; rewrite H; reflexivity.
Qed.

Lemma before_sleeps_sleeps (tr : list event) (prev : option event) :
  map snd (before_sleeps prev tr) = sleeps tr.
Proof.
  revert prev. induction tr as [| ev tr IH]; intros prev.
  - reflexivity.
  - destruct ev; cbn [before_sleeps]; try apply IH.
    cbn [map snd]. rewrite IH. reflexivity.
Qed.

Lemma joinErrors_None (es : list errval) : joinErrors es = None -> es = [].
Proof. destruct es as [| x [| y l]]; [reflexivity | discriminate ..]. Qed.

Lemma recorded_not_nil (W : Type) (cfg : config W) (l : error)
  (es : list errval) (e : errval) :
  recorded cfg (record_lastErr cfg l e) (record_errs cfg es e) <> None.
Proof.
  unfold recorded, record_lastErr, record_errs.
  destruct (allErrors cfg); [| discriminate].
  intros H. apply joinErrors_None in H. now destruct es.
Qed.

Section MoreLoopFacts.
Variable W : Type.
Variable fn : Func W.
Variable cfg : config W.
Variable maxA : Z.
Variable deadline : Time.

(** Every call of the operation but the last returned an error, and
    the run hands back [nil] exactly when the last call returned
    [nil]. *)
Lemma run_results a l es w r x w' tr :
  run fn cfg maxA deadline a l es w (r, x) w' tr ->
  exists fs lastr,
    map snd (fn_calls tr) = map Some fs ++ [lastr] /\
    (lastr = None <-> x = Success) /\ (r = None <-> x = Success).
Proof.
  intros H. remember (r, x) as res eqn:Hres. revert r x Hres.
  induction H as [a l es w r0 x0 w1 t1 Hb
                 | a l es w l' es' w1 t1 res w2 t2 Hb Hrun IH];
    intros r x Hres.
  - injection Hres as -> ->. pose proof Hb as Hc.
    apply body_fn_calls in Hc. destruct Hc as (tr' & -> & Hnil).
    rewrite fn_calls_cons, Hnil. exists [], (fst (fn w)). cbn [map app snd].
    split; [reflexivity |]. apply body_return in Hb.
    destruct x.
    + destruct Hb as [-> ->]. tauto.
    + destruct Hb as (e & s & He & Hs & -> & _). rewrite He. cbn [fst].
      apply as_stopError_sound in Hs. destruct Hs as [[c ->] _].
      cbn [Unwrap]. split; split; discriminate.
    + destruct Hb as (e & -> & _ & -> & _).
      split; split; try discriminate. intros H. now apply recorded_not_nil in H.
    + destruct Hb as (e & -> & _ & -> & _).
      split; split; try discriminate. intros H. now apply recorded_not_nil in H.
    + destruct Hb as (e & -> & _ & -> & _).
      split; split; try discriminate. intros H. now apply recorded_not_nil in H.
  - subst res. destruct (IH r x eq_refl) as (fs & lastr & Hfs & Hl & Hr).
    pose proof Hb as Hc.
    apply body_fn_calls in Hc. destruct Hc as (tr' & -> & Hnil).
    apply body_continue in Hb. destruct Hb as (_ & e & He & _).
    exists (e :: fs), lastr.
    rewrite fn_calls_app, fn_calls_cons, Hnil, He. cbn [app map snd].
    rewrite Hfs. repeat split; tauto.
Qed.

Lemma run_success_calls a l es w r x w' tr :
  run fn cfg maxA deadline a l es w (r, x) w' tr ->
  success_calls tr =
  match x, onSuccess cfg with
  | Success, Some _ => [last (map fst (fn_calls tr)) 0]
  | _, _ => []
  end.
Proof.
  intros H. remember (r, x) as res eqn:Hres. revert r x Hres.
  induction H as [a l es w r0 x0 w1 t1 Hb
                 | a l es w l' es' w1 t1 res w2 t2 Hb Hrun IH];
    intros r x Hres.
  - injection Hres as -> ->.
    rewrite (body_success_calls _ _ _ _ _ _ _ _ Hb).
    apply body_fn_calls in Hb. destruct Hb as (tr' & -> & Hnil).
    rewrite fn_calls_cons, Hnil. reflexivity.
  - subst res.
    rewrite success_calls_app, (body_success_calls _ _ _ _ _ _ _ _ Hb).
    cbn [app]. rewrite (IH r x eq_refl).
    apply run_fn_calls in Hrun. destruct Hrun as (n & Hn & _).
    apply body_fn_calls in Hb. destruct Hb as (tr' & -> & Hnil).
    rewrite fn_calls_app, fn_calls_cons, Hnil. cbn [app map fst].
    destruct (map fst (fn_calls t2)) as [| c cs]; [discriminate | reflexivity].
Qed.

Lemma run_retry_calls a l es w res w' tr :
  run fn cfg maxA deadline a l es w res w' tr ->
  retry_calls tr =
  match onRetry cfg with
  | Some _ =>
      map (fun p => (fst (fst p), snd (fst p), snd p))
          (combine (fn_calls tr) (sleeps tr))
  | None => []
  end.
Proof.
  induction 1 as [a l es w r x w1 t1 Hb
                 | a l es w l' es' w1 t1 res w2 t2 Hb _ IH].
  - rewrite (body_retry_calls _ _ _ _ _ _ _ _ Hb).
    pose proof (body_sleeps _ _ _ _ _ _ _ _ Hb) as (_ & Hlen & _).
    apply body_fn_calls in Hb. destruct Hb as (tr' & -> & Hnil).
    rewrite fn_calls_cons, Hnil.
    destruct (onRetry cfg); [| reflexivity].
    destruct (sleeps (CallFn a (fst (fn w)) :: tr')) as [| d [| d' ss]];
      cbn in Hlen |- *; try reflexivity; lia.
  - rewrite retry_calls_app, (body_retry_calls _ _ _ _ _ _ _ _ Hb), IH.
    pose proof (body_sleeps _ _ _ _ _ _ _ _ Hb) as (_ & _ & Hone).
    specialize (Hone _ _ eq_refl).
    apply body_fn_calls in Hb. destruct Hb as (tr' & -> & Hnil).
    rewrite fn_calls_app, sleeps_app, fn_calls_cons, Hnil.
    destruct (onRetry cfg); [| reflexivity].
    destruct (sleeps (CallFn a (fst (fn w)) :: tr')) as [| d [| d' ss]];
      try discriminate.
    reflexivity.
Qed.

Lemma run_before_sleeps a l es w res w' tr hook :
  run fn cfg maxA deadline a l es w res w' tr ->
  onRetry cfg = Some hook ->
  forall prev,
    before_sleeps prev tr =
    map (fun p => (Some (CallOnRetry (fst (fst p)) (snd (fst p)) (snd p)),
                   snd p))
        (combine (fn_calls tr) (sleeps tr)).
Proof.
  intros H Hhook.
  induction H as [a l es w r x w1 t1 Hb
                 | a l es w l' es' w1 t1 res w2 t2 Hb _ IH]; intros prev.
  - erewrite body_before_sleeps; [| exact Hb | exact Hhook].
    pose proof (body_sleeps _ _ _ _ _ _ _ _ Hb) as (_ & Hlen & _).
    apply body_fn_calls in Hb. destruct Hb as (tr' & -> & Hnil).
    rewrite fn_calls_cons, Hnil.
    destruct (sleeps (CallFn a (fst (fn w)) :: tr')) as [| d [| d' ss]];
      cbn in Hlen |- *; try reflexivity; lia.
  - destruct (before_sleeps_app t1 t2 prev) as [prev' ->].
    rewrite IH. erewrite body_before_sleeps; [| exact Hb | exact Hhook].
    pose proof (body_sleeps _ _ _ _ _ _ _ _ Hb) as (_ & _ & Hone).
    specialize (Hone _ _ eq_refl).
    apply body_fn_calls in Hb. destruct Hb as (tr' & -> & Hnil).
    rewrite fn_calls_app, sleeps_app, fn_calls_cons, Hnil.
    destruct (sleeps (CallFn a (fst (fn w)) :: tr')) as [| d [| d' ss]];
      try discriminate.
    reflexivity.
Qed.

(** The loop sleeps once between two calls of the operation, and
    once more only when that sleep is interrupted. *)
Lemma run_sleep_count a l es w r x w' tr :
  run fn cfg maxA deadline a l es w (r, x) w' tr ->
  (List.length (sleeps tr) + match x with Cancelled => 0 | _ => 1 end
   = List.length (fn_calls tr))%nat /\
  exists k,
    match x with
    | Cancelled => exists e, sleep_results tr = repeat None k ++ [Some e]
    | _ => sleep_results tr = repeat None k
    end.
Proof.
  intros H. remember (r, x) as res eqn:Hres. revert r x Hres.
  induction H as [a l es w r0 x0 w1 t1 Hb
                 | a l es w l' es' w1 t1 res w2 t2 Hb Hrun IH];
    intros r x Hres.
  - injection Hres as -> ->.
    pose proof (body_sleep_count _ _ _ _ _ _ _ _ Hb) as [Hlen Hres].
    apply body_fn_calls in Hb. destruct Hb as (tr' & -> & Hnil).
    rewrite fn_calls_cons, Hnil, Hlen.
    split; [destruct x; reflexivity |]. exists 0%nat.
    destruct x; cbn [repeat app]; exact Hres.
  - subst res. destruct (IH r x eq_refl) as (Hcount & k & Hk).
    pose proof (body_sleep_count _ _ _ _ _ _ _ _ Hb) as [Hlen Hres].
    apply body_fn_calls in Hb. destruct Hb as (tr' & -> & Hnil).
    rewrite sleeps_app, fn_calls_app, !length_app, fn_calls_cons, Hnil, Hlen.
    cbn [List.length]. split; [lia |].
    exists (S k). rewrite sleep_results_app, Hres. cbn [repeat app].
    destruct x; try (now rewrite Hk).
    destruct Hk as (e & ->). now exists e.
Qed.

Lemma run_no_clock a l es w r x w' tr :
  run fn cfg maxA deadline a l es w (r, x) w' tr ->
  maxDuration cfg <= 0 ->
  now_calls tr = [] /\ (forall how, x = Exhausted how -> how = AttemptBudget).
Proof.
  intros H Hd. remember (r, x) as res eqn:Hres. revert r x Hres.
  induction H as [a l es w r0 x0 w1 t1 Hb
                 | a l es w l' es' w1 t1 res w2 t2 Hb Hrun IH];
    intros r x Hres.
  - injection Hres as -> ->.
    destruct (body_no_clock _ _ _ _ _ _ _ _ Hb Hd) as [Hn Hx].
    split; [exact Hn |]. intros how ->. now apply (Hx r).
  - destruct (body_no_clock _ _ _ _ _ _ _ _ Hb Hd) as [Hn _].
    destruct (IH r x Hres) as [Hn2 Hx].
    split; [now rewrite now_calls_app, Hn, Hn2 | exact Hx].
Qed.

Lemma run_sleep_contexts a l es w res w' tr :
  run fn cfg maxA deadline a l es w res w' tr ->
  forall now0 d0,
    Forall (fun c => snd c <= snd (fst c) /\
                     (maxDuration cfg <= 0 -> snd c = snd (fst c)) /\
                     (0 < maxDuration cfg ->
                      0 < snd c /\ fst (fst c) + snd c <= deadline))
           (sleep_contexts now0 d0 tr).
Proof.
  induction 1 as [a l es w r x w1 t1 Hb
                 | a l es w l' es' w1 t1 res w2 t2 Hb _ IH]; intros now0 d0.
  - exact (body_sleep_contexts _ _ _ _ _ _ _ _ Hb now0 d0).
  - rewrite sleep_contexts_app. apply Forall_app. split.
    + exact (body_sleep_contexts _ _ _ _ _ _ _ _ Hb now0 d0).
    + apply IH.
Qed.

(** The strategy is asked once per attempt that is followed by a
    sleep, with the number of that attempt, and at most once more. *)
Lemma run_delay_calls a l es w res w' tr :
  run fn cfg maxA deadline a l es w res w' tr ->
  map fst (delay_calls tr) = counting a (List.length (delay_calls tr)) /\
  (List.length (sleeps tr) <= List.length (delay_calls tr)
   <= List.length (sleeps tr) + 1)%nat /\
  (maxDuration cfg <= 0 -> sleeps tr = map snd (delay_calls tr)).
Proof.
  induction 1 as [a l es w r x w1 t1 Hb
                 | a l es w l' es' w1 t1 res w2 t2 Hb _ IH].
  - destruct (body_delay_calls _ _ _ _ _ _ _ _ Hb) as (Hatt & Hlen & Heq & _).
    destruct (delay_calls t1) as [| [a0 d] [| c cs]]; cbn in Hlen |- *.
    + repeat split; try lia. exact Heq.
    + apply Forall_inv in Hatt. cbn in Hatt. subst a0.
      repeat split; try lia. exact Heq.
    + lia.
  - destruct (body_delay_calls _ _ _ _ _ _ _ _ Hb) as (Hatt & Hlen & Heq & _).
    pose proof (body_sleeps _ _ _ _ _ _ _ _ Hb) as (_ & _ & Hone).
    specialize (Hone _ _ eq_refl). rewrite Hone in Hlen.
    destruct IH as (IH1 & IH2 & IH3).
    rewrite delay_calls_app, sleeps_app, !length_app, map_app, Hone.
    destruct (delay_calls t1) as [| [a0 d] [| c cs]]; cbn in Hlen; try lia.
    apply Forall_inv in Hatt. cbn in Hatt. subst a0.
    cbn [map fst app List.length counting]. rewrite IH1.
    repeat split; try lia.
    intros Hd. rewrite (Heq Hd), (IH3 Hd). reflexivity.
Qed.

(** The predicate has let every error be retried but, when the run
    leaves on its answer, the last one. *)
Lemma run_condition_calls a l es w r x w' tr :
  run fn cfg maxA deadline a l es w (r, x) w' tr ->
  (condition cfg = None -> condition_calls tr = []) /\
  incl (map fst (condition_calls tr)) (map snd (fn_calls tr)) /\
  exists k,
    map snd (condition_calls tr) =
    repeat true k ++ match x with ConditionRejected => [false] | _ => [] end.
Proof.
  intros H. remember (r, x) as res eqn:Hres. revert r x Hres.
  induction H as [a l es w r0 x0 w1 t1 Hb
                 | a l es w l' es' w1 t1 res w2 t2 Hb Hrun IH];
    intros r x Hres.
  - injection Hres as -> ->.
    destruct (body_condition_calls _ _ _ _ _ _ _ _ Hb) as (Hnone & _ & Hc).
    apply body_fn_calls in Hb. destruct Hb as (tr' & Htr & Hnil).
    split; [exact Hnone |].
    assert (Hcalls : map snd (fn_calls t1) = [fst (fn w)])
      by now rewrite Htr, fn_calls_cons, Hnil.
    rewrite Hcalls.
    destruct x; try (destruct Hc as [-> | ->];
      (split; [cbn; intros ? []; now left |]);
      [now exists 0%nat | now exists 1%nat]).
    rewrite Hc. split; [cbn; intros ? []; now left |]. now exists 0%nat.
  - subst res. destruct (IH r x eq_refl) as (IHnone & IHincl & k & Hk).
    destruct (body_condition_calls _ _ _ _ _ _ _ _ Hb) as (Hnone & _ & Hc).
    apply body_fn_calls in Hb. destruct Hb as (tr' & Htr & Hnil).
    rewrite condition_calls_app, fn_calls_app, !map_app.
    assert (Hcalls : map snd (fn_calls t1) = [fst (fn w)])
      by now rewrite Htr, fn_calls_cons, Hnil.
    rewrite Hcalls.
    split; [intros Hn; now rewrite (Hnone Hn), (IHnone Hn) |].
    split.
    + apply incl_app; [| now apply incl_appr].
      apply incl_appl. destruct Hc as [-> | ->]; cbn; intros ? []; now left.
    + destruct Hc as [-> | ->]; cbn [map snd app].
      * now exists k.
      * exists (S k). now rewrite Hk.
Qed.

Lemma run_condition_count a l es w res w' tr :
  run fn cfg maxA deadline a l es w res w' tr ->
  (List.length (condition_calls tr) <= List.length (fn_calls tr))%nat.
Proof.
  induction 1 as [a l es w r x w1 t1 Hb
                 | a l es w l' es' w1 t1 res w2 t2 Hb _ IH].
  - destruct (body_condition_calls _ _ _ _ _ _ _ _ Hb) as (_ & _ & Hc).
    apply body_fn_calls in Hb. destruct Hb as (tr' & -> & Hnil).
    rewrite fn_calls_cons, Hnil.
    destruct x; try (destruct Hc as [-> | ->]; cbn; lia).
    rewrite Hc. cbn. lia.
  - destruct (body_condition_calls _ _ _ _ _ _ _ _ Hb) as (_ & _ & Hc).
    apply body_fn_calls in Hb. destruct Hb as (tr' & -> & Hnil).
    rewrite condition_calls_app, fn_calls_app, !length_app, fn_calls_cons, Hnil.
    destruct Hc as [-> | ->]; cbn; lia.
Qed.

End MoreLoopFacts.

Section MoreRunFacts.
Variable W : Type.
Variable fn : Func W.
Variable cfg : config W.
Variable maxA : Z.
Variable deadline : Time.

(** The strategy is not asked at an attempt that reaches the budget. *)
Lemma run_delay_budget a l es w res w' tr :
  run fn cfg maxA deadline a l es w res w' tr ->
  Z.of_nat (List.length (delay_calls tr)) <= Z.max 0 (maxA - a).
Proof.
  induction 1 as [a l es w r x w1 t1 Hb
                 | a l es w l' es' w1 t1 res w2 t2 Hb _ IH].
  - destruct (body_delay_calls _ _ _ _ _ _ _ _ Hb) as (_ & Hlen & _ & Hmax).
    destruct (Z.le_gt_cases maxA a) as [Hle | Hlt].
    + rewrite (Hmax Hle). cbn. lia.
    + lia.
  - destruct (body_delay_calls _ _ _ _ _ _ _ _ Hb) as (_ & Hlen & _).
    apply body_continue in Hb. destruct Hb as [Hlt _].
    rewrite delay_calls_app, length_app. lia.
Qed.

(** A run from an attempt that reaches the budget is a single turn. *)
Lemma run_at_budget a l es w r x w' tr :
  run fn cfg maxA deadline a l es w (r, x) w' tr ->
  maxA <= a ->
  body fn cfg maxA deadline a l es w = (Return r x, w', tr).
Proof.
  intros H Hle. inversion H as [? ? ? ? ? ? ? ? Hb | ? ? ? ? ? ? ? ? ? ? ? Hb _];
    subst.
  - exact Hb.
  - apply body_continue in Hb. lia.
Qed.

End MoreRunFacts.

Lemma sleep_contexts_sleeps (tr : list event) (now : Time) (delay : Duration) :
  map snd (sleep_contexts now delay tr) = sleeps tr.
Proof.
  revert now delay. induction tr as [| ev tr IH]; intros now delay.
  - reflexivity.
  - destruct ev; cbn [sleep_contexts]; try apply IH.
    cbn [map snd]. rewrite IH. reflexivity.
Qed.

(** ** More on execute *)

Section MoreExecuteFacts.
Variable W : Type.
Variable fn : Func W.
Variable cfg : config W.

(** Before the first attempt [execute] calls nothing but, under a
    duration budget, the clock, from which it takes the deadline. *)
Lemma start_deadline_calls (w : W) (deadline : Time) (w0 : W)
  (t0 : list event) :
  start_deadline cfg w = (deadline, w0, t0) ->
  delay_calls t0 = [] /\ retry_calls t0 = [] /\ success_calls t0 = [] /\
  sleep_results t0 = [] /\
  (maxDuration cfg <= 0 -> now_calls t0 = [] /\ w0 = w) /\
  (0 < maxDuration cfg ->
   deadline = Time_Add (fst (Now (clock cfg) w)) (maxDuration cfg)) /\
  (forall n d, exists n',
      forall tr, sleep_contexts n d (t0 ++ tr) = sleep_contexts n' d tr).
Proof.
  unfold start_deadline, bind, call, ret. intros H.
  destruct (Z.ltb_spec 0 (maxDuration cfg)) as [Hd | Hd].
  - destruct (Now (clock cfg) w) as [now w1]. injection H as <- <- <-.
    repeat split; try (intros; lia).
    intros n d. exists now. reflexivity.
  - injection H as <- <- <-.
    repeat split; try (intros; lia).
    intros n d. exists n. reflexivity.
Qed.

(** With a budget of one attempt [execute] makes one turn. *)
Lemma execute_single (w : W) :
  effective_maxAttempts cfg = 1 ->
  exists r x w' tr w0,
    execute fn cfg w = (Some (r, x), w', tr) /\
    (maxDuration cfg <= 0 -> w0 = w) /\
    fn_calls tr = [(1, fst (fn w0))] /\
    r = match fst (fn w0) with
        | None => None
        | Some e => match as_stopError e with
                    | Some s => Unwrap s
                    | None => Some e
                    end
        end /\
    sleeps tr = [] /\ delay_calls tr = [] /\ condition_calls tr = [] /\
    retry_calls tr = [].
Proof.
  intros Hone.
  destruct (start_deadline cfg w) as [[deadline w0] t0] eqn:Hs.
  destruct (execute_run fn cfg w Hs) as ([r x] & w' & tr & Hex & Hrun).
  pose proof Hs as Hq. apply start_deadline_quiet in Hq.
  destruct Hq as (Hq1 & _ & _ & Hq4 & Hq5).
  apply start_deadline_calls in Hs.
  destruct Hs as (Hs1 & Hs2 & _ & _ & Hs5 & _).
  rewrite Hone in Hrun. apply run_at_budget in Hrun; [| lia].
  exists r, x, w', (t0 ++ tr), w0. split; [exact Hex |].
  split; [intros Hd; now apply Hs5 |].
  rewrite fn_calls_app, sleeps_app, delay_calls_app, condition_calls_app,
    retry_calls_app, Hq1, Hq4, Hq5, Hs1, Hs2. cbn [app].
  destruct (body_delay_calls _ _ _ _ _ _ _ _ Hrun) as (_ & _ & _ & Hdel).
  destruct (body_condition_calls _ _ _ _ _ _ _ _ Hrun) as (_ & Hcond & _).
  pose proof (body_retry_calls _ _ _ _ _ _ _ _ Hrun) as Hretry.
  destruct (body_sleep_count _ _ _ _ _ _ _ _ Hrun) as [Hlen _].
  pose proof (body_fn_calls _ _ _ _ _ _ _ _ Hrun) as (tr' & Htr & Hnil).
  pose proof Hrun as Hret. apply body_return in Hret.
  assert (Hsl : sleeps tr = []).
  { destruct x; try (now apply length_zero_iff_nil).
    destruct Hret as (e & _ & _ & _ & Hiff).
    assert (Hx : Cancelled = Exhausted AttemptBudget) by (apply Hiff; lia).
    discriminate. }
  rewrite Hsl in Hretry.
  split; [rewrite Htr, fn_calls_cons, Hnil; reflexivity |].
  split.
  { destruct x.
    - destruct Hret as [-> ->]. reflexivity.
    - destruct Hret as (e & s & He & Hs & -> & _).
      rewrite He. cbn [fst]. now rewrite Hs.
    - destruct Hret as (e & He & Hs & -> & _).
      rewrite He, Hs. unfold recorded, record_lastErr, record_errs.
      destruct (allErrors cfg); reflexivity.
    - destruct Hret as (e & He & Hs & -> & _).
      rewrite He, Hs. unfold recorded, record_lastErr, record_errs.
      destruct (allErrors cfg); reflexivity.
    - destruct Hret as (e & He & Hs & -> & _).
      rewrite He, Hs. unfold recorded, record_lastErr, record_errs.
      destruct (allErrors cfg); reflexivity. }
  split; [exact Hsl |]. split; [apply Hdel; lia |].
  split; [apply Hcond; lia |].
  rewrite Hretry. now destruct (onRetry cfg).
Qed.

End MoreExecuteFacts.

(** ** The result and the calls of a whole run *)

(** X11: [execute] returns [nil] exactly when it leaves on a success,
    which is exactly when the last call of the operation returned
    [nil]; every call before the last returned an error. *)
Theorem nil_only_on_success (W : Type) (fn : Func W) (cfg : config W) (w : W) :
  exists r x w' tr fs lastr,
    execute fn cfg w = (Some (r, x), w', tr) /\
    map snd (fn_calls tr) = map Some fs ++ [lastr] /\
    (r = None <-> lastr = None) /\ (r = None <-> x = Success).
Proof.
  destruct (start_deadline cfg w) as [[deadline w0] t0] eqn:Hs.
  destruct (execute_run fn cfg w Hs) as ([r x] & w' & tr & Hex & Hrun).
  apply start_deadline_quiet in Hs. destruct Hs as (Hq & _).
  destruct (run_results Hrun) as (fs & lastr & Hfs & Hl & Hr).
  exists r, x, w', (t0 ++ tr), fs, lastr. split; [exact Hex |].
  rewrite fn_calls_app, Hq. cbn [app]. split; [exact Hfs |]. tauto.
Qed.

(** X12: the success hook is called only when the run leaves on a
    success, then exactly once and with the number of calls of the
    operation the run has made. *)
Theorem success_hook_once (W : Type) (fn : Func W) (cfg : config W) (w : W) :
  exists r x w' tr,
    execute fn cfg w = (Some (r, x), w', tr) /\
    success_calls tr =
    match x, onSuccess cfg with
    | Success, Some _ => [Z.of_nat (List.length (fn_calls tr))]
    | _, _ => []
    end.
Proof.
  destruct (start_deadline cfg w) as [[deadline w0] t0] eqn:Hs.
  destruct (execute_run fn cfg w Hs) as ([r x] & w' & tr & Hex & Hrun).
  pose proof Hs as Hq. apply start_deadline_quiet in Hq. destruct Hq as (Hq & _).
  apply start_deadline_calls in Hs. destruct Hs as (_ & _ & Hs3 & _).
  exists r, x, w', (t0 ++ tr). split; [exact Hex |].
  rewrite success_calls_app, fn_calls_app, Hq, Hs3. cbn [app].
  rewrite (run_success_calls Hrun).
  destruct (run_fn_calls Hrun) as (n & Hn & _).
  rewrite Hn, counting_last, <- (length_map fst (fn_calls tr)), Hn,
    counting_length.
  replace (1 + Z.of_nat n) with (Z.of_nat (S n)) by lia. reflexivity.
Qed.

(** X13: the calls of the operation carry the attempt numbers 1, 2,
    ... in order, at least one and at most as many as the attempt
    budget, which is the configured maximum when that is positive. A
    run that leaves by the attempt budget has used it up. *)
Theorem attempts_within_budget (W : Type) (fn : Func W) (cfg : config W)
  (w : W) :
  exists r x w' tr n,
    execute fn cfg w = (Some (r, x), w', tr) /\
    map fst (fn_calls tr) = counting 1 (S n) /\
    Z.of_nat (S n) <= effective_maxAttempts cfg /\
    (0 < maxAttempts cfg -> effective_maxAttempts cfg = maxAttempts cfg) /\
    (x = Exhausted AttemptBudget -> Z.of_nat (S n) = effective_maxAttempts cfg).
Proof.
  destruct (start_deadline cfg w) as [[deadline w0] t0] eqn:Hs.
  destruct (execute_run fn cfg w Hs) as ([r x] & w' & tr & Hex & Hrun).
  apply start_deadline_quiet in Hs. destruct Hs as (Hq & _).
  pose proof (effective_maxAttempts_pos cfg) as Hpos.
  destruct (run_fn_calls Hrun) as (n & Hn & Hle).
  exists r, x, w', (t0 ++ tr), n. split; [exact Hex |].
  rewrite fn_calls_app, Hq. cbn [app]. split; [exact Hn |].
  split; [lia |]. split.
  - intros Hmax. unfold effective_maxAttempts.
    destruct (Z.leb_spec (maxAttempts cfg) 0); [lia | reflexivity].
  - intros ->.
    pose proof (proj1 (run_last_attempt Hrun eq_refl) eq_refl) as Hlast.
    rewrite <- (length_map fst), Hn, counting_length in Hlast. lia.
Qed.

(** X14: under a budget of one attempt the operation is called once
    and its result is the result of the run, a terminal error without
    its marker; the run does not sleep and asks neither the retry
    predicate nor the backoff strategy nor the retry hook. *)
Theorem single_attempt_is_quiet (W : Type) (fn : Func W) (cfg : config W)
  (w : W) :
  maxAttempts cfg = 1 ->
  exists r x w' tr w0,
    execute fn cfg w = (Some (r, x), w', tr) /\
    (maxDuration cfg <= 0 -> w0 = w) /\
    fn_calls tr = [(1, fst (fn w0))] /\
    r = match fst (fn w0) with
        | None => None
        | Some e => match as_stopError e with
                    | Some s => Unwrap s
                    | None => Some e
                    end
        end /\
    sleeps tr = [] /\ delay_calls tr = [] /\ condition_calls tr = [] /\
    retry_calls tr = [].
Proof.
  intros Hone. apply execute_single.
  unfold effective_maxAttempts. now rewrite Hone.
Qed.

(** [retry.WithMaxAttempts(1)] on the bench of the tests. *)
Lemma single_attempt_is_quiet_in_test :
  maxAttempts (bench_config [WithMaxAttempts 1]) = 1 /\
  exists r x w' tr w0,
    execute always_errTest (bench_config [WithMaxAttempts 1]) newBench
    = (Some (r, x), w', tr) /\
    (maxDuration (bench_config [WithMaxAttempts 1]) <= 0 -> w0 = newBench) /\
    fn_calls tr = [(1, fst (always_errTest w0))] /\
    r = match fst (always_errTest w0) with
        | None => None
        | Some e => match as_stopError e with
                    | Some s => Unwrap s
                    | None => Some e
                    end
        end /\
    sleeps tr = [] /\ delay_calls tr = [] /\ condition_calls tr = [] /\
    retry_calls tr = [].
Proof.
  split; [reflexivity |].
  apply (@single_attempt_is_quiet bench always_errTest
           (bench_config [WithMaxAttempts 1]) newBench).
  reflexivity.
Defined.

(** X15: the policy [Never] calls the operation once, whatever hooks,
    predicate or error mode the call adds, and does not sleep. *)
Theorem Never_calls_once (W : Type) (realClock : Clock W) (fn : Func W)
  (opts : list (Option W)) (w : W) :
  Forall (@call_level W) opts ->
  exists r x w' tr,
    Policy_Do (Never realClock) fn opts w = (Some (r, x), w', tr) /\
    fn_calls tr = [(1, fst (fn w))] /\
    r = match fst (fn w) with
        | None => None
        | Some e => match as_stopError e with
                    | Some s => Unwrap s
                    | None => Some e
                    end
        end /\
    sleeps tr = [] /\ delay_calls tr = [] /\ condition_calls tr = [].
Proof.
  intros Hopts. unfold Policy_Do, Never, New. cbn [fold_left WithMaxAttempts
    p_maxAttempts p_maxDuration p_backoff p_clock maxAttempts maxDuration
    backoff clock].
  match goal with
  | |- context [fold_left ?f opts ?c] =>
      assert (Hcfg : maxAttempts (fold_left f opts c) = 1 /\
                     maxDuration (fold_left f opts c) = 0);
      [ assert (Hc : maxAttempts c = 1 /\ maxDuration c = 0)
          by (split; reflexivity);
        generalize dependent c | set (cfg := fold_left f opts c) in * ]
  end.
  { induction Hopts as [| opt opts Hopt _ IH]; intros c Hc; [exact Hc |].
    cbn [fold_left]. apply IH. destruct Hopt; exact Hc. }
  destruct Hcfg as [Hmax Hdur].
  destruct (@execute_single W fn cfg w) as (r & x & w' & tr & w0 & Hex & Hw &
    Hcalls & Hr & Hsl & Hdel & Hcond & _).
  { unfold effective_maxAttempts. now rewrite Hmax. }
  rewrite (Hw ltac:(lia)) in *.
  exists r, x, w', tr. repeat split; assumption.
Qed.

(** The policy [Never] with an exhaustion hook, on the bench. *)
Lemma Never_calls_once_in_test :
  Forall (@call_level bench) [OnExhausted (Some quiet_OnExhausted)] /\
  exists r x w' tr,
    Policy_Do (Never fakeClock) always_errTest
      [OnExhausted (Some quiet_OnExhausted)] newBench = (Some (r, x), w', tr) /\
    fn_calls tr = [(1, fst (always_errTest newBench))] /\
    r = match fst (always_errTest newBench) with
        | None => None
        | Some e => match as_stopError e with
                    | Some s => Unwrap s
                    | None => Some e
                    end
        end /\
    sleeps tr = [] /\ delay_calls tr = [] /\ condition_calls tr = [].
Proof.
  assert (H : Forall (@call_level bench) [OnExhausted (Some quiet_OnExhausted)])
    by (repeat constructor).
  split; [exact H |].
  apply (@Never_calls_once bench fakeClock always_errTest
           [OnExhausted (Some quiet_OnExhausted)] newBench H).
Defined.

(** X16: with a retry hook set, the call made just before each sleep
    is a call of the hook, with the number and the error of the
    attempt that failed and the very duration the run then sleeps
    for; the hook is called at no other time, once per sleep. Without
    a hook there is no such call. *)
Theorem retry_hook_before_each_sleep (W : Type) (fn : Func W)
  (cfg : config W) (w : W) :
  exists r x w' tr,
    execute fn cfg w = (Some (r, x), w', tr) /\
    match onRetry cfg with
    | Some _ =>
        before_sleeps None tr =
        map (fun p => (Some (CallOnRetry (fst (fst p)) (snd (fst p)) (snd p)),
                       snd p))
            (combine (fn_calls tr) (sleeps tr)) /\
        retry_calls tr =
        map (fun p => (fst (fst p), snd (fst p), snd p))
            (combine (fn_calls tr) (sleeps tr))
    | None => retry_calls tr = []
    end.
Proof.
  destruct (start_deadline cfg w) as [[deadline w0] t0] eqn:Hs.
  destruct (execute_run fn cfg w Hs) as ([r x] & w' & tr & Hex & Hrun).
  pose proof Hs as Hq. apply start_deadline_quiet in Hq.
  destruct Hq as (Hq1 & _ & _ & _ & Hq5).
  apply start_deadline_calls in Hs. destruct Hs as (_ & Hs2 & _).
  exists r, x, w', (t0 ++ tr). split; [exact Hex |].
  rewrite retry_calls_app, fn_calls_app, sleeps_app, Hq1, Hq5, Hs2.
  cbn [app]. pose proof (run_retry_calls Hrun) as Hcalls.
  destruct (onRetry cfg) as [hook |] eqn:Hhook; [| exact Hcalls].
  split; [| exact Hcalls].
  destruct (before_sleeps_app t0 tr None) as [prev' ->].
  assert (Hnone : before_sleeps None t0 = []).
  { apply (map_eq_nil snd). now rewrite before_sleeps_sleeps. }
  rewrite Hnone. cbn [app]. exact (run_before_sleeps Hrun Hhook prev').
Qed.

(** X17: the run sleeps once after every call of the operation but
    the last, and once after the last exactly when it leaves because
    that sleep was interrupted. No other sleep reports an error. *)
Theorem sleeps_between_calls (W : Type) (fn : Func W) (cfg : config W)
  (w : W) :
  exists r x w' tr k,
    execute fn cfg w = (Some (r, x), w', tr) /\
    (List.length (sleeps tr) + match x with Cancelled => 0 | _ => 1 end
     = List.length (fn_calls tr))%nat /\
    match x with
    | Cancelled => exists e, sleep_results tr = repeat None k ++ [Some e]
    | _ => sleep_results tr = repeat None k
    end.
Proof.
  destruct (start_deadline cfg w) as [[deadline w0] t0] eqn:Hs.
  destruct (execute_run fn cfg w Hs) as ([r x] & w' & tr & Hex & Hrun).
  pose proof Hs as Hq. apply start_deadline_quiet in Hq.
  destruct Hq as (Hq1 & _ & _ & _ & Hq5).
  apply start_deadline_calls in Hs. destruct Hs as (_ & _ & _ & Hs4 & _).
  destruct (run_sleep_count Hrun) as (Hcount & k & Hk).
  exists r, x, w', (t0 ++ tr), k. split; [exact Hex |].
  rewrite sleep_results_app, fn_calls_app, sleeps_app, Hq1, Hq5, Hs4.
  cbn [app]. split; assumption.
Qed.

(** X18: without a duration budget the clock is never read, the run
    never leaves for want of time, and it sleeps for exactly the
    delays the backoff strategy gives for the attempts 1, 2, ... *)
Theorem no_duration_budget (W : Type) (fn : Func W) (cfg : config W) (w : W) :
  maxDuration cfg <= 0 ->
  exists r x w' tr,
    execute fn cfg w = (Some (r, x), w', tr) /\
    now_calls tr = [] /\
    (forall how, x = Exhausted how -> how = AttemptBudget) /\
    sleeps tr = map snd (delay_calls tr) /\
    map fst (delay_calls tr) = counting 1 (List.length (sleeps tr)).
Proof.
  intros Hd.
  destruct (start_deadline cfg w) as [[deadline w0] t0] eqn:Hs.
  destruct (execute_run fn cfg w Hs) as ([r x] & w' & tr & Hex & Hrun).
  pose proof Hs as Hq. apply start_deadline_quiet in Hq.
  destruct Hq as (_ & _ & _ & _ & Hq5).
  apply start_deadline_calls in Hs. destruct Hs as (Hs1 & _ & _ & _ & Hs5 & _).
  destruct (Hs5 Hd) as [Hnow _].
  destruct (run_no_clock Hrun Hd) as [Hn Hx].
  destruct (run_delay_calls Hrun) as (Hatt & _ & Heq).
  exists r, x, w', (t0 ++ tr). split; [exact Hex |].
  rewrite now_calls_app, sleeps_app, delay_calls_app, Hnow, Hq5, Hs1, Hn.
  cbn [app]. repeat split; [exact Hx | now apply Heq |].
  rewrite (Heq Hd), length_map. exact Hatt.
Qed.

(** The default configuration of the tests has no duration budget. *)
Lemma no_duration_budget_in_test :
  maxDuration (bench_config []) <= 0 /\
  exists r x w' tr,
    execute always_errTest (bench_config []) newBench = (Some (r, x), w', tr) /\
    now_calls tr = [] /\
    (forall how, x = Exhausted how -> how = AttemptBudget) /\
    sleeps tr = map snd (delay_calls tr) /\
    map fst (delay_calls tr) = counting 1 (List.length (sleeps tr)).
Proof.
  assert (H : maxDuration (bench_config []) <= 0) by (vm_compute; discriminate).
  split; [exact H |].
  apply (@no_duration_budget bench always_errTest (bench_config []) newBench H).
Defined.

(** X19: under a duration budget every sleep of the run is for a
    positive duration, for no more than the delay the strategy last
    gave, and ends by the deadline as the clock last read it. A
    context [(now, delay, s)] is a sleep for [s] with the last
    reading of the clock and the last delay of the strategy before
    it. *)
Theorem sleeps_end_by_deadline (W : Type) (fn : Func W) (cfg : config W)
  (w : W) :
  0 < maxDuration cfg ->
  exists r x w' tr,
    execute fn cfg w = (Some (r, x), w', tr) /\
    map snd (sleep_contexts 0 0 tr) = sleeps tr /\
    Forall (fun c => 0 < snd c <= snd (fst c) /\
                     fst (fst c) + snd c <=
                     Time_Add (fst (Now (clock cfg) w)) (maxDuration cfg))
           (sleep_contexts 0 0 tr).
Proof.
  intros Hd.
  destruct (start_deadline cfg w) as [[deadline w0] t0] eqn:Hs.
  destruct (execute_run fn cfg w Hs) as ([r x] & w' & tr & Hex & Hrun).
  apply start_deadline_calls in Hs.
  destruct Hs as (_ & _ & _ & _ & _ & Hdl & Hctx).
  destruct (Hctx 0 0) as [n' Hn'].
  exists r, x, w', (t0 ++ tr). split; [exact Hex |].
  split; [apply sleep_contexts_sleeps |].
  rewrite Hn', <- (Hdl Hd).
  pose proof (run_sleep_contexts Hrun n' 0) as Hall.
  eapply Forall_impl; [| exact Hall].
  cbv beta. intros c (Hle & _ & Hpos). specialize (Hpos Hd). lia.
Qed.

(** [retry.WithMaxDuration(time.Second)] on the bench of the tests. *)
Lemma sleeps_end_by_deadline_in_test :
  0 < maxDuration (bench_config [WithMaxDuration Second]) /\
  exists r x w' tr,
    execute always_errTest (bench_config [WithMaxDuration Second]) newBench
    = (Some (r, x), w', tr) /\
    map snd (sleep_contexts 0 0 tr) = sleeps tr /\
    Forall (fun c => 0 < snd c <= snd (fst c) /\
                     fst (fst c) + snd c <=
                     Time_Add (fst (Now (clock (bench_config
                                 [WithMaxDuration Second])) newBench))
                              (maxDuration (bench_config
                                 [WithMaxDuration Second])))
           (sleep_contexts 0 0 tr).
Proof.
  assert (H : 0 < maxDuration (bench_config [WithMaxDuration Second]))
    by (vm_compute; reflexivity).
  split; [exact H |].
  apply (@sleeps_end_by_deadline bench always_errTest
           (bench_config [WithMaxDuration Second]) newBench H).
Defined.

(** X20: the retry predicate is asked only about errors the
    operation returned; it has answered [true] each time but, when
    the run leaves on its answer, the last; it is never asked when
    none is set, and at most once per call of the operation. *)
Theorem predicate_answers (W : Type) (fn : Func W) (cfg : config W) (w : W) :
  exists r x w' tr k,
    execute fn cfg w = (Some (r, x), w', tr) /\
    (condition cfg = None -> condition_calls tr = []) /\
    incl (map fst (condition_calls tr)) (map snd (fn_calls tr)) /\
    map snd (condition_calls tr) =
    repeat true k ++ match x with ConditionRejected => [false] | _ => [] end /\
    (List.length (condition_calls tr) <= List.length (fn_calls tr))%nat.
Proof.
  destruct (start_deadline cfg w) as [[deadline w0] t0] eqn:Hs.
  destruct (execute_run fn cfg w Hs) as ([r x] & w' & tr & Hex & Hrun).
  apply start_deadline_quiet in Hs. destruct Hs as (Hq1 & _ & _ & Hq4 & _).
  destruct (run_condition_calls Hrun) as (Hnone & Hincl & k & Hk).
  pose proof (run_condition_count Hrun) as Hlt.
  exists r, x, w', (t0 ++ tr), k. split; [exact Hex |].
  rewrite condition_calls_app, fn_calls_app, Hq1, Hq4. cbn [app].
  repeat split; assumption.
Qed.

(** X21: the backoff strategy is asked for the attempts 1, 2, ... in
    order, once each, never for the attempt that reaches the budget;
    each answer but possibly the last is followed by a sleep. *)
Theorem strategy_asked_per_attempt (W : Type) (fn : Func W) (cfg : config W)
  (w : W) :
  exists r x w' tr,
    execute fn cfg w = (Some (r, x), w', tr) /\
    map fst (delay_calls tr) = counting 1 (List.length (delay_calls tr)) /\
    (List.length (sleeps tr) <= List.length (delay_calls tr)
     <= List.length (sleeps tr) + 1)%nat /\
    Z.of_nat (List.length (delay_calls tr)) < effective_maxAttempts cfg.
Proof.
  destruct (start_deadline cfg w) as [[deadline w0] t0] eqn:Hs.
  destruct (execute_run fn cfg w Hs) as ([r x] & w' & tr & Hex & Hrun).
  pose proof Hs as Hq. apply start_deadline_quiet in Hq.
  destruct Hq as (_ & _ & _ & _ & Hq5).
  apply start_deadline_calls in Hs. destruct Hs as (Hs1 & _).
  pose proof (effective_maxAttempts_pos cfg) as Hpos.
  destruct (run_delay_calls Hrun) as (Hatt & Hlen & _).
  pose proof (run_delay_budget Hrun) as Hmax.
  exists r, x, w', (t0 ++ tr). split; [exact Hex |].
  rewrite delay_calls_app, sleeps_app, Hq5, Hs1. cbn [app].
  repeat split; try assumption; lia.
Qed.

(** ** Jitter around any strategy, and the default policy *)

(** Around whatever delay [d] the inner strategy gives, the jittered
    strategy draws once from the random source, after the inner
    strategy has run, and stays within [C] of [d] for an integer [C]
    that is at least [d] times the factor. *)
Lemma WithJitter_Delay_between (W : Type) (rand_Float64 : W -> float64 * W)
  (indefinite : float64 -> Z) (mf : positive) (ef : Z) (b : Backoff W)
  (attempt : Z) (w w1 : W) (d C : Z) :
  Delay b attempt w = (d, w1) ->
  0 <= d -> C <= d -> d + C < 2 ^ 53 -> ef <= 0 ->
  d * Zpos mf <= C * 2 ^ (- ef) ->
  unit_draw (fst (rand_Float64 w1)) ->
  d - C <= fst (Delay (WithJitter rand_Float64 indefinite
                         (S754_finite false mf ef) b) attempt w) <= d + C /\
  snd (Delay (WithJitter rand_Float64 indefinite
                (S754_finite false mf ef) b) attempt w) = snd (rand_Float64 w1).
Proof.
  intros Hb Hd HC Hsum Hef Hle Hdraw.
  apply unit_draw_between in Hdraw.
  cbn [Delay WithJitter]. unfold st_bind, st_ret. rewrite Hb.
  change (f64_leb (S754_finite false mf ef) f64_zero) with false.
  cbv beta iota.
  destruct (rand_Float64 w1) as [r w2]. cbn [fst snd] in Hdraw |- *.
  pose proof (@jittered_float_between d C r mf ef Hd Hsum Hef Hle Hdraw) as Hs.
  apply trunc_float64_between in Hs. destruct Hs as (z & Hz & Hzb).
  unfold Duration_of_float64. rewrite Hz.
  assert (Hin : (MinInt64 <=? z) && (z <=? MaxInt64) = true).
  { unfold MinInt64, MaxInt64. apply andb_true_intro.
    split; apply Z.leb_le; lia. }
  rewrite Hin.
  destruct (Z.ltb_spec z 0); cbn [fst snd]; split; try reflexivity; lia.
Qed.

(** X22: the policy [Default] allows three attempts and no duration
    budget. Up to attempt 37 its delay is within a fifth, and one
    nanosecond for the rounding, of 100ms doubled at each attempt and
    capped at 10s, for every draw of the random source between 0 and
    1; the random source is drawn from once. *)
Theorem Default_delay_bounds (W : Type) (rand_Float64 : W -> float64 * W)
  (indefinite : float64 -> Z) (realClock : Clock W) (attempt : Z) (w : W) :
  1 <= attempt <= 37 ->
  unit_draw (fst (rand_Float64 w)) ->
  p_maxAttempts (Default rand_Float64 indefinite realClock) = 3 /\
  p_maxDuration (Default rand_Float64 indefinite realClock) = 0 /\
  100 * Millisecond <= default_capped attempt <= 10 * Second /\
  default_capped attempt - default_capped attempt / 5 - 1
    <= fst (Delay (p_backoff (Default rand_Float64 indefinite realClock))
              attempt w)
    <= default_capped attempt + default_capped attempt / 5 + 1 /\
  snd (Delay (p_backoff (Default rand_Float64 indefinite realClock)) attempt w)
  = snd (rand_Float64 w).
Proof.
  intros Ha Hdraw. split; [reflexivity |]. split; [reflexivity |].
  assert (Hpow : 1 <= 2 ^ (attempt - 1) <= 2 ^ 36).
  { split.
    - change 1 with (2 ^ 0). apply Z.pow_le_mono_r; lia.
    - apply Z.pow_le_mono_r; lia. }
  change (2 ^ 36) with 68719476736 in Hpow.
  assert (Hc : 100 * Millisecond <= default_capped attempt <= 10 * Second).
  { unfold default_capped, Second, Millisecond, Microsecond, Nanosecond.
    lia. }
  split; [exact Hc |].
  change (p_backoff (Default rand_Float64 indefinite realClock))
    with (WithJitter rand_Float64 indefinite f64_0_2
            (WithCap (10 * Second) (Exponential W (100 * Millisecond)))).
  assert (Hin : Delay (WithCap (10 * Second) (Exponential W (100 * Millisecond)))
                  attempt w = (default_capped attempt, w)).
  { rewrite WithCap_Delay, Exponential_exact; [reflexivity | lia |].
    unfold in_int64, MinInt64, MaxInt64, Millisecond, Microsecond, Nanosecond.
    lia. }
  unfold Second, Millisecond, Microsecond, Nanosecond in Hc.
  pose proof (Z.div_mod (default_capped attempt) 5 ltac:(lia)) as Hdm.
  pose proof (Z.mod_pos_bound (default_capped attempt) 5 ltac:(lia)) as Hmod.
  unfold f64_0_2.
  destruct (@WithJitter_Delay_between W rand_Float64 indefinite
              7205759403792794 (-55) _ attempt w w
              (default_capped attempt) (default_capped attempt / 5 + 1) Hin)
    as [Hx Hw]; try assumption; try lia.
  split; [lia | exact Hw].
Qed.

(** The second attempt of the default policy, with the draw 0. *)
Lemma Default_delay_bounds_second :
  1 <= 2 <= 37 /\ unit_draw (fst (@rand_zero unit tt)) /\
  default_capped 2 - default_capped 2 / 5 - 1
    <= fst (Delay (p_backoff (Default (@rand_zero unit) (fun _ => MinInt64)
                                {| Now := fun w => (0, w);
                                   Sleep := fun _ w => (None, w) |})) 2 tt)
    <= default_capped 2 + default_capped 2 / 5 + 1.
Proof.
  assert (Ha : 1 <= 2 <= 37) by lia.
  assert (Hdraw : unit_draw (fst (@rand_zero unit tt))).
  { split; [reflexivity |]. split; vm_compute; [discriminate | reflexivity]. }
  split; [exact Ha |]. split; [exact Hdraw |].
  apply (@Default_delay_bounds unit (@rand_zero unit) (fun _ => MinInt64)
           {| Now := fun w => (0, w); Sleep := fun _ w => (None, w) |}
           2 tt Ha Hdraw).
Defined.

(** ** A predicate that accepts every error *)

Section Accepting.
Variable W : Type.
Variable fn : Func W.
Variable cfg : config W.
Variable maxA : Z.
Variable deadline : Time.
Hypothesis Haccepts : always_accepts cfg.

Lemma body_accepted a l es w t w' tr :
  body fn cfg maxA deadline a l es w = (t, w', tr) ->
  Forall (fun c => snd c = true) (condition_calls tr) /\
  forall r, t <> Return r ConditionRejected.
Proof.
  intros H. body_cases H.
  all: try match goal with
         | Hc : condition cfg = Some ?c, E : ?c (Some ?err) ?w0 = (?b, _) |- _ =>
             pose proof (Haccepts err w0 Hc) as Ha; rewrite E in Ha;
             cbn [fst] in Ha; subst b
         end.
  all: try discriminate.
  all: split; [cbn; repeat constructor | intros r; discriminate].
Qed.

Lemma run_accepted a l es w r x w' tr :
  run fn cfg maxA deadline a l es w (r, x) w' tr ->
  Forall (fun c => snd c = true) (condition_calls tr) /\
  x <> ConditionRejected.
Proof.
  intros H. remember (r, x) as res eqn:Hres. revert r x Hres.
  induction H as [a l es w r0 x0 w1 t1 Hb
                 | a l es w l' es' w1 t1 res w2 t2 Hb Hrun IH];
    intros r x Hres.
  - injection Hres as -> ->. apply body_accepted in Hb.
    destruct Hb as [Hall Hne]. split; [exact Hall |].
    intros ->. now apply (Hne r).
  - apply body_accepted in Hb. destruct Hb as [Hall _].
    destruct (IH r x Hres) as [Hall2 Hne].
    split; [| exact Hne].
    rewrite condition_calls_app. apply Forall_app. now split.
Qed.

End Accepting.

(** X23: under a retry predicate that accepts every error, as
    [defaultCondition] does, and under none, the run never leaves on
    the answer of the predicate: every answer recorded is [true]. *)
Theorem accepting_predicate_never_stops (W : Type) (fn : Func W)
  (cfg : config W) (w : W) :
  always_accepts cfg ->
  exists r x w' tr,
    execute fn cfg w = (Some (r, x), w', tr) /\
    x <> ConditionRejected /\
    Forall (fun c => snd c = true) (condition_calls tr).
Proof.
  intros Hacc.
  destruct (start_deadline cfg w) as [[deadline w0] t0] eqn:Hs.
  destruct (execute_run fn cfg w Hs) as ([r x] & w' & tr & Hex & Hrun).
  apply start_deadline_quiet in Hs. destruct Hs as (_ & _ & _ & Hq4 & _).
  destruct (run_accepted Hacc Hrun) as [Hall Hne].
  exists r, x, w', (t0 ++ tr). split; [exact Hex |].
  rewrite condition_calls_app, Hq4. cbn [app]. now split.
Qed.

(** The configuration of [retry.Do] without options has the default
    predicate. *)
Lemma accepting_predicate_never_stops_in_test :
  always_accepts (bench_config []) /\
  exists r x w' tr,
    execute always_errTest (bench_config []) newBench = (Some (r, x), w', tr) /\
    x <> ConditionRejected /\
    Forall (fun c => snd c = true) (condition_calls tr).
Proof.
  assert (H : always_accepts (bench_config [])).
  { intros cond e w Hc. injection Hc as <-. reflexivity. }
  split; [exact H |].
  apply (@accepting_predicate_never_stops bench always_errTest
           (bench_config []) newBench H).
Defined.
